(** * Language-server transport and connection lifecycle

    A shallow embedding of the three files that make up the LSP core of the
    extension:

    - [src/lsp/MessageIO.ts]               (module [IO] and module [Reader])
    - [src/lsp/GDScriptLanguageClient.ts]  (module [Client])
    - [src/lsp/ClientConnectionManager.ts] (module [Manager])

    JavaScript runs these on one event loop.  Every callback (a socket
    event, a timer, the continuation of an [await]) is a function from
    state to state here, and a run of the program is a list of such
    callbacks applied in order. *)

From Stdlib Require Import ZArith String List Bool Lia.
From stdpp Require Import base option list sorting gmap strings pretty.

Local Open Scope string_scope.
Local Open Scope list_scope.

(* ====================================================================== *)
(** * MessageIO: the socket owner *)
(* ====================================================================== *)

Module IO.

(** The lifetime of one [net.Socket] object. *)
Inductive phase := Connecting | Established | Destroyed.

(** What the transport emits on its own [EventEmitter]. *)
Inductive io_event :=
| EvConnected
| EvDisconnected
| EvData (chunk : string).

(** Events the runtime delivers to the listeners of one socket, plus the
    [setTimeout] callback created next to it in [connect]. *)
Inductive sock_event :=
| SConnect
| SIdleTimeout
| SData (chunk : string)
| SDrain
| SError
| SClose
| SConnectTimer.

Definition MAX_MESSAGE_CACHE : nat := 100.
Definition CONNECTION_TIMEOUT : Z := 10000.
Definition KEEPALIVE_INTERVAL : Z := 30000.

Section MessageIO.
(** [messageCache] holds strings and [write] never inspects them; the
    model is generic in the frame type so that a run can carry frames
    tagged with the number of the [write] call that produced them. *)
Context {Frame : Type}.

Record sock := Sock {
  sock_host : string;
  sock_port : Z;
  sock_phase : phase;
  sock_listeners : bool;      (* false once removeAllListeners() ran *)
  sock_connect_timer : bool;  (* connectionTimeout armed and not cleared *)
  sock_written : list Frame;  (* the arguments of socket.write, in order *)
}.

Record io := Io {
  socket : option nat;        (* this.socket, an index into [heap] *)
  messageCache : list Frame;
  draining : bool;
  heap : list sock;           (* every Socket made by connect, oldest first *)
}.

Definition init : io :=
  {| socket := None; messageCache := []; draining := false; heap := [] |}.

Definition set_socket (v : option nat) (st : io) : io :=
  {| socket := v; messageCache := messageCache st;
     draining := draining st; heap := heap st |}.
Definition set_cache (v : list Frame) (st : io) : io :=
  {| socket := socket st; messageCache := v;
     draining := draining st; heap := heap st |}.
Definition set_draining (v : bool) (st : io) : io :=
  {| socket := socket st; messageCache := messageCache st;
     draining := v; heap := heap st |}.
Definition set_heap (v : list sock) (st : io) : io :=
  {| socket := socket st; messageCache := messageCache st;
     draining := draining st; heap := v |}.

(** [socket.removeAllListeners(); socket.destroy();] *)
Definition torn_down (s : sock) : sock :=
  {| sock_host := sock_host s; sock_port := sock_port s;
     sock_phase := Destroyed; sock_listeners := false;
     sock_connect_timer := sock_connect_timer s;
     sock_written := sock_written s |}.

(** [clearTimeout(connectionTimeout)] *)
Definition timer_cleared (s : sock) : sock :=
  {| sock_host := sock_host s; sock_port := sock_port s;
     sock_phase := sock_phase s; sock_listeners := sock_listeners s;
     sock_connect_timer := false;
     sock_written := sock_written s |}.

Definition established (s : sock) : sock :=
  {| sock_host := sock_host s; sock_port := sock_port s;
     sock_phase := Established; sock_listeners := sock_listeners s;
     sock_connect_timer := sock_connect_timer s;
     sock_written := sock_written s |}.

(** [socket.resetAndDestroy()]: the socket dies, its listeners stay, and
    the runtime will still deliver its ["close"]. *)
Definition reset_destroyed (s : sock) : sock :=
  {| sock_host := sock_host s; sock_port := sock_port s;
     sock_phase := Destroyed; sock_listeners := sock_listeners s;
     sock_connect_timer := sock_connect_timer s;
     sock_written := sock_written s |}.

Definition wrote (m : Frame) (s : sock) : sock :=
  {| sock_host := sock_host s; sock_port := sock_port s;
     sock_phase := sock_phase s; sock_listeners := sock_listeners s;
     sock_connect_timer := sock_connect_timer s;
     sock_written := sock_written s ++ [m] |}.

Definition new_sock (host : string) (port : Z) : sock :=
  {| sock_host := host; sock_port := port;
     sock_phase := Connecting; sock_listeners := true;
     sock_connect_timer := true; sock_written := [] |}.

Definition on_heap (f : sock -> sock) (i : nat) (st : io) : io :=
  set_heap (alter f i (heap st)) st.

(** [this.socket.write(msg)] *)
Definition socket_write (m : Frame) (st : io) : io :=
  match socket st with
  | Some i => on_heap (wrote m) i st
  | None => st
  end.

(** MessageIO.ts 40-71: the part of [connect] that runs before the
    promise is returned.  The new socket is [length (heap st)]. *)
Definition connect (host : string) (port : Z) (st : io) : io :=
  let st1 :=
    match socket st with
    | Some i => set_socket None (on_heap torn_down i st)
    | None => st
    end in
  let st2 :=
    if (0 <? length (messageCache st1))%nat then set_cache [] st1 else st1 in
  set_heap (heap st2 ++ [new_sock host port]) st2.

(** MessageIO.ts 84-87: [while (cache.length > 0) this.socket.write(cache.shift())] *)
Fixpoint flush (pending : list Frame) (st : io) : io :=
  match pending with
  | [] => set_cache [] st
  | m :: rest => flush rest (socket_write m (set_cache rest st))
  end.

(** if (this.socket === socket) this.socket = null; *)
Definition forget_if_current (i : nat) (st : io) : io :=
  match socket st with
  | Some j => if Nat.eqb i j then set_socket None st else st
  | None => st
  end.

(** MessageIO.ts 73-91 *)
Definition on_connect (i : nat) (st : io) : io * list io_event :=
  let st1 := on_heap (fun s => established (timer_cleared s)) i st in
  let st2 := set_socket (Some i) st1 in
  (flush (messageCache st2) st2, [EvConnected]).

(** MessageIO.ts 64-69 *)
Definition on_connect_timer (i : nat) (st : io) : io * list io_event :=
  (on_heap (fun s => torn_down (timer_cleared s)) i st, []).

(** MessageIO.ts 107-120 and 122-135; the two bodies differ only in what
    they do to the promise of [connect]. *)
Definition on_error (i : nat) (st : io) : io * list io_event :=
  let st1 := on_heap (fun s => torn_down (timer_cleared s)) i st in
  (forget_if_current i st1, [EvDisconnected]).

Definition on_close (i : nat) (st : io) : io * list io_event :=
  let st1 := on_heap (fun s => torn_down (timer_cleared s)) i st in
  (forget_if_current i st1, [EvDisconnected]).

(** Which callbacks the runtime can still run for socket [s]. *)
Definition deliverable (e : sock_event) (s : sock) : bool :=
  match e with
  | SConnectTimer => sock_connect_timer s
  | SConnect =>
      sock_listeners s &&
      match sock_phase s with Connecting => true | _ => false end
  | SData _ | SDrain | SIdleTimeout =>
      sock_listeners s &&
      match sock_phase s with Established => true | _ => false end
  | SError | SClose => sock_listeners s
  end.

Definition fire (i : nat) (e : sock_event) (st : io) : io * list io_event :=
  match heap st !! i with
  | Some s =>
      if deliverable e s then
        match e with
        | SConnect => on_connect i st
        | SIdleTimeout => (st, [])
        | SData chunk => (st, [EvData chunk])
        | SDrain => (set_draining false st, [])
        | SError => on_error i st
        | SClose => on_close i st
        | SConnectTimer => on_connect_timer i st
        end
      else (st, [])
  | None => (st, [])
  end.

(** MessageIO.ts 139-165.  [canContinue] is what [socket.write] returns. *)
Definition write (message : Frame) (canContinue : bool) (st : io) : io :=
  match socket st with
  | Some _ =>
      if draining st then
        if (length (messageCache st) <? MAX_MESSAGE_CACHE)%nat
        then set_cache (messageCache st ++ [message]) st
        else st
      else
        let st1 := socket_write message st in
        if canContinue then st1 else set_draining true st1
  | None =>
      if (length (messageCache st) <? MAX_MESSAGE_CACHE)%nat
      then set_cache (messageCache st ++ [message]) st
      else st
  end.

(** GDScriptLanguageClient.ts 161-169, the part of [disposeClient] that
    reaches into the transport. *)
Definition dispose (st : io) : io :=
  let st1 :=
    match socket st with
    | Some i => set_socket None (on_heap torn_down i st)
    | None => st
    end in
  set_cache [] st1.

(** GDScriptLanguageClient.ts 376: [this.io.socket.resetAndDestroy()].
    [None] is the TypeError raised when [this.io.socket] is null. *)
Definition resetAndDestroy (st : io) : option io :=
  match socket st with
  | Some i => Some (on_heap reset_destroyed i st)
  | None => None
  end.

(** One thing that happens to a transport. *)
Inductive action :=
| Connect (host : string) (port : Z)
| Write (message : Frame) (canContinue : bool)
| Fire (i : nat) (e : sock_event)
| Reset
| Dispose.

Definition step (a : action) (st : io) : io :=
  match a with
  | Connect host port => connect host port st
  | Write m ok => write m ok st
  | Fire i e => fst (fire i e st)
  | Reset => match resetAndDestroy st with Some st' => st' | None => st end
  | Dispose => dispose st
  end.

Definition run (tr : list action) (st : io) : io :=
  fold_left (fun st a => step a st) tr st.

(** Sockets whose connection is up. *)
Definition is_open (s : sock) : bool :=
  match sock_phase s with Established => true | _ => false end.

Definition open_sockets (st : io) : nat :=
  length (filter (fun s => is_open s = true) (heap st)).

End MessageIO.

Arguments sock : clear implicits.
Arguments io : clear implicits.
Arguments action : clear implicits.

(** What the flush loop of [on_connect] amounts to for the socket it
    writes to. *)
Definition wrote_all {Frame : Type} (ms : list Frame) (s : sock Frame)
  : sock Frame :=
  {| sock_host := sock_host s; sock_port := sock_port s;
     sock_phase := sock_phase s; sock_listeners := sock_listeners s;
     sock_connect_timer := sock_connect_timer s;
     sock_written := sock_written s ++ ms |}.

(** A change to one socket that keeps what it has written and does not
    make it [Connecting] again. *)
Definition quiet {Frame : Type} (f : sock Frame -> sock Frame) : Prop :=
  forall s, sock_written (f s) = sock_written s /\
            (sock_phase (f s) = Connecting -> sock_phase s = Connecting).

(** ** Runs whose frames carry the number of their [write] call *)

Abbreviation labelled := (nat * string)%type.

Definition labels (l : list labelled) : list nat := List.map fst l.

(** The [k]-th call of [write] in the run gets the label [n + k]. *)
Fixpoint number_from (n : nat) (tr : list (action string))
  : list (action labelled) :=
  match tr with
  | [] => []
  | Write m ok :: rest => Write (n, m) ok :: number_from (S n) rest
  | Connect host port :: rest => Connect host port :: number_from n rest
  | Fire i e :: rest => Fire i e :: number_from n rest
  | Reset :: rest => Reset :: number_from n rest
  | Dispose :: rest => Dispose :: number_from n rest
  end.

(** Forgetting the labels. *)
Definition sock_map {A B : Type} (f : A -> B) (s : sock A) : sock B :=
  {| sock_host := sock_host s; sock_port := sock_port s;
     sock_phase := sock_phase s; sock_listeners := sock_listeners s;
     sock_connect_timer := sock_connect_timer s;
     sock_written := f <$> sock_written s |}.

Definition io_map {A B : Type} (f : A -> B) (st : io A) : io B :=
  {| socket := socket st;
     messageCache := f <$> messageCache st;
     draining := draining st;
     heap := sock_map f <$> heap st |}.

Definition action_map {A B : Type} (f : A -> B) (a : action A) : action B :=
  match a with
  | Connect host port => Connect host port
  | Write m ok => Write (f m) ok
  | Fire i e => Fire i e
  | Reset => Reset
  | Dispose => Dispose
  end.

(** Frames leave every socket in the order of the calls of [write], and
    the cache holds them in that order. *)
Record in_call_order (n : nat) (st : io labelled) : Prop := {
  cache_sorted : StronglySorted lt (labels (messageCache st));
  cache_below : Forall (fun k => k < n) (labels (messageCache st));
  written_sorted :
    Forall (fun s => StronglySorted lt (labels (sock_written s))) (heap st);
  written_below :
    Forall (fun s => Forall (fun k => k < n) (labels (sock_written s)))
           (heap st);
  connecting_silent :
    Forall (fun s => sock_phase s = Connecting -> sock_written s = [])
           (heap st);
  current_connected :
    forall i s, socket st = Some i -> heap st !! i = Some s ->
                sock_phase s <> Connecting;
}.


(** ** Calls of [connect] that do not overlap *)

Definition is_connecting {Frame : Type} (s : sock Frame) : bool :=
  match sock_phase s with Connecting => true | _ => false end.

Definition is_destroyed {Frame : Type} (s : sock Frame) : bool :=
  match sock_phase s with Destroyed => true | _ => false end.

(** [connect] is never called while the socket of an earlier call is
    still connecting. *)
Fixpoint well_spaced {Frame : Type} (tr : list (action Frame))
         (st : io Frame) : bool :=
  match tr with
  | [] => true
  | a :: rest =>
      match a with
      | Connect _ _ => forallb (fun s => negb (is_connecting s)) (heap st)
      | _ => true
      end && well_spaced rest (step a st)
  end.

(** A socket the runtime may still call back for, or that is not yet
    destroyed. *)
Definition active {Frame : Type} (s : sock Frame) : bool :=
  sock_listeners s || sock_connect_timer s || negb (is_destroyed s).

(** Only the newest socket is active, and once it is past connecting it
    is the one in [this.socket]. *)
Record sequential {Frame : Type} (st : io Frame) : Prop := {
  active_newest :
    forall j s, heap st !! j = Some s -> active s = true ->
                S j = length (heap st);
  active_current :
    forall j s, heap st !! j = Some s -> active s = true ->
                sock_phase s <> Connecting -> socket st = Some j;
  timer_connecting :
    forall j s, heap st !! j = Some s -> sock_connect_timer s = true ->
                sock_phase s = Connecting;
  current_listening :
    forall j, socket st = Some j ->
              exists s, heap st !! j = Some s /\ sock_listeners s = true /\
                        sock_phase s <> Connecting;
}.

(** Everything written so far, socket after socket. *)
Definition all_written {Frame : Type} (st : io Frame) : list Frame :=
  concat (sock_written <$> heap st).

(** Frames left the transport in the order of the calls of [write], the
    sockets taken one after the other; and while the newest socket is
    connecting, every frame in the cache is younger than every frame
    written. *)
Record in_global_order (st : io labelled) : Prop := {
  all_sorted : StronglySorted lt (labels (all_written st));
  cache_younger :
    forall s, last (heap st) = Some s -> sock_phase s = Connecting ->
    forall w c, w ∈ labels (all_written st) ->
                c ∈ labels (messageCache st) -> w < c;
}.

(** ** Two calls of [connect] before the first socket is up *)

Definition localhost : string := "127.0.0.1".

Definition two_connects : list (action string) :=
  [Connect localhost 6005; Connect localhost 6008].

Definition overlapping_connects : list (action string) :=
  List.app two_connects [Fire 0 SConnect; Fire 1 SConnect].

(** Two sockets connecting at once; the first comes up, a write fills
    its buffer, a second write is queued, the buffer drains, a third
    write goes out; then the second socket comes up and flushes the
    queue. *)
Definition stale_flush : list (action string) :=
  List.app two_connects
    [Fire 0 SConnect; Write "a" false; Write "b" true; Fire 0 SDrain;
     Write "c" true; Fire 1 SConnect].

(** One socket: a write fills its buffer, the next is queued, the
    buffer drains, a third write goes out. *)
Definition backpressure_run : list (action string) :=
  [Connect localhost 6005; Fire 0 SConnect;
   Write "a" false; Write "b" true; Fire 0 SDrain; Write "c" true].

End IO.

(* ====================================================================== *)
(** * String.prototype.replace / replaceAll, for literal patterns *)
(* ====================================================================== *)

Module Text.

Definition newline : string := String (Ascii.ascii_of_nat 10) EmptyString.
Definition is_hash (c : Ascii.ascii) : bool := Ascii.eqb c (Ascii.ascii_of_nat 35).
Definition is_newline (c : Ascii.ascii) : bool :=
  Ascii.eqb c (Ascii.ascii_of_nat 10).

Definition starts_with_hash (s : string) : bool :=
  match s with
  | String c _ => is_hash c
  | EmptyString => false
  end.

(** [s.replace(/\n[#]+/g, "\n")]: after a newline, a run of one or more
    ['#'] is dropped. *)
Fixpoint strip_heading_marks (dropping : bool) (s : string) : string :=
  match s with
  | EmptyString => EmptyString
  | String c rest =>
      if dropping && is_hash c then strip_heading_marks true rest
      else if is_newline c && starts_with_hash rest
           then String c (strip_heading_marks true rest)
           else String c (strip_heading_marks false rest)
  end.

(** [s.replaceAll(pat, rep)] when [all] is set, [s.replace(pat, rep)]
    (first occurrence only) otherwise; [pat] is a non-empty literal.
    [skip] counts the characters of a match still to be consumed. *)
Fixpoint replace_from (all : bool) (pat rep : string)
         (active : bool) (skip : nat) (s : string) : string :=
  match s with
  | EmptyString => EmptyString
  | String c rest =>
      match skip with
      | S k => replace_from all pat rep active k rest
      | O =>
          if active && String.prefix pat s
          then rep +:+ replace_from all pat rep all (String.length pat - 1) rest
          else String c (replace_from all pat rep active 0 rest)
      end
  end.

Definition replace (pat rep s : string) : string :=
  replace_from false pat rep true 0 s.
Definition replaceAll (pat rep s : string) : string :=
  replace_from true pat rep true 0 s.

End Text.

(* ====================================================================== *)
(** * GDScriptLanguageClient *)
(* ====================================================================== *)

Module Client.

Inductive ClientStatus := PENDING | DISCONNECTED | CONNECTED | REJECTED.

Inductive TargetLSP := HEADLESS | EDITOR.

(** The settings read through [get_configuration]. *)
Record config := {
  lsp_serverHost : string;
  lsp_serverPort : Z;
  lsp_headless : bool;
  lsp_autoReconnect_enabled : bool;
  lsp_autoReconnect_attempts : Z;
  lsp_autoReconnect_cooldown : Z;
}.

(** [message.id]: a number, a string, or absent (a notification going
    out through the same writer has no [id]; [Map] then files it under
    the key [undefined]). *)
Inductive msg_id := IdUndefined | IdNum (n : Z) | IdStr (s : string).

#[global] Instance msg_id_eq_dec : EqDecision msg_id.
Proof. solve_decision. Defined.

Definition msg_id_enc (i : msg_id) : option (Z + string) :=
  match i with
  | IdUndefined => None
  | IdNum n => Some (inl n)
  | IdStr s => Some (inr s)
  end.

Definition msg_id_dec (x : option (Z + string)) : msg_id :=
  match x with
  | None => IdUndefined
  | Some (inl n) => IdNum n
  | Some (inr s) => IdStr s
  end.

#[global] Instance msg_id_countable : Countable msg_id.
Proof. refine (inj_countable' msg_id_enc msg_id_dec _). by intros []. Defined.

Record RequestMessage := {
  req_id : msg_id;
  req_method : option string;
  req_params : string;          (* the params, already as JSON text *)
}.

(** [{ ...message, timestamp: Date.now() }] *)
Record sent := {
  sent_message : RequestMessage;
  sent_timestamp : Z;
}.

Record DocumentLinkResult := {
  link_target : string;
  link_tooltip : option string;
}.

(** The values of [message.result], told apart by what
    [response_filter] does with them. *)
Inductive result :=
| RHover (value : string)
    (* an object whose contents is an object with the string [value] *)
| RHoverPlain (raw : string)
    (* an object whose contents is there and whose contents.value is
       undefined or falsy without being a string: contents is a plain
       string, an array of them, or an object without a value *)
| RLinks (links : list DocumentLinkResult)
    (* an array of objects that each have a string target *)
| RNull
    (* null, or no result at all (an error response) *)
| RFalsy (raw : string)
    (* false, 0 or the empty string *)
| ROther (raw : string).
    (* any other value: a truthy primitive, an array with an element
       that has no string target, an object without contents or with
       contents null, an object whose contents.value is truthy and not
       a string *)

Record ResponseMessage := {
  resp_id : msg_id;
  resp_result : result;
}.

Record NotificationMessage := {
  notif_method : string;
  notif_path : option string;   (* params.path, when there is one *)
  notif_raw : string;
}.

(** A filter hands the message on or answers [false]. *)
Inductive filtered (A : Type) :=
| Forward (m : A)
| Discard.
Arguments Forward {A} m.
Arguments Discard {A}.

Inductive level := LDebug | LInfo | LWarn.
Definition log_line : Type := level * string.

Record client := {
  io : IO.io string;  (* public io = new MessageIO() *)
  target : TargetLSP;
  port : Z;
  lastPortTried : Z;
  sentMessages : gmap msg_id sent;
  rejected : bool;
  _status : ClientStatus;
  io_listeners : bool;  (* boundOnConnected/boundOnDisconnected are registered on io *)
  filters_bound : bool;  (* io.*Filter are this client's filters (identity otherwise) *)
  events_listeners : bool;  (* somebody listens to events.on("status") *)
  reader_attached : bool;  (* io.reader has its listeners on io *)
  started : bool;  (* LanguageClient: start() was called, needsStart() is false *)
  log : list log_line;  (* lines sent to the lsp.client logger *)
}.

Definition set_io (v : IO.io string) (c : client) : client :=
  {| io := v; target := target c; port := port c;
     lastPortTried := lastPortTried c; sentMessages := sentMessages c;
     rejected := rejected c; _status := _status c;
     io_listeners := io_listeners c; filters_bound := filters_bound c;
     events_listeners := events_listeners c;
     reader_attached := reader_attached c; started := started c;
     log := log c |}.
Definition set_target (v : TargetLSP) (c : client) : client :=
  {| io := io c; target := v; port := port c;
     lastPortTried := lastPortTried c; sentMessages := sentMessages c;
     rejected := rejected c; _status := _status c;
     io_listeners := io_listeners c; filters_bound := filters_bound c;
     events_listeners := events_listeners c;
     reader_attached := reader_attached c; started := started c;
     log := log c |}.
Definition set_port (v : Z) (c : client) : client :=
  {| io := io c; target := target c; port := v;
     lastPortTried := lastPortTried c; sentMessages := sentMessages c;
     rejected := rejected c; _status := _status c;
     io_listeners := io_listeners c; filters_bound := filters_bound c;
     events_listeners := events_listeners c;
     reader_attached := reader_attached c; started := started c;
     log := log c |}.
Definition set_lastPortTried (v : Z) (c : client) : client :=
  {| io := io c; target := target c; port := port c; lastPortTried := v;
     sentMessages := sentMessages c; rejected := rejected c;
     _status := _status c; io_listeners := io_listeners c;
     filters_bound := filters_bound c;
     events_listeners := events_listeners c;
     reader_attached := reader_attached c; started := started c;
     log := log c |}.
Definition set_sentMessages (v : gmap msg_id sent) (c : client) : client :=
  {| io := io c; target := target c; port := port c;
     lastPortTried := lastPortTried c; sentMessages := v;
     rejected := rejected c; _status := _status c;
     io_listeners := io_listeners c; filters_bound := filters_bound c;
     events_listeners := events_listeners c;
     reader_attached := reader_attached c; started := started c;
     log := log c |}.
Definition set_rejected (v : bool) (c : client) : client :=
  {| io := io c; target := target c; port := port c;
     lastPortTried := lastPortTried c; sentMessages := sentMessages c;
     rejected := v; _status := _status c; io_listeners := io_listeners c;
     filters_bound := filters_bound c;
     events_listeners := events_listeners c;
     reader_attached := reader_attached c; started := started c;
     log := log c |}.
Definition set_status (v : ClientStatus) (c : client) : client :=
  {| io := io c; target := target c; port := port c;
     lastPortTried := lastPortTried c; sentMessages := sentMessages c;
     rejected := rejected c; _status := v; io_listeners := io_listeners c;
     filters_bound := filters_bound c;
     events_listeners := events_listeners c;
     reader_attached := reader_attached c; started := started c;
     log := log c |}.
Definition set_io_listeners (v : bool) (c : client) : client :=
  {| io := io c; target := target c; port := port c;
     lastPortTried := lastPortTried c; sentMessages := sentMessages c;
     rejected := rejected c; _status := _status c; io_listeners := v;
     filters_bound := filters_bound c;
     events_listeners := events_listeners c;
     reader_attached := reader_attached c; started := started c;
     log := log c |}.
Definition set_filters_bound (v : bool) (c : client) : client :=
  {| io := io c; target := target c; port := port c;
     lastPortTried := lastPortTried c; sentMessages := sentMessages c;
     rejected := rejected c; _status := _status c;
     io_listeners := io_listeners c; filters_bound := v;
     events_listeners := events_listeners c;
     reader_attached := reader_attached c; started := started c;
     log := log c |}.
Definition set_events_listeners (v : bool) (c : client) : client :=
  {| io := io c; target := target c; port := port c;
     lastPortTried := lastPortTried c; sentMessages := sentMessages c;
     rejected := rejected c; _status := _status c;
     io_listeners := io_listeners c; filters_bound := filters_bound c;
     events_listeners := v; reader_attached := reader_attached c;
     started := started c; log := log c |}.
Definition set_reader_attached (v : bool) (c : client) : client :=
  {| io := io c; target := target c; port := port c;
     lastPortTried := lastPortTried c; sentMessages := sentMessages c;
     rejected := rejected c; _status := _status c;
     io_listeners := io_listeners c; filters_bound := filters_bound c;
     events_listeners := events_listeners c; reader_attached := v;
     started := started c; log := log c |}.
Definition set_started (v : bool) (c : client) : client :=
  {| io := io c; target := target c; port := port c;
     lastPortTried := lastPortTried c; sentMessages := sentMessages c;
     rejected := rejected c; _status := _status c;
     io_listeners := io_listeners c; filters_bound := filters_bound c;
     events_listeners := events_listeners c;
     reader_attached := reader_attached c; started := v; log := log c |}.
Definition set_log (v : list log_line) (c : client) : client :=
  {| io := io c; target := target c; port := port c;
     lastPortTried := lastPortTried c; sentMessages := sentMessages c;
     rejected := rejected c; _status := _status c;
     io_listeners := io_listeners c; filters_bound := filters_bound c;
     events_listeners := events_listeners c;
     reader_attached := reader_attached c; started := started c;
     log := v |}.

Definition say (lv : level) (text : string) (c : client) : client :=
  set_log (List.app (log c) [(lv, text)]) c.

(** [set status(v)]: store, then emit to whoever listens.  The second
    component is what the listeners of ["status"] receive. *)
Definition emit_status (v : ClientStatus) (c : client)
  : client * list ClientStatus :=
  (set_status v c, if events_listeners c then [v] else []).

(** GDScriptLanguageClient.ts 112-138 *)
Definition new_client : client :=
  {| io := IO.init; target := EDITOR; port := (-1)%Z;
     lastPortTried := (-1)%Z; sentMessages := ∅; rejected := false;
     _status := PENDING; io_listeners := true; filters_bound := true;
     events_listeners := false; reader_attached := false;
     started := false; log := [] |}.

(** GDScriptLanguageClient.ts 145-173 *)
Definition disposeClient (c : client) : client :=
  let c1 := set_sentMessages ∅ c in
  let c2 := set_io_listeners false c1 in
  let c3 := set_filters_bound false c2 in
  let c4 := set_reader_attached false c3 in
  let c5 := set_io (IO.dispose (io c4)) c4 in
  set_events_listeners false c5.

(** GDScriptLanguageClient.ts 185-197 *)
Definition select_port (target : TargetLSP) (tryAlternatePort : bool)
           (lastPortTried port : Z) : Z :=
  match target with
  | EDITOR =>
      if ((port =? 6005) || (port =? 6008))%Z then
        if tryAlternatePort && (lastPortTried =? 6005)%Z then 6008%Z
        else if tryAlternatePort && (lastPortTried =? 6008)%Z then 6005%Z
        else 6005%Z
      else port
  | HEADLESS => port
  end.

(** GDScriptLanguageClient.ts 175-211, up to the [await]: the socket is
    created inside [io.connect] before that promise is returned. *)
Definition connect (cfg : config) (tgt : TargetLSP) (tryAlternatePort : bool)
           (c : client) : client * list ClientStatus :=
  let c1 := set_target tgt (set_rejected false c) in
  let '(c2, heard) := emit_status PENDING c1 in
  let configured :=
    if (port c2 =? -1)%Z then lsp_serverPort cfg else port c2 in
  let chosen :=
    select_port (target c2) tryAlternatePort (lastPortTried c2) configured in
  let c3 := set_lastPortTried chosen c2 in
  let c4 := say LInfo "attempting to connect to LSP" c3 in
  (set_io (IO.connect (lsp_serverHost cfg) chosen (io c4)) c4, heard).

(** GDScriptLanguageClient.ts 448-453 *)
Definition on_connected (c : client) : client * list ClientStatus :=
  let '(c1, heard) := emit_status CONNECTED c in
  (say LInfo "connected to LSP" c1, heard).

(** GDScriptLanguageClient.ts 455-463 *)
Definition on_disconnected (c : client) : client * list ClientStatus :=
  if rejected c then emit_status REJECTED c
  else emit_status DISCONNECTED c.

Definition method_is (m : option string) (name : string) : bool :=
  match m with
  | Some s => String.eqb s name
  | None => false
  end.

Definition method_startsWith (m : option string) (pre : string) : bool :=
  match m with
  | Some s => String.prefix pre s
  | None => false
  end.

(** GDScriptLanguageClient.ts 253-288.  [now] is [Date.now()]. *)
Definition request_filter (now : Z) (message : RequestMessage) (c : client)
  : client * filtered RequestMessage :=
  if rejected c then
    if method_is (req_method message) "shutdown"
    then (c, Forward message)
    else (c, Discard)
  else
    let c1 :=
      set_sentMessages
        (<[req_id message :=
             {| sent_message := message; sent_timestamp := now |}]>
           (sentMessages c)) c in
    let c2 :=
      if method_startsWith (req_method message) "textDocument/did"
      then say LDebug "TX document sync" c1 else c1 in
    if method_is (req_method message) "workspace/didChangeWatchedFiles"
    then (c2, Discard)
    else if method_is (req_method message) "workspace/symbol"
    then (c2, Discard)
    else (c2, Forward message).

(** GDScriptLanguageClient.ts 312-323 *)
Definition fix_hover_value (value : string) : string :=
  let v1 := Text.strip_heading_marks false value in
  let v2 := Text.replaceAll "`br`" (Text.newline +:+ Text.newline) v1 in
  let v3 := Text.replace "`codeblocks`" EmptyString v2 in
  let v4 := Text.replace "`/codeblocks`" EmptyString v3 in
  let v5 := Text.replace "`gdscript`"
              (Text.newline +:+ "GDScript:" +:+ Text.newline +:+ "```gdscript")
              v4 in
  let v6 := Text.replace "`/gdscript`" "```" v5 in
  let v7 := Text.replace "`csharp`"
              (Text.newline +:+ "C#:" +:+ Text.newline +:+ "```csharp") v6 in
  Text.replace "`/csharp`" "```" v7.

(** Where [response_filter] stands when control goes back to the event
    loop: its promise is settled (the caller's [await] resumes in the same
    turn of the loop), it waits for the UID lookup, or it threw on a
    result of an unexpected shape. *)
Inductive filter_step :=
| Settled (r : filtered ResponseMessage)
| AwaitsIO (uids : list string)
| Thrown.

Definition is_uid (target : string) : bool := String.prefix "uid://" target.

(** GDScriptLanguageClient.ts 290-345: everything before [await import].
    Reading [result.contents.value] throws when [result] or
    [result.contents] is null or undefined, [value.replace] when the
    value is truthy and no string, and [for (... of results)] when a
    truthy result cannot be iterated or an element has no string
    target. *)
Definition response_filter (now : Z) (message : ResponseMessage) (c : client)
  : client * filter_step :=
  let sentMessage := sentMessages c !! resp_id message in
  let c1 := set_sentMessages (delete (resp_id message) (sentMessages c)) c in
  let c2 :=
    match sentMessage with
    | Some e =>
        if (sent_timestamp e =? 0)%Z then c1
        else if (1000 <? now - sent_timestamp e)%Z
             then say LWarn "Slow LSP response" c1
             else c1
    | None => c1
    end in
  let method := sentMessage ≫= (fun e => req_method (sent_message e)) in
  if method_is method "textDocument/hover" then
    match resp_result message with
    | RHover value =>
        if String.eqb value EmptyString then (c2, Settled (Forward message))
        else (c2, Settled (Forward
                {| resp_id := resp_id message;
                   resp_result := RHover (fix_hover_value value) |}))
    | RHoverPlain _ => (c2, Settled (Forward message))
    | _ => (c2, Thrown)
    end
  else if method_is method "textDocument/documentLink" then
    match resp_result message with
    | RNull | RFalsy _ => (c2, Settled (Forward message))
    | RLinks results =>
        let uidsToResolve :=
          List.filter is_uid (List.map link_target results) in
        match uidsToResolve with
        | [] => (c2, Settled (Forward message))
        | _ :: _ => (c2, AwaitsIO uidsToResolve)
        end
    | _ => (c2, Thrown)
    end
  else (c2, Settled (Forward message)).

(** How [convert_uri_to_resource_path] ends for one file. *)
Inductive path_result :=
| PathThrows
| PathIs (resourcePath : option string).

(** How the lookup inside the [try] ends: the import or
    [convert_uids_to_uris] throws, or the UIDs are looked up ([None]:
    the map has no entry for the UID) and the path of each file found
    is asked for when its link is reached. *)
Inductive lookup :=
| LookupThrows
| LookupGives (found : string -> option (string * path_result)).

(** GDScriptLanguageClient.ts 357-358: the link once it is resolved *)
Definition resolved_link (fileUri : string) (resourcePath : option string)
  : DocumentLinkResult :=
  {| link_target := fileUri;
     link_tooltip :=
       Some (match resourcePath with
             | Some p => if String.eqb p EmptyString then fileUri else p
             | None => fileUri
             end) |}.

(** GDScriptLanguageClient.ts 352-360, one turn of the loop; [None]
    when [convert_uri_to_resource_path] throws. *)
Definition rewrite_link (found : string -> option (string * path_result))
           (r : DocumentLinkResult) : option DocumentLinkResult :=
  if is_uid (link_target r) then
    match found (link_target r) with
    | Some (fileUri, PathIs resourcePath) =>
        Some (resolved_link fileUri resourcePath)
    | Some (_, PathThrows) => None
    | None => Some r
    end
  else Some r.

(** GDScriptLanguageClient.ts 351-361: the links are rewritten in place,
    one after the other; a throw leaves the loop, with the links before
    it rewritten and the others as they were.  The boolean says whether
    it threw. *)
Fixpoint rewrite_links (found : string -> option (string * path_result))
         (links : list DocumentLinkResult) : list DocumentLinkResult * bool :=
  match links with
  | [] => ([], false)
  | r :: rest =>
      match rewrite_link found r with
      | Some r' =>
          let '(rest', threw) := rewrite_links found rest in
          (r' :: rest', threw)
      | None => (r :: rest, true)
      end
  end.

(** GDScriptLanguageClient.ts 346-368: from the lookup to [return
    message].  The [catch] logs and goes on. *)
Definition response_filter_settle (l : lookup) (message : ResponseMessage)
           (c : client) : client * filtered ResponseMessage :=
  match l with
  | LookupThrows => (say LWarn "Failed to resolve UIDs:" c, Forward message)
  | LookupGives found =>
      match resp_result message with
      | RLinks results =>
          let '(results', threw) := rewrite_links found results in
          (if threw then say LWarn "Failed to resolve UIDs:" c else c,
           Forward {| resp_id := resp_id message;
                      resp_result := RLinks results' |})
      | _ => (c, Forward message)
      end
  end.

(** A link after a lookup in which no path throws. *)
Definition apply_resolved
           (resolved : string -> option (string * option string))
           (r : DocumentLinkResult) : DocumentLinkResult :=
  if is_uid (link_target r) then
    match resolved (link_target r) with
    | Some (fileUri, resourcePath) => resolved_link fileUri resourcePath
    | None => r
    end
  else r.

(** A lookup in which every path is found. *)
Definition all_paths (resolved : string -> option (string * option string))
  : string -> option (string * path_result) :=
  fun uid =>
    match resolved uid with
    | Some (fileUri, resourcePath) => Some (fileUri, PathIs resourcePath)
    | None => None
    end.

(** The two ways through the [try] that do not stop half-way:
    [Some resolved], the lookup gave [resolved] and every path was
    found; [None], the import or [convert_uids_to_uris] threw before
    any link was touched. *)
Definition response_filter_resume
           (resolved : option (string -> option (string * option string)))
           (message : ResponseMessage) (c : client)
  : client * filtered ResponseMessage :=
  response_filter_settle
    (match resolved with
     | Some f => LookupGives (all_paths f)
     | None => LookupThrows
     end) message c.

(** What [notification_filter] sets in motion besides returning. *)
Inductive side_effect :=
| CheckWorkspace (server_path : option string)
| CapabilitiesReceived.

(** GDScriptLanguageClient.ts 381-405 *)
Definition notification_filter (message : NotificationMessage)
  : filtered NotificationMessage * list side_effect :=
  (Forward message,
   List.app
     (if String.eqb (notif_method message) "gdscript_client/changeWorkspace"
      then [CheckWorkspace (notif_path message)] else [])
     (if String.eqb (notif_method message) "gdscript/capabilities"
      then [CapabilitiesReceived] else [])).

(** GDScriptLanguageClient.ts 371-379, after [await get_project_dir()].
    [normalize] is [path.normalize]; [project_dir] is what the await
    produced.  A missing path or a null socket is a TypeError inside the
    async function: nothing after it runs. *)
Definition check_workspace (normalize : string -> string)
           (server : option string) (project_dir : string) (c : client)
  : client :=
  match server with
  | None => c
  | Some p =>
      let server_path := normalize p in
      let client_path := normalize project_dir in
      if String.eqb server_path client_path then c
      else
        let c1 := say LWarn "Connected LSP is a different workspace" c in
        match IO.resetAndDestroy (io c1) with
        | Some io' => set_rejected true (set_io io' c1)
        | None => c1
        end
  end.

(** ** send_request *)

(** A promise once it has settled. *)
Inductive promise (R : Type) :=
| Fulfilled (v : R)
| Rejected (reason : string).
Arguments Fulfilled {R} v.
Arguments Rejected {R} reason.

(** What calling a promise-returning function does: it throws on the
    spot, or it returns a promise. *)
Inductive call (R : Type) :=
| Throws (reason : string)
| Returns (p : promise R).
Arguments Throws {R} reason.
Arguments Returns {R} p.

(** How a function body ends. *)
Inductive completion (R : Type) :=
| Normal                                (* falls off the end: undefined *)
| ReturnPromise (p : promise R)         (* return <a promise> *)
| Throw (reason : string).
Arguments Normal {R}.
Arguments ReturnPromise {R} p.
Arguments Throw {R} reason.

(** [try { block } catch { handler }]: only a [throw] inside the block
    reaches the handler.  A promise that is returned without [await]
    leaves the block as a value. *)
Definition try_catch {R S : Type} (block : S * completion R)
           (handler : S -> S * completion R) : S * completion R :=
  match snd block with
  | Throw _ => handler (fst block)
  | _ => block
  end.

(** The promise of an [async] function: resolved with what the body
    returns (taking over the state of a returned promise), rejected with
    what it throws.  [None] is [undefined]. *)
Definition async_function {R : Type} (body : completion R)
  : promise (option R) :=
  match body with
  | Normal => Fulfilled None
  | ReturnPromise (Fulfilled v) => Fulfilled (Some v)
  | ReturnPromise (Rejected e) => Rejected e
  | Throw e => Rejected e
  end.

(** GDScriptLanguageClient.ts 213-219.  [sendRequest] is what the call
    [this.sendRequest(method, params)] of the base class does. *)
Definition send_request {R : Type} (method : string) (params : string)
           (sendRequest : string -> string -> call R) (c : client)
  : client * promise (option R) :=
  let body :=
    try_catch
      (c, match sendRequest method params with
          | Throws e => Throw e
          | Returns p => ReturnPromise p
          end)
      (fun c' => (say LWarn "sending request failed!" c', Normal)) in
  (fst body, async_function (snd body)).

(** ** MessageIOWriter *)

Definition quote : string := String (Ascii.ascii_of_nat 34) EmptyString.

Definition quoted (s : string) : string := quote +:+ s +:+ quote.

(** ** JSON.stringify *)

Definition backslash : string := String (Ascii.ascii_of_nat 92) EmptyString.

Definition hex_digit (n : nat) : string :=
  String (Ascii.ascii_of_nat (if (n <? 10)%nat then 48 + n else 87 + n))
         EmptyString.

(** QuoteJSONString, one character: the quote, the backslash and the
    control characters are escaped; every other byte, those of a longer
    UTF-8 sequence among them, is left as it is. *)
Definition JSON_escape (c : Ascii.ascii) : string :=
  let n := Ascii.nat_of_ascii c in
  if (n =? 34)%nat then backslash +:+ quote
  else if (n =? 92)%nat then backslash +:+ backslash
  else if (n =? 8)%nat then backslash +:+ "b"
  else if (n =? 9)%nat then backslash +:+ "t"
  else if (n =? 10)%nat then backslash +:+ "n"
  else if (n =? 12)%nat then backslash +:+ "f"
  else if (n =? 13)%nat then backslash +:+ "r"
  else if (n <? 32)%nat
       then backslash +:+ "u00" +:+ hex_digit (n / 16) +:+ hex_digit (n mod 16)
       else String c EmptyString.

Fixpoint JSON_escape_all (s : string) : string :=
  match s with
  | EmptyString => EmptyString
  | String c rest => JSON_escape c +:+ JSON_escape_all rest
  end.

(** [JSON.stringify] of a string *)
Definition JSON_quote (s : string) : string :=
  quote +:+ JSON_escape_all s +:+ quote.

(** The double nearest to a positive integer, ties to even; [None] when
    that is Infinity. *)
Definition to_double (m : Z) : option Z :=
  let bits := (Z.log2 m + 1)%Z in
  if (bits <=? 53)%Z then Some m
  else
    let shift := (bits - 53)%Z in
    let q := Z.shiftr m shift in
    let r := (m - Z.shiftl q shift)%Z in
    let half := Z.shiftl 1 (shift - 1) in
    let q' :=
      if (half <? r)%Z || ((r =? half)%Z && Z.odd q) then (q + 1)%Z else q in
    let v := Z.shiftl q' shift in
    if (2 ^ 1024 <=? v)%Z then None else Some v.

(** Number::toString, step 5, for a positive integer [x] that is a
    double: the decimal number with the fewest significant digits that
    still reads back as [x]; of two with as few digits the nearer to
    [x], and of two as near the one whose last digit is even.  [e]
    counts the digits left out at the end. *)
Fixpoint shortest_from (x : Z) (e : nat) : Z :=
  match e with
  | O => x
  | S e' =>
      let step := (10 ^ Z.of_nat e)%Z in
      let lo := (x / step)%Z in
      let below := (lo * step)%Z in
      let above := ((lo + 1) * step)%Z in
      let ok_below := bool_decide (to_double below = Some x) in
      let ok_above := bool_decide (to_double above = Some x) in
      if ok_below && ok_above then
        if (x - below <? above - x)%Z then below
        else if (above - x <? x - below)%Z then above
        else if Z.even lo then below else above
      else if ok_below then below
      else if ok_above then above
      else shortest_from x e'
  end.

Fixpoint strip_zeros_rev (digits_rev : list Ascii.ascii) : list Ascii.ascii :=
  match digits_rev with
  | [] => []
  | c :: rest =>
      if Ascii.eqb c (Ascii.ascii_of_nat 48) then strip_zeros_rev rest
      else digits_rev
  end.

(** The digits without the zeros at the end. *)
Definition significant (digits : string) : string :=
  String.string_of_list_ascii
    (rev (strip_zeros_rev (rev (String.list_ascii_of_string digits)))).

(** Number::toString for a positive integer: all digits up to
    twenty-one of them, the exponent form beyond. *)
Definition decimal_text (c : Z) : string :=
  let digits := pretty c in
  let n := String.length digits in
  if (n <=? 21)%nat then digits
  else
    match significant digits with
    | String d EmptyString =>
        String d EmptyString +:+ "e+" +:+ pretty (n - 1)%nat
    | String d more =>
        String d EmptyString +:+ "." +:+ more +:+ "e+" +:+ pretty (n - 1)%nat
    | EmptyString => digits
    end.

(** [JSON.stringify] of the number a whole-number id stands for: the
    id is a double, so an integer that is none counts as the double
    next to it, and Infinity is written [null]. *)
Definition JSON_number (z : Z) : string :=
  if (z =? 0)%Z then "0"
  else
    match to_double (Z.abs z) with
    | None => "null"
    | Some x =>
        let c := shortest_from x (String.length (pretty x) - 1) in
        (if (z <? 0)%Z then "-" else EmptyString) +:+ decimal_text c
    end.

Definition id_text (i : msg_id) : string :=
  match i with
  | IdUndefined => EmptyString
  | IdNum n => quoted "id" +:+ ":" +:+ JSON_number n +:+ ","
  | IdStr s => quoted "id" +:+ ":" +:+ JSON_quote s +:+ ","
  end.

(** [JSON.stringify] on the fields the model keeps. *)
Definition JSON_stringify (m : RequestMessage) : string :=
  "{" +:+ quoted "jsonrpc" +:+ ":" +:+ quoted "2.0" +:+ "," +:+
  id_text (req_id m) +:+
  match req_method m with
  | Some s => quoted "method" +:+ ":" +:+ JSON_quote s +:+ ","
  | None => EmptyString
  end +:+ quoted "params" +:+ ":" +:+ req_params m +:+ "}".

Definition CRLF : string :=
  String (Ascii.ascii_of_nat 13) (String (Ascii.ascii_of_nat 10) EmptyString).

(** [io.requestFilter]: this client's filter while it is bound, the
    identity after [disposeClient]. *)
Definition requestFilter (now : Z) (msg : RequestMessage) (c : client)
  : client * filtered RequestMessage :=
  if filters_bound c then request_filter now msg c else (c, Forward msg).

Definition responseFilter (now : Z) (msg : ResponseMessage) (c : client)
  : client * filter_step :=
  if filters_bound c then response_filter now msg c
  else (c, Settled (Forward msg)).

(** MessageIO.ts 253-271.  A [string] is a sequence of bytes, so its
    length is [Buffer.byteLength]. *)
Definition writer_write (now : Z) (canContinue : bool) (msg : RequestMessage)
           (c : client) : client :=
  let '(c1, modified) := requestFilter now msg c in
  match modified with
  | Discard => c1
  | Forward m =>
      let json := JSON_stringify m in
      let contentLength := pretty (String.length json) in
      let message :=
        "Content-Length: " +:+ contentLength +:+ CRLF +:+ CRLF +:+ json in
      set_io (IO.write message canContinue (io c1)) c1
  end.

End Client.

(* ====================================================================== *)
(** * MessageIOReader *)
(* ====================================================================== *)

Module Reader.

(** One decoded payload, as [processMessages] tells them apart: it has an
    [id], else it has a [method], else neither. *)
Inductive json :=
| JResponse (m : Client.ResponseMessage)
| JNotification (m : Client.NotificationMessage)
| JUnhandled (raw : string).

Section Reader.
(** The state behind the two filter slots of the transport. *)
Context {S : Type}.
Variable responseFilter :
  Client.ResponseMessage -> S -> S * Client.filter_step.
Variable notificationFilter :
  Client.NotificationMessage -> S -> S * Client.filtered Client.NotificationMessage.

(** Modelled from the spec: MessageBuffer (src/lsp/MessageBuffer.ts is
    imported by MessageIO.ts and is not among the sources).  By section
    4.1 it turns the byte stream into complete payloads in stream order;
    [buffer] holds the complete payloads that [ready()] has not handed
    out yet. *)
Record reader := {
  buffer : list json;
  waiting : list (option Client.ResponseMessage);
    (* runs of processMessages parked at [await this.io.responseFilter(json)]
       until I/O finishes; [None] once resumed *)
  delivered : list json;        (* the arguments of this.callback, in order *)
  inner : S;
}.

Definition init (s : S) : reader :=
  {| buffer := []; waiting := []; delivered := []; inner := s |}.

Definition set_buffer (v : list json) (st : reader) : reader :=
  {| buffer := v; waiting := waiting st;
     delivered := delivered st; inner := inner st |}.
Definition set_waiting (v : list (option Client.ResponseMessage))
           (st : reader) : reader :=
  {| buffer := buffer st; waiting := v;
     delivered := delivered st; inner := inner st |}.
Definition set_inner (v : S) (st : reader) : reader :=
  {| buffer := buffer st; waiting := waiting st;
     delivered := delivered st; inner := v |}.

(** [this.callback(json)] *)
Definition callback (j : json) (st : reader) : reader :=
  {| buffer := buffer st; waiting := waiting st;
     delivered := List.app (delivered st) [j]; inner := inner st |}.

(** MessageIO.ts 219-243, from the top of the loop to the point where the
    run returns or parks.  [pending] is the content of the buffer; each
    turn takes its head ([this.buffer.ready()]).  The filters of the
    client change the message in place and return it, so what the
    callback receives is what the filter returned. *)
Fixpoint processMessages (pending : list json) (st : reader) : reader :=
  match pending with
  | [] => set_buffer [] st
  | msg :: rest =>
      let st0 := set_buffer rest st in
      match msg with
      | JResponse m =>
          let '(s', outcome) := responseFilter m (inner st0) in
          let st1 := set_inner s' st0 in
          match outcome with
          | Client.Settled (Client.Forward m') =>
              processMessages rest (callback (JResponse m') st1)
          | Client.Settled Client.Discard => st1
          | Client.AwaitsIO _ =>
              set_waiting (List.app (waiting st1) [Some m]) st1
          | Client.Thrown => st1
          end
      | JNotification m =>
          let '(s', modified) := notificationFilter m (inner st0) in
          let st1 := set_inner s' st0 in
          match modified with
          | Client.Forward m' =>
              processMessages rest (callback (JNotification m') st1)
          | Client.Discard => st1
          end
      | JUnhandled raw =>
          processMessages rest (callback msg st0)
      end
  end.

(** MessageIO.ts 214-217.  [complete] is what the chunk completes. *)
Definition on_data (complete : list json) (st : reader) : reader :=
  let st1 := set_buffer (List.app (buffer st) complete) st in
  processMessages (buffer st1) st1.

(** The promise a parked run waits for is fulfilled with [r]: the run
    goes on after its [await]. *)
Definition resume (k : nat) (r : Client.filtered Client.ResponseMessage)
           (st : reader) : reader :=
  match waiting st !! k with
  | Some (Some _) =>
      let st1 := set_waiting (<[k := None]> (waiting st)) st in
      match r with
      | Client.Discard => st1
      | Client.Forward m' =>
          let st2 := callback (JResponse m') st1 in
          processMessages (buffer st2) st2
      end
  | _ => st
  end.

Inductive event :=
| Data (complete : list json)
| FilterDone (k : nat) (r : Client.filtered Client.ResponseMessage).

Definition step (e : event) (st : reader) : reader :=
  match e with
  | Data complete => on_data complete st
  | FilterDone k r => resume k r st
  end.

Definition run (tr : list event) (st : reader) : reader :=
  fold_left (fun st e => step e st) tr st.

(** The payloads in the order the socket delivered them. *)
Definition arrivals (tr : list event) : list json :=
  concat (List.map (fun e => match e with
                             | Data complete => complete
                             | FilterDone _ _ => []
                             end) tr).

End Reader.

Arguments reader : clear implicits.

(** The reader of a client: the slots hold the client's filters, the
    state behind them is the client. *)
Definition client_step (now : Z) : event -> reader Client.client -> reader Client.client :=
  step (Client.responseFilter now)
       (fun m c => (c, fst (Client.notification_filter m))).

Definition client_run (now : Z) (tr : list event)
  : reader Client.client -> reader Client.client :=
  run (Client.responseFilter now)
      (fun m c => (c, fst (Client.notification_filter m))) tr.

End Reader.

(* ====================================================================== *)
(** * ClientConnectionManager *)
(* ====================================================================== *)

Module Manager.

Inductive ManagerStatus :=
| INITIALIZING
| INITIALIZING_LSP
| PENDING
| PENDING_LSP
| DISCONNECTED
| CONNECTED
| RETRYING
| WRONG_WORKSPACE
| INITIALIZING_CLIENT.

(** What the manager reads from outside itself. *)
Record env := {
  cfg : Client.config;
  path_normalize : string -> string;    (* node:path normalize *)
}.

(** An async function of the manager or of its client, parked at an
    [await]. *)
Inductive task :=
| AwaitStart                  (* ClientConnectionManager.ts 345 *)
| AwaitCapabilities (timeoutMs : Z)
                              (* ClientConnectionManager.ts 349, timer armed *)
| AwaitDispose (port : Z)     (* ClientConnectionManager.ts 111 *)
| AwaitProjectDir (gen : nat) (server_path : option string)
                              (* GDScriptLanguageClient.ts 373 *)
| Finished.

Inductive signal :=
| StatusChanged (s : ManagerStatus)     (* statusChanged.fire *)
| LspReady                              (* lspReady.fire *)
| LspDisconnected                       (* lspDisconnected.fire *)
| RetryPrompt.                          (* show_retrying_prompt *)

Record manager := {
  client : Client.client;
  client_gen : nat;  (* how many clients were replaced before this one *)
  capabilitiesReceived : bool;
  capabilitiesResolver : option nat;  (* the parked run its call would resume *)
  reconnectionAttempts : Z;
  target : Client.TargetLSP;
  status : ManagerStatus;
  retry : bool;
  connectedToLSP : bool;  (* set_context("connectedToLSP", ...) *)
  tasks : list task;  (* the async functions parked at an await, by creation *)
  signals : list signal;  (* what was fired or shown, in order *)
  log : list Client.log_line;  (* lines sent to the lsp.manager logger *)
}.

Definition set_client (v : Client.client) (m : manager) : manager :=
  {| client := v; client_gen := client_gen m;
     capabilitiesReceived := capabilitiesReceived m;
     capabilitiesResolver := capabilitiesResolver m;
     reconnectionAttempts := reconnectionAttempts m; target := target m;
     status := status m; retry := retry m;
     connectedToLSP := connectedToLSP m; tasks := tasks m;
     signals := signals m; log := log m |}.
Definition set_client_gen (v : nat) (m : manager) : manager :=
  {| client := client m; client_gen := v;
     capabilitiesReceived := capabilitiesReceived m;
     capabilitiesResolver := capabilitiesResolver m;
     reconnectionAttempts := reconnectionAttempts m; target := target m;
     status := status m; retry := retry m;
     connectedToLSP := connectedToLSP m; tasks := tasks m;
     signals := signals m; log := log m |}.
Definition set_capabilitiesReceived (v : bool) (m : manager) : manager :=
  {| client := client m; client_gen := client_gen m;
     capabilitiesReceived := v;
     capabilitiesResolver := capabilitiesResolver m;
     reconnectionAttempts := reconnectionAttempts m; target := target m;
     status := status m; retry := retry m;
     connectedToLSP := connectedToLSP m; tasks := tasks m;
     signals := signals m; log := log m |}.
Definition set_capabilitiesResolver (v : option nat) (m : manager) : manager :=
  {| client := client m; client_gen := client_gen m;
     capabilitiesReceived := capabilitiesReceived m;
     capabilitiesResolver := v;
     reconnectionAttempts := reconnectionAttempts m; target := target m;
     status := status m; retry := retry m;
     connectedToLSP := connectedToLSP m; tasks := tasks m;
     signals := signals m; log := log m |}.
Definition set_reconnectionAttempts (v : Z) (m : manager) : manager :=
  {| client := client m; client_gen := client_gen m;
     capabilitiesReceived := capabilitiesReceived m;
     capabilitiesResolver := capabilitiesResolver m;
     reconnectionAttempts := v; target := target m; status := status m;
     retry := retry m; connectedToLSP := connectedToLSP m; tasks := tasks m;
     signals := signals m; log := log m |}.
Definition set_target (v : Client.TargetLSP) (m : manager) : manager :=
  {| client := client m; client_gen := client_gen m;
     capabilitiesReceived := capabilitiesReceived m;
     capabilitiesResolver := capabilitiesResolver m;
     reconnectionAttempts := reconnectionAttempts m; target := v;
     status := status m; retry := retry m;
     connectedToLSP := connectedToLSP m; tasks := tasks m;
     signals := signals m; log := log m |}.
Definition set_status (v : ManagerStatus) (m : manager) : manager :=
  {| client := client m; client_gen := client_gen m;
     capabilitiesReceived := capabilitiesReceived m;
     capabilitiesResolver := capabilitiesResolver m;
     reconnectionAttempts := reconnectionAttempts m; target := target m;
     status := v; retry := retry m; connectedToLSP := connectedToLSP m;
     tasks := tasks m; signals := signals m; log := log m |}.
Definition set_retry (v : bool) (m : manager) : manager :=
  {| client := client m; client_gen := client_gen m;
     capabilitiesReceived := capabilitiesReceived m;
     capabilitiesResolver := capabilitiesResolver m;
     reconnectionAttempts := reconnectionAttempts m; target := target m;
     status := status m; retry := v; connectedToLSP := connectedToLSP m;
     tasks := tasks m; signals := signals m; log := log m |}.
Definition set_connectedToLSP (v : bool) (m : manager) : manager :=
  {| client := client m; client_gen := client_gen m;
     capabilitiesReceived := capabilitiesReceived m;
     capabilitiesResolver := capabilitiesResolver m;
     reconnectionAttempts := reconnectionAttempts m; target := target m;
     status := status m; retry := retry m; connectedToLSP := v;
     tasks := tasks m; signals := signals m; log := log m |}.
Definition set_tasks (v : list task) (m : manager) : manager :=
  {| client := client m; client_gen := client_gen m;
     capabilitiesReceived := capabilitiesReceived m;
     capabilitiesResolver := capabilitiesResolver m;
     reconnectionAttempts := reconnectionAttempts m; target := target m;
     status := status m; retry := retry m;
     connectedToLSP := connectedToLSP m; tasks := v; signals := signals m;
     log := log m |}.
Definition set_signals (v : list signal) (m : manager) : manager :=
  {| client := client m; client_gen := client_gen m;
     capabilitiesReceived := capabilitiesReceived m;
     capabilitiesResolver := capabilitiesResolver m;
     reconnectionAttempts := reconnectionAttempts m; target := target m;
     status := status m; retry := retry m;
     connectedToLSP := connectedToLSP m; tasks := tasks m; signals := v;
     log := log m |}.
Definition set_log (v : list Client.log_line) (m : manager) : manager :=
  {| client := client m; client_gen := client_gen m;
     capabilitiesReceived := capabilitiesReceived m;
     capabilitiesResolver := capabilitiesResolver m;
     reconnectionAttempts := reconnectionAttempts m; target := target m;
     status := status m; retry := retry m;
     connectedToLSP := connectedToLSP m; tasks := tasks m;
     signals := signals m; log := v |}.

Definition say (lv : Client.level) (text : string) (m : manager) : manager :=
  set_log (List.app (log m) [(lv, text)]) m.

Definition fire (s : signal) (m : manager) : manager :=
  set_signals (List.app (signals m) [s]) m.

Definition park (t : task) (m : manager) : manager :=
  set_tasks (List.app (tasks m) [t]) m.

Definition finish (t : nat) (m : manager) : manager :=
  set_tasks (<[t := Finished]> (tasks m)) m.

(** ClientConnectionManager.ts 406-407, the tail of
    [on_client_status_changed]. *)
Definition announce (m : manager) : manager :=
  fire (StatusChanged (status m)) m.

(** ClientConnectionManager.ts 353-357, 361-365 and 369-372: the three
    places that declare the connection up. *)
Definition declare_connected (ready : bool) (m : manager) : manager :=
  let m1 := set_retry false m in
  let m2 := set_reconnectionAttempts 0%Z m1 in
  let m3 := set_connectedToLSP true m2 in
  let m4 := set_status CONNECTED m3 in
  if ready then fire LspReady m4 else m4.

(** ClientConnectionManager.ts 350-357: past both awaits. *)
Definition handshake_done (m : manager) : manager :=
  announce (declare_connected true (say Client.LInfo "LSP capabilities received" m)).

(** ClientConnectionManager.ts 358-366: the [catch]. *)
Definition handshake_failed (cause : string) (m : manager) : manager :=
  announce (declare_connected true
              (say Client.LWarn ("LSP initialization issue: " +:+ cause) m)).

Definition timeout_message (timeoutMs : Z) : string :=
  "LSP capabilities timeout after " +:+ pretty timeoutMs +:+ "ms".

(** ClientConnectionManager.ts 96-111: [create_new_client] up to
    [await this.client.dispose()].  The manager always has a client once
    its constructor has run. *)
Definition create_new_client (m : manager) : manager :=
  let port := Client.port (client m) in
  park (AwaitDispose port) (set_client (Client.disposeClient (client m)) m).

(** ClientConnectionManager.ts 327-408, up to the first [await] of the
    case taken. *)
Definition on_client_status_changed (s : Client.ClientStatus) (m : manager)
  : manager :=
  match s with
  | Client.PENDING => announce (set_status PENDING m)
  | Client.CONNECTED =>
      let m1 := set_capabilitiesResolver None (set_capabilitiesReceived false m) in
      let m2 := announce (set_status INITIALIZING_CLIENT m1) in
      if negb (Client.started (client m2)) then
        park AwaitStart (set_client (Client.set_started true (client m2)) m2)
      else announce (declare_connected false m2)
  | Client.DISCONNECTED =>
      create_new_client (fire LspDisconnected (set_connectedToLSP false m))
  | Client.REJECTED =>
      announce (set_retry false (set_status WRONG_WORKSPACE m))
  end.

Definition hear (heard : list Client.ClientStatus) (m : manager) : manager :=
  fold_left (fun m s => on_client_status_changed s m) heard m.

(** [this.client.connect(target, tryAlternatePort)] with the status
    listener of the manager attached to the client. *)
Definition client_connect (e : env) (tgt : Client.TargetLSP)
           (tryAlternatePort : bool) (m : manager) : manager :=
  let '(c, heard) := Client.connect (cfg e) tgt tryAlternatePort (client m) in
  hear heard (set_client c m).

(** ClientConnectionManager.ts 124-136 for [lsp.headless] unset or, with
    it set, given the port [start_language_server] left in
    [client.port] ([None] when it gave up before choosing one). *)
Definition connect_to_language_server (e : env) (headless_port : option Z)
           (m : manager) : manager :=
  let m1 := set_client (Client.set_port (-1)%Z (client m)) m in
  let m2 := set_target Client.EDITOR m1 in
  let m3 :=
    if Client.lsp_headless (cfg e) then
      let m' := set_target Client.HEADLESS m2 in
      match headless_port with
      | Some p => set_client (Client.set_port p (client m')) m'
      | None => m'
      end
    else m2 in
  let m4 := set_reconnectionAttempts 0%Z m3 in
  client_connect e (target m4) false m4.

(** ClientConnectionManager.ts 475-493 *)
Definition show_retrying_prompt (m : manager) : manager := fire RetryPrompt m.

(** ClientConnectionManager.ts 456-473 *)
Definition retry_connect_client (e : env) (m : manager) : manager :=
  let autoRetry := Client.lsp_autoReconnect_enabled (cfg e) in
  let maxAttempts := Client.lsp_autoReconnect_attempts (cfg e) in
  if autoRetry && (reconnectionAttempts m <=? maxAttempts - 1)%Z then
    let m1 := set_reconnectionAttempts (reconnectionAttempts m + 1)%Z m in
    let tryAlternatePort := (reconnectionAttempts m1 mod 2 =? 0)%Z in
    set_retry true (client_connect e (target m1) tryAlternatePort m1)
  else
    show_retrying_prompt (set_status DISCONNECTED (set_retry false m)).

(** ClientConnectionManager.ts 450-454 *)
Definition retry_callback (e : env) (m : manager) : manager :=
  if retry m then retry_connect_client e m else m.

(** ClientConnectionManager.ts 416-422.  Resolving the promise lets the
    parked run go on past line 349. *)
Definition onCapabilitiesReceived (m : manager) : manager :=
  let m1 := set_capabilitiesReceived true m in
  match capabilitiesResolver m1 with
  | Some t =>
      let m2 := set_capabilitiesResolver None m1 in
      match tasks m2 !! t with
      | Some (AwaitCapabilities _) => handshake_done (finish t m2)
      | _ => m2
      end
  | None => m1
  end.

(** ClientConnectionManager.ts 428-448, called by the run that is task
    [t].  [true]: the promise is resolved on the spot.  [false]: the
    timer is armed, the resolver is stored, and the run waits. *)
Definition waitForCapabilities (timeoutMs : Z) (t : nat) (m : manager)
  : manager * bool :=
  if capabilitiesReceived m then (m, true)
  else
    (set_capabilitiesResolver (Some t)
       (set_tasks (<[t := AwaitCapabilities timeoutMs]> (tasks m)) m),
     false).

(** ClientConnectionManager.ts 345-349: [start()] has settled. *)
Definition start_settled (t : nat) (ok : bool) (m : manager) : manager :=
  match tasks m !! t with
  | Some AwaitStart =>
      if ok then
        let m1 := say Client.LInfo "LSP Client started, waiting for capabilities..." m in
        let '(m2, resolved) := waitForCapabilities 30000 t m1 in
        if resolved then handshake_done (finish t m2) else m2
      else handshake_failed "start failed" (finish t m)
  | _ => m
  end.

(** ClientConnectionManager.ts 437-440: the timer of
    [waitForCapabilities] goes off. *)
Definition capabilities_timeout (t : nat) (m : manager) : manager :=
  match tasks m !! t with
  | Some (AwaitCapabilities timeoutMs) =>
      let m1 := set_capabilitiesResolver None m in
      handshake_failed (timeout_message timeoutMs) (finish t m1)
  | _ => m
  end.

(** ClientConnectionManager.ts 110-122 and 384-398: [dispose()] has
    settled, [create_new_client] builds the next client and the
    DISCONNECTED case finishes. *)
Definition dispose_settled (t : nat) (ok : bool) (m : manager) : manager :=
  match tasks m !! t with
  | Some (AwaitDispose port) =>
      let m0 := finish t m in
      let m1 :=
        if ok then say Client.LInfo "Old LSP client disposed" m0
        else say Client.LWarn "Error disposing old LSP client (may be in unexpected state):" m0 in
      let fresh :=
        Client.set_events_listeners true (Client.set_port port Client.new_client) in
      let m2 := set_client_gen (S (client_gen m1)) (set_client fresh m1) in
      let m3 := set_capabilitiesResolver None (set_capabilitiesReceived false m2) in
      let m4 :=
        if retry m3 then
          if negb (Client.port (client m3) =? -1)%Z
          then set_status INITIALIZING_LSP m3
          else set_status RETRYING m3
        else set_status DISCONNECTED m3 in
      announce (set_retry true m4)
  | _ => m
  end.

(** An event of the transport reaches the client through the listeners
    the constructor registered (GDScriptLanguageClient.ts 133-134). *)
Definition io_emits (ev : IO.io_event) (m : manager) : manager :=
  if Client.io_listeners (client m) then
    match ev with
    | IO.EvConnected =>
        let '(c, heard) := Client.on_connected (client m) in
        hear heard (set_client c m)
    | IO.EvDisconnected =>
        let '(c, heard) := Client.on_disconnected (client m) in
        hear heard (set_client c m)
    | IO.EvData _ => m
    end
  else m.

Definition socket_event (i : nat) (ev : IO.sock_event) (m : manager) : manager :=
  let '(io', emitted) := IO.fire i ev (Client.io (client m)) in
  fold_left (fun m e => io_emits e m) emitted
            (set_client (Client.set_io io' (client m)) m).

(** A notification from the server reaches [io.notificationFilter]. *)
Definition notification (msg : Client.NotificationMessage) (m : manager) : manager :=
  if Client.filters_bound (client m) then
    fold_left
      (fun m eff =>
         match eff with
         | Client.CheckWorkspace p => park (AwaitProjectDir (client_gen m) p) m
         | Client.CapabilitiesReceived => onCapabilitiesReceived m
         end)
      (snd (Client.notification_filter msg)) m
  else m.

(** [get_project_dir()] has produced [dir]; [check_workspace] goes on.
    A run that belongs to a client already replaced touches only that
    old client. *)
Definition project_dir_settled (e : env) (t : nat) (dir : string) (m : manager)
  : manager :=
  match tasks m !! t with
  | Some (AwaitProjectDir gen server_path) =>
      let m1 := finish t m in
      if Nat.eqb gen (client_gen m1) then
        set_client (Client.check_workspace (path_normalize e) server_path dir
                                           (client m1)) m1
      else m1
  | _ => m
  end.

Inductive event :=
| ConnectToLanguageServer (headless_port : option Z)
| RetryTimer
| Socket (i : nat) (ev : IO.sock_event)
| StartSettled (t : nat) (ok : bool)
| CapabilitiesTimeout (t : nat)
| DisposeSettled (t : nat) (ok : bool)
| Notification (msg : Client.NotificationMessage)
| ProjectDirSettled (t : nat) (dir : string).

Definition step (e : env) (ev : event) (m : manager) : manager :=
  match ev with
  | ConnectToLanguageServer p => connect_to_language_server e p m
  | RetryTimer => retry_callback e m
  | Socket i sev => socket_event i sev m
  | StartSettled t ok => start_settled t ok m
  | CapabilitiesTimeout t => capabilities_timeout t m
  | DisposeSettled t ok => dispose_settled t ok m
  | Notification msg => notification msg m
  | ProjectDirSettled t dir => project_dir_settled e t dir m
  end.

Definition run (e : env) (tr : list event) (m : manager) : manager :=
  fold_left (fun m ev => step e ev m) tr m.

(** ClientConnectionManager.ts 59-61 and 46-57: the fields as the
    constructor leaves them before [connect_to_language_server]. *)
Definition new_manager : manager :=
  {| client := Client.set_events_listeners true Client.new_client;
     client_gen := 0;
     capabilitiesReceived := false; capabilitiesResolver := None;
     reconnectionAttempts := 0%Z; target := Client.EDITOR;
     status := INITIALIZING; retry := false; connectedToLSP := false;
     tasks := []; signals := []; log := [] |}.

(** The ports of the sockets the current client has opened, oldest
    first. *)
Definition ports_tried (m : manager) : list Z :=
  List.map IO.sock_port (IO.heap (Client.io (client m))).

(** The ports of the sockets one callback opens. *)
Definition ports_opened (e : env) (ev : event) (m : manager) : list Z :=
  let m' := step e ev m in
  if Nat.eqb (client_gen m) (client_gen m')
  then drop (length (ports_tried m)) (ports_tried m')
  else ports_tried m'.

(** The ports the retry timer tries in a run, in order. *)
Fixpoint retry_ports (e : env) (tr : list event) (m : manager) : list Z :=
  match tr with
  | [] => []
  | ev :: rest =>
      List.app
        (match ev with
         | RetryTimer => ports_opened e ev m
         | _ => []
         end)
        (retry_ports e rest (step e ev m))
  end.

End Manager.

(* ====================================================================== *)
(** * The life of one client, seen from its pending-request table *)
(* ====================================================================== *)

Module Session.
Import Client.

(** What can touch a client between its construction and its disposal. *)
Inductive traffic :=
| Outgoing (now : Z) (canContinue : bool) (msg : RequestMessage)
    (* the language client hands [msg] to MessageIOWriter.write *)
| Incoming (now : Z) (msg : ResponseMessage)
    (* the reader passes [msg] to io.responseFilter *)
| Reconnect (cfg : config) (tgt : TargetLSP) (tryAlternatePort : bool)
| WorkspaceCheck (normalize : string -> string) (server : option string)
                 (project_dir : string)
| Disposal.

Definition step (ev : traffic) (c : client) : client :=
  match ev with
  | Outgoing now ok msg => writer_write now ok msg c
  | Incoming now msg => fst (responseFilter now msg c)
  | Reconnect cfg tgt alt => fst (connect cfg tgt alt c)
  | WorkspaceCheck normalize server dir => check_workspace normalize server dir c
  | Disposal => disposeClient c
  end.

Definition run (tr : list traffic) (c : client) : client :=
  fold_left (fun c ev => step ev c) tr c.

Definition has_entry (id : msg_id) (c : client) : bool :=
  bool_decide (is_Some (sentMessages c !! id)).

Definition one_if (b : bool) : nat := if b then 1 else 0.

(** How often, during the run, an event picked by [who] finds an entry
    for [id] in the table and leaves none. *)
Fixpoint removals (who : traffic -> bool) (id : msg_id)
         (tr : list traffic) (c : client) : nat :=
  match tr with
  | [] => 0
  | ev :: rest =>
      one_if (who ev && has_entry id c && negb (has_entry id (step ev c)))
      + removals who id rest (step ev c)
  end.

(** How often an event finds no entry for [id] and leaves one. *)
Fixpoint recordings (id : msg_id) (tr : list traffic) (c : client) : nat :=
  match tr with
  | [] => 0
  | ev :: rest =>
      one_if (negb (has_entry id c) && has_entry id (step ev c))
      + recordings id rest (step ev c)
  end.

Definition is_request_with (id : msg_id) (ev : traffic) : bool :=
  match ev with
  | Outgoing _ _ msg => bool_decide (req_id msg = id)
  | _ => false
  end.

Definition is_response_to (id : msg_id) (ev : traffic) : bool :=
  match ev with
  | Incoming _ msg => bool_decide (resp_id msg = id)
  | _ => false
  end.

Definition is_disposal (ev : traffic) : bool :=
  match ev with
  | Disposal => true
  | _ => false
  end.

Definition anything_else (id : msg_id) (ev : traffic) : bool :=
  negb (is_response_to id ev) && negb (is_disposal ev).

(** How many requests of the run carry [id]. *)
Definition sends (id : msg_id) (tr : list traffic) : nat :=
  length (List.filter (is_request_with id) tr).

(** ** Messages used as examples *)

Definition symbol_request : RequestMessage :=
  {| req_id := IdNum 1; req_method := Some "workspace/symbol";
     req_params := "{}" |}.

Definition hover_request : RequestMessage :=
  {| req_id := IdNum 7; req_method := Some "textDocument/hover";
     req_params := "{}" |}.

Definition shutdown_request : RequestMessage :=
  {| req_id := IdNum 9; req_method := Some "shutdown";
     req_params := "null" |}.

Definition rejected_client : client := set_rejected true new_client.

End Session.

(* ====================================================================== *)
(** * Runs used as examples *)
(* ====================================================================== *)

Module Scenario.
Import Manager.

Definition editor_cfg : Client.config :=
  {| Client.lsp_serverHost := IO.localhost;
     Client.lsp_serverPort := 6005;
     Client.lsp_headless := false;
     Client.lsp_autoReconnect_enabled := true;
     Client.lsp_autoReconnect_attempts := 10;
     Client.lsp_autoReconnect_cooldown := 1000 |}.

Definition editor_env : env :=
  {| cfg := editor_cfg; path_normalize := fun p => p |}.

(** The editor is not running: every attempt ends in a socket error
    (connection refused), the manager replaces the client, and the timer
    tries again. *)
Definition refused_three_times : list event :=
  [ConnectToLanguageServer None;
   Socket 0 IO.SError; DisposeSettled 0 true; RetryTimer;
   Socket 0 IO.SError; DisposeSettled 1 true; RetryTimer;
   Socket 0 IO.SError; DisposeSettled 2 true; RetryTimer].

(** The host does not answer: after the first refusal every attempt runs
    into the ten-second timer of [connect], which emits nothing, so the
    client stays. *)
Definition timed_out_four_times : list event :=
  [ConnectToLanguageServer None;
   Socket 0 IO.SError; DisposeSettled 0 true; RetryTimer;
   Socket 0 IO.SConnectTimer; RetryTimer;
   Socket 1 IO.SConnectTimer; RetryTimer;
   Socket 2 IO.SConnectTimer; RetryTimer].

(** The retry timer goes off twice while the first socket of the new
    client is still connecting; then both connections come up. *)
Definition retry_while_connecting : list event :=
  [ConnectToLanguageServer None;
   Socket 0 IO.SError; DisposeSettled 0 true;
   RetryTimer; RetryTimer;
   Socket 0 IO.SConnect; Socket 1 IO.SConnect].


(** A manager whose client has just connected and been started. *)
Definition connected_manager : manager :=
  run editor_env
      [ConnectToLanguageServer None; Socket 0 IO.SConnect; StartSettled 0 true]
      new_manager.

(** Events that leave the handshake of task [t] waiting: anything but
    its own timer and the capabilities notification. *)
Definition leaves_waiting (t : nat) (ev : event) : bool :=
  match ev with
  | CapabilitiesTimeout t' => negb (Nat.eqb t' t)
  | Notification msg =>
      negb (String.eqb (Client.notif_method msg) "gdscript/capabilities")
  | _ => true
  end.

(** ** A response that waits for I/O and a notification behind it *)

Definition link_request : Client.RequestMessage :=
  {| Client.req_id := Client.IdNum 3;
     Client.req_method := Some "textDocument/documentLink";
     Client.req_params := "{}" |}.

Definition link_response : Client.ResponseMessage :=
  {| Client.resp_id := Client.IdNum 3;
     Client.resp_result :=
       Client.RLinks [{| Client.link_target := "uid://b1x";
                         Client.link_tooltip := None |}] |}.

Definition link_resolved : Client.ResponseMessage :=
  {| Client.resp_id := Client.IdNum 3;
     Client.resp_result :=
       Client.RLinks [{| Client.link_target := "file:///p/a.gd";
                         Client.link_tooltip := Some "res://a.gd" |}] |}.

Definition diagnostics : Client.NotificationMessage :=
  {| Client.notif_method := "textDocument/publishDiagnostics";
     Client.notif_path := None;
     Client.notif_raw := "{}" |}.

Definition hover_response : Client.ResponseMessage :=
  {| Client.resp_id := Client.IdNum 7;
     Client.resp_result := Client.RHover "func f()" |}.

(** What the UID lookup finds. *)
Definition lookup_uid (uid : string) : option (string * option string) :=
  Some ("file:///p/a.gd", Some "res://a.gd").

(** The client after it sent [link_request]. *)
Definition asked_for_links : Client.client :=
  Client.writer_write 0 true link_request Client.new_client.

(** The response arrives, then the notification in a later chunk, then
    the UID lookup of the response filter finishes. *)
Definition notification_behind_slow_response : list Reader.event :=
  [Reader.Data [Reader.JResponse link_response];
   Reader.Data [Reader.JNotification diagnostics];
   Reader.FilterDone 0 (Client.Forward link_resolved)].

End Scenario.

(* ====================================================================== *)
(** * What a run of the transport shows from outside *)
(* ====================================================================== *)

Module IOTrace.
Import IO.

Definition is_write {Frame : Type} (a : action Frame) : bool :=
  match a with
  | Write _ _ => true
  | _ => false
  end.

(** How many calls of [write] a run holds. *)
Definition writes_in {Frame : Type} (tr : list (action Frame)) : nat :=
  length (List.filter is_write tr).

(** What socket [j] has been handed so far, nothing when there is no
    such socket. *)
Definition written_to {Frame : Type} (j : nat) (st : io Frame) : list Frame :=
  match heap st !! j with
  | Some s => sock_written s
  | None => []
  end.

(** What the transport emits during a run, each event with the socket
    whose handler emitted it. *)
Fixpoint emissions {Frame : Type} (tr : list (action Frame)) (st : io Frame)
  : list (nat * io_event) :=
  match tr with
  | [] => []
  | a :: rest =>
      match a with
      | Fire i e => List.map (fun ev => (i, ev)) (snd (fire i e st))
      | _ => []
      end ++ emissions rest (step a st)
  end.

Definition is_connected_by (j : nat) (x : nat * io_event) : bool :=
  Nat.eqb (fst x) j &&
  match snd x with EvConnected => true | _ => false end.

Definition is_disconnected_by (j : nat) (x : nat * io_event) : bool :=
  Nat.eqb (fst x) j &&
  match snd x with EvDisconnected => true | _ => false end.

(** The frames each socket has been handed, by the number of the call
    of [write] that brought them, oldest socket first. *)
Definition written_labels (st : io labelled) : list (list nat) :=
  List.map (fun s => labels (sock_written s)) (heap st).

(** [stale_flush] up to the moment the second socket comes up. *)
Definition before_second_socket : list (action string) :=
  List.app two_connects
    [Fire 0 SConnect; Write "a" false; Write "b" true; Fire 0 SDrain;
     Write "c" true].

(** A socket comes up, and after it a second one: the calls of
    [connect] do not overlap. *)
Definition one_after_the_other : list (action string) :=
  [Connect localhost 6005; Fire 0 SConnect;
   Connect localhost 6008; Fire 1 SConnect].

(** A transport whose cache is full and which is disconnected. *)
Definition full_outbox : io string :=
  run (repeat (Write "x" true) MAX_MESSAGE_CACHE) init.

(** A socket only ever moves on: once past connecting it stays past it,
    and listeners once removed stay removed. *)
Definition calmer {Frame : Type} (s s' : sock Frame) : Prop :=
  (sock_phase s <> Connecting -> sock_phase s' <> Connecting) /\
  (sock_listeners s = false -> sock_listeners s' = false).

Definition heap_calmer {Frame : Type} (st st' : io Frame) : Prop :=
  forall j s, heap st !! j = Some s ->
              exists s', heap st' !! j = Some s' /\ calmer s s'.

(** What was emitted for socket [j] so far, and what that leaves of the
    socket: after ["connected"] it is past connecting, after
    ["disconnected"] it has no listeners. *)
Record settled_for {Frame : Type} (j : nat) (log : list (nat * io_event))
       (st : io Frame) : Prop := {
  connected_once :
    length (List.filter (is_connected_by j) log) <= 1;
  disconnected_once :
    length (List.filter (is_disconnected_by j) log) <= 1;
  connected_is_past :
    1 <= length (List.filter (is_connected_by j) log) ->
    exists s, heap st !! j = Some s /\ sock_phase s <> Connecting;
  disconnected_is_deaf :
    1 <= length (List.filter (is_disconnected_by j) log) ->
    exists s, heap st !! j = Some s /\ sock_listeners s = false;
}.

(** Socket [j] was made when [c] calls of [write] had been made: it has
    been handed frames of later calls only, and while it is connecting
    the cache holds such frames only. *)
Definition younger_than (c j : nat) (st : io labelled) : Prop :=
  forall s, heap st !! j = Some s ->
    Forall (fun k => c <= k) (labels (sock_written s)) /\
    (sock_phase s = Connecting ->
     Forall (fun k => c <= k) (labels (messageCache st))).

End IOTrace.

(* ====================================================================== *)
(** * What a request looks like on the wire *)
(* ====================================================================== *)

Module Wire.
Import Client.

(** MessageIO.ts 260-263: the header and the body of one message. *)
Definition frame (m : RequestMessage) : string :=
  "Content-Length: " +:+ pretty (String.length (JSON_stringify m)) +:+
  CRLF +:+ CRLF +:+ JSON_stringify m.

(** The port [connect] starts from: [this.port] unless it is -1, the
    setting [lsp.serverPort] then (GDScriptLanguageClient.ts 181-184). *)
Definition configured_port (cfg : config) (c : client) : Z :=
  if (port c =? -1)%Z then lsp_serverPort cfg else port c.

Definition in_default_pair (p : Z) : Prop := p = 6005%Z \/ p = 6008%Z.

(** Two links, one by UID and one by path. *)
Definition mixed_links : ResponseMessage :=
  {| resp_id := IdNum 3;
     resp_result :=
       RLinks [{| link_target := "uid://b1x"; link_tooltip := None |};
               {| link_target := "res://b.gd"; link_tooltip := None |}] |}.

(** Two links by UID, and a lookup that finds both files but fails on
    the path of the second. *)
Definition two_uids : ResponseMessage :=
  {| resp_id := IdNum 3;
     resp_result :=
       RLinks [{| link_target := "uid://a"; link_tooltip := None |};
               {| link_target := "uid://b"; link_tooltip := None |}] |}.

Definition second_path_throws (uid : string)
  : option (string * path_result) :=
  if String.eqb uid "uid://a"
  then Some ("file:///p/a.gd", PathIs (Some "res://a.gd"))
  else Some ("file:///p/b.gd", PathThrows).

(** A client whose first socket has connected. *)
Definition connected_client : client :=
  let c := fst (connect Scenario.editor_cfg EDITOR false new_client) in
  set_io (fst (IO.fire 0 IO.SConnect (io c))) c.

End Wire.

(* ====================================================================== *)
(** * Counting what the reader holds *)
(* ====================================================================== *)

Module ReaderTrace.
Import Reader.

(** MessageIO.ts 25-27: the filters a transport starts with, and gets
    back from [disposeClient]. *)
Definition pass_response {S : Type} (m : Client.ResponseMessage) (s : S)
  : S * Client.filter_step :=
  (s, Client.Settled (Client.Forward m)).

Definition pass_notification {S : Type} (m : Client.NotificationMessage)
           (s : S) : S * Client.filtered Client.NotificationMessage :=
  (s, Client.Forward m).

Section Origins.
Context {S : Type}.
Variable rf : Client.ResponseMessage -> S -> S * Client.filter_step.
Variable nf : Client.NotificationMessage -> S ->
              S * Client.filtered Client.NotificationMessage.

(** The response filter waits for I/O on [m] in some state. *)
Definition awaited (m : Client.ResponseMessage) : Prop :=
  exists s uids, snd (rf m s) = Client.AwaitsIO uids.

(** What the callback may be handed for a payload [a] that arrived: [a]
    itself when it has neither [id] nor [method]; for a notification
    what its filter handed on; for a response what its filter handed on
    at once, or, when the filter waited for I/O, the response it
    settled with. *)
Definition comes_from (a d : json) : Prop :=
  match a, d with
  | JUnhandled _, _ => d = a
  | JNotification m, JNotification m' =>
      exists s, snd (nf m s) = Client.Forward m'
  | JResponse m, JResponse m' =>
      (exists s, snd (rf m s) = Client.Settled (Client.Forward m')) \/
      awaited m
  | _, _ => False
  end.

(** The arrivals that parked runs wait on. *)
Definition live (porigin : list (option nat)) : list nat := omap id porigin.

Definition parked_at (pre : list json)
           (w : option Client.ResponseMessage) (o : option nat) : Prop :=
  match w, o with
  | Some m, Some k => pre !! k = Some (JResponse m) /\ awaited m
  | None, None => True
  | _, _ => False
  end.

(** The reader after the payloads [pre] arrived: [n] of them were taken
    from the buffer; delivery [i] was for arrival [origin !! i]; the
    parked run [w] waits on arrival [porigin !! w]; no arrival is spoken
    for twice. *)
Record tracked (pre : list json) (st : reader S) (n : nat)
       (origin : list nat) (porigin : list (option nat)) : Prop := {
  tracked_buffer : buffer st = drop n pre;
  tracked_taken : n <= length pre;
  tracked_length : length origin = length (delivered st);
  tracked_parked : Forall2 (parked_at pre) (waiting st) porigin;
  tracked_distinct : NoDup (origin ++ live porigin);
  tracked_below : Forall (fun k => k < n) (origin ++ live porigin);
  tracked_source :
    forall i k, origin !! i = Some k ->
      exists a d, pre !! k = Some a /\ delivered st !! i = Some d /\
                  comes_from a d;
}.

End Origins.

(** A hover request the server answers with [null]. *)
Definition null_hover : Client.ResponseMessage :=
  {| Client.resp_id := Client.IdNum 7; Client.resp_result := Client.RNull |}.

Definition asked_for_hover : Client.client :=
  Client.writer_write 0 true Session.hover_request Client.new_client.

End ReaderTrace.

(* ====================================================================== *)
(** * Counting what the manager does *)
(* ====================================================================== *)

Module ManagerTrace.
Import Manager.

(** The notification the server sends once it is ready. *)
Definition capabilities : Client.NotificationMessage :=
  {| Client.notif_method := "gdscript/capabilities";
     Client.notif_path := None;
     Client.notif_raw := "{}" |}.

Definition is_ready (s : signal) : bool :=
  match s with
  | LspReady => true
  | _ => false
  end.

(** How often [lspReady] fired. *)
Definition ready_count (m : manager) : nat :=
  length (List.filter is_ready (signals m)).

(** Socket events, as events of the manager. *)
Definition socket_events (evs : list (nat * IO.sock_event)) : list event :=
  List.map (fun x => Socket (fst x) (snd x)) evs.

(** The largest value the attempt counter may take. *)
Definition attempts_bound (e : env) : Z :=
  Z.max 0 (Client.lsp_autoReconnect_attempts (cfg e)).

(** The counter is what it was, or back at zero. *)
Definition kept_or_reset (m m' : manager) : Prop :=
  reconnectionAttempts m' = reconnectionAttempts m \/
  reconnectionAttempts m' = 0%Z.

(** A manager that has used up its ten attempts. *)
Definition exhausted : manager :=
  set_reconnectionAttempts 10 (set_retry true new_manager).

End ManagerTrace.

(* ====================================================================== *)
(** * providers/definition.ts *)
(* ====================================================================== *)

(** A [string] holds the UTF-8 bytes of the JavaScript string.  The
    functions below look only for ASCII characters (capitals and the
    underscore), which no byte of a longer UTF-8 sequence equals, so
    working byte by byte gives the bytes of what the code computes. *)
Module Definitions.

Definition underscore : Ascii.ascii := Ascii.ascii_of_nat 95.

(** [[A-Z]] *)
Definition is_upper (c : Ascii.ascii) : bool :=
  (65 <=? Ascii.nat_of_ascii c)%nat && (Ascii.nat_of_ascii c <=? 90)%nat.

(** [p1.toLowerCase()] on one character *)
Definition toLowerCase (c : Ascii.ascii) : Ascii.ascii :=
  if is_upper c then Ascii.ascii_of_nat (Ascii.nat_of_ascii c + 32) else c.

(** definition.ts 53-57.  [prev] is [word[offset - 1]], absent at
    offset 0. *)
Fixpoint toSnakeCase_from (prev : option Ascii.ascii) (word : string)
  : string :=
  match word with
  | EmptyString => EmptyString
  | String c rest =>
      let tail := toSnakeCase_from (Some c) rest in
      if is_upper c then
        match prev with
        | None => String (toLowerCase c) tail
        | Some p =>
            if Ascii.eqb p underscore then String (toLowerCase c) tail
            else String underscore (String (toLowerCase c) tail)
        end
      else String c tail
  end.

Definition toSnakeCase (word : string) : string :=
  toSnakeCase_from None word.

Fixpoint no_capital (s : string) : bool :=
  match s with
  | EmptyString => true
  | String c rest => negb (is_upper c) && no_capital rest
  end.

(** The letters of a word: lower-cased, underscores left out. *)
Fixpoint letters (s : string) : string :=
  match s with
  | EmptyString => EmptyString
  | String c rest =>
      if Ascii.eqb c underscore then letters rest
      else String (toLowerCase c) (letters rest)
  end.

(** definition.ts 19-50: the pairs handed to [new Map], in order. *)
Definition virtual_method_entries : list (string * string) :=
  [("_Ready", "Node"); ("_Process", "Node"); ("_PhysicsProcess", "Node");
   ("_EnterTree", "Node"); ("_ExitTree", "Node"); ("_Input", "Node");
   ("_ShortcutInput", "Node"); ("_UnhandledInput", "Node");
   ("_UnhandledKeyInput", "Node");
   ("_Draw", "CanvasItem");
   ("_GuiInput", "Control"); ("_GetMinimumSize", "Control");
   ("_HasPoint", "Control"); ("_GetDragData", "Control");
   ("_CanDropData", "Control"); ("_DropData", "Control");
   ("_MakeCustomTooltip", "Control");
   ("_Initialize", "MainLoop"); ("_Finalize", "MainLoop");
   ("_Initialize", "SceneTree"); ("_Finalize", "SceneTree")].

(** [new Map(entries)] sets the pairs one after the other: a later pair
    replaces an earlier one with the same key. *)
Definition Map_of (entries : list (string * string)) : gmap string string :=
  fold_left (fun m kv => <[fst kv := snd kv]> m) entries ∅.

Definition GODOT_VIRTUAL_METHODS : gmap string string :=
  Map_of virtual_method_entries.

(** The last pair with key [k], as a function that computes. *)
Fixpoint last_entry (k : string) (entries : list (string * string))
  : option string :=
  match entries with
  | [] => None
  | kv :: rest =>
      match last_entry k rest with
      | Some v => Some v
      | None => if String.eqb (fst kv) k then Some (snd kv) else None
      end
  end.

(** definition.ts 79-96, the C# branch of [provideDefinition] once the
    word under the cursor is known: the class and the member
    [make_docs_uri] is called with, or [None] for [null].  [is_class] is
    [globals.docsProvider.classInfo.has]. *)
Definition csharp_definition (is_class : string -> bool) (word : string)
  : option (string * option string) :=
  if is_class word then Some (word, None)
  else
    match GODOT_VIRTUAL_METHODS !! word with
    | Some methodClass =>
        if String.eqb methodClass EmptyString then None
        else Some (methodClass, Some (toSnakeCase word))
    | None => None
    end.

End Definitions.

(* ====================================================================== *)
(** * providers/hover.ts *)
(* ====================================================================== *)

(** [length] and [substring] count UTF-16 code units, so a text is the
    list of its code units here. *)
Module Hover.

Definition MAX_PREVIEW_LINES : nat := 50.
Definition MAX_LINE_LENGTH : nat := 200.

Definition LF : Z := 10.

(** The code units of an ASCII literal. *)
Definition units (s : string) : list Z :=
  List.map (fun a => Z.of_nat (Ascii.nat_of_ascii a))
           (String.list_ascii_of_string s).

(** [text.split("\n")] *)
Fixpoint split (text : list Z) : list (list Z) :=
  match text with
  | [] => [[]]
  | c :: rest =>
      if (c =? LF)%Z then [] :: split rest
      else match split rest with
           | line :: lines => (c :: line) :: lines
           | [] => [[c]]
           end
  end.

(** [lines.join("\n")] *)
Fixpoint join (lines : list (list Z)) : list Z :=
  match lines with
  | [] => []
  | line :: rest =>
      match rest with
      | [] => line
      | _ :: _ => line ++ LF :: join rest
      end
  end.

(** A number in a template literal: its decimal digits. *)
Fixpoint decimal_go (fuel n : nat) (acc : list Z) : list Z :=
  match fuel with
  | O => acc
  | S fuel' =>
      let acc' := (48 + Z.of_nat (n mod 10))%Z :: acc in
      if (n <? 10)%nat then acc' else decimal_go fuel' (n / 10) acc'
  end.

Definition decimal (n : nat) : list Z := decimal_go (S n) n [].

(** hover.ts 68-73: the function mapped over the lines *)
Definition clip (line : list Z) : list Z :=
  if (MAX_LINE_LENGTH <? length line)%nat
  then take MAX_LINE_LENGTH line ++ units "..."
  else line.

(** hover.ts 57-82 *)
Definition truncateForPreview (text : list Z) (languageId : string)
  : list Z :=
  let lines := split text in
  let truncated := (MAX_PREVIEW_LINES <? length lines)%nat in
  let previewLines := List.map clip (take MAX_PREVIEW_LINES lines) in
  let result := join previewLines in
  if truncated then
    result ++ LF :: LF :: units "... (" ++
      decimal (length lines - MAX_PREVIEW_LINES) ++ units " more lines)"
  else result.

Definition no_LF (line : list Z) : Prop := Forall (fun c => c <> LF) line.

End Hover.

(* ====================================================================== *)
(** * MessageIOReader: listening *)
(* ====================================================================== *)

Module Listening.

(** A function object, told apart by identity: every [bind] makes a new
    one. *)
Definition handler : Type := nat.

Definition registration : Type := (string * handler)%type.

Record state := {
  emitter : list registration;
    (* the listeners of [this.io], in the order they were added *)
  listeners : list registration;     (* this.listeners *)
  callback : option nat;             (* this.callback *)
  pending : list Reader.json;        (* what this.buffer holds *)
  bound : nat;                       (* how many functions bind() has made *)
}.

(** [emitter.off(event, h)]: at most one registration goes, the one
    added last. *)
Fixpoint off (x : registration) (l : list registration) : list registration :=
  match l with
  | [] => []
  | y :: rest =>
      if bool_decide (x ∈ rest) then y :: off x rest
      else if bool_decide (x = y) then rest
      else y :: rest
  end.

(** MessageIO.ts 207-212 *)
Definition disposeListeners (st : state) : state :=
  {| emitter := fold_left (fun em x => off x em) (listeners st) (emitter st);
     listeners := [];
     callback := callback st; pending := pending st; bound := bound st |}.

(** MessageIO.ts 177-205 *)
Definition listen (cb : nat) (st : state) : state :=
  let st1 := disposeListeners st in
  let dataHandler := bound st1 in
  let errorHandler := S (bound st1) in
  let closeHandler := S (S (bound st1)) in
  let mine := [("data", dataHandler); ("error", errorHandler);
               ("close", closeHandler)] in
  {| emitter := emitter st1 ++ mine;
     listeners := mine;
     callback := Some cb;
     pending := [];
     bound := S (S (S (bound st1))) |}.

Inductive call :=
| Listen (cb : nat)
| Dispose.      (* the Disposable of [listen], or [disposeClient] *)

Definition step (c : call) (st : state) : state :=
  match c with
  | Listen cb => listen cb st
  | Dispose => disposeListeners st
  end.

Definition run (calls : list call) (st : state) : state :=
  fold_left (fun st c => step c st) calls st.

(** A reader that has never listened, on a transport that has the
    listeners [others] (those of the client, say). *)
Definition start (others : list registration) : state :=
  {| emitter := others; listeners := []; callback := None;
     pending := []; bound := 0 |}.

End Listening.

(* ====================================================================== *)
(** * Hover text without markup *)
(* ====================================================================== *)

Module Markup.

Definition backtick : Ascii.ascii := Ascii.ascii_of_nat 96.

(** No backtick and no ['#'] anywhere. *)
Fixpoint plain (s : string) : bool :=
  match s with
  | EmptyString => true
  | String c rest =>
      negb (Ascii.eqb c backtick) && negb (Text.is_hash c) && plain rest
  end.

Definition plain_hover : Client.ResponseMessage :=
  {| Client.resp_id := Client.IdNum 7;
     Client.resp_result := Client.RHover "func f()" |}.

End Markup.

(* ====================================================================== *)
(** * Proofs *)
(* ====================================================================== *)

(** Case analysis on whatever the goal branches on first. *)
Ltac break_match :=
  match goal with
  | |- context [match ?x with _ => _ end] => destruct x eqn:?
  end.

(* ====================================================================== *)
(** * Facts about the transport *)
(* ====================================================================== *)

Module IOFacts.
Import IO.

Section Generic.
Context {Frame : Type}.
Implicit Types (st : io Frame) (s : sock Frame).

Lemma flush_spec (pending : list Frame) st i :
  socket st = Some i ->
  flush pending st = set_cache [] (on_heap (wrote_all pending) i st).
Proof.
  revert st. induction pending as [|m rest IH]; intros st Hs.
  - simpl. unfold on_heap. rewrite list_alter_id; [by destruct st|].
    intros [ ]; unfold wrote_all; simpl. by rewrite app_nil_r.
  - simpl. rewrite IH.
    + unfold socket_write. simpl. rewrite Hs.
      unfold set_cache, on_heap, set_heap; simpl. f_equal.
      rewrite list_alter_alter_eq. apply list_alter_ext; [|done].
      intros [ ] _. unfold wrote_all, wrote; simpl. by rewrite <- app_assoc.
    + unfold socket_write. simpl. by rewrite Hs.
Qed.

End Generic.

(** ** The cache never holds more than [MAX_MESSAGE_CACHE] frames *)

Section Bound.
Context {Frame : Type}.
Implicit Types (st : io Frame).

Lemma cache_after_fire i e st :
  messageCache (fst (fire i e st)) = messageCache st
  \/ messageCache (fst (fire i e st)) = [].
Proof.
  unfold fire. destruct (heap st !! i); [|by left].
  destruct (deliverable e _); [|by left].
  destruct e; unfold on_connect, on_error, on_close, on_connect_timer,
    forget_if_current; cbn [fst]; try (by left).
  - right. by rewrite (flush_spec _ _ i).
  - left. simpl. destruct (socket st); [|done]. by destruct (Nat.eqb i n).
  - left. simpl. destruct (socket st); [|done]. by destruct (Nat.eqb i n).
Qed.

Lemma cache_bounded_step a st :
  length (messageCache st) <= MAX_MESSAGE_CACHE ->
  length (messageCache (step a st)) <= MAX_MESSAGE_CACHE.
Proof.
  intros H. destruct a; simpl.
  - unfold connect. simpl.
    destruct (socket st); simpl;
      destruct (messageCache st) eqn:E; simpl in *; rewrite ?E; simpl; lia.
  - unfold write, socket_write.
    destruct (socket st); [destruct (draining st)|];
      try destruct (_ <? _)%nat eqn:L; try destruct canContinue;
      simpl; rewrite ?length_app; simpl;
      try apply Nat.ltb_lt in L; unfold MAX_MESSAGE_CACHE in *; lia.
  - destruct (cache_after_fire i e st) as [-> | ->]; simpl; [done|].
    unfold MAX_MESSAGE_CACHE. lia.
  - unfold resetAndDestroy. by destruct (socket st).
  - unfold dispose. simpl. unfold MAX_MESSAGE_CACHE. lia.
Qed.

Lemma cache_bounded tr : forall st,
  length (messageCache st) <= MAX_MESSAGE_CACHE ->
  length (messageCache (run tr st)) <= MAX_MESSAGE_CACHE.
Proof.
  induction tr as [|a tr IH]; intros st H; simpl; [done|].
  by apply IH, cache_bounded_step.
Qed.

End Bound.

(** ** The frame type plays no part in what the transport does *)

Section Natural.
Context {Frame Frame' : Type} (f : Frame -> Frame').
Implicit Types (st : io Frame) (s : sock Frame).

Lemma on_heap_natural (g : sock Frame -> sock Frame)
      (g' : sock Frame' -> sock Frame') i st :
  (forall s, sock_map f (g s) = g' (sock_map f s)) ->
  io_map f (on_heap g i st) = on_heap g' i (io_map f st).
Proof.
  intros Hg. unfold io_map, on_heap, set_heap; simpl. f_equal.
  apply list_fmap_alter, Forall_forall. auto.
Qed.

Lemma teardown_current_natural st :
  io_map f match socket st with
           | Some i => set_socket None (on_heap torn_down i st)
           | None => st
           end =
  match socket (io_map f st) with
  | Some i => set_socket None (on_heap torn_down i (io_map f st))
  | None => io_map f st
  end.
Proof.
  simpl. destruct (socket st); [|done].
  rewrite <- (on_heap_natural torn_down torn_down); done.
Qed.

Lemma connect_natural host port st :
  io_map f (connect host port st) = connect host port (io_map f st).
Proof.
  unfold connect. rewrite <- teardown_current_natural.
  set (st1 := match socket st with Some i => _ | None => _ end).
  assert (length (messageCache (io_map f st1)) = length (messageCache st1))
    as -> by apply length_fmap.
  destruct (0 <? _)%nat; unfold io_map, set_heap, set_cache; simpl;
    by rewrite fmap_app.
Qed.

Lemma write_natural m ok st :
  io_map f (write m ok st) = write (f m) ok (io_map f st).
Proof.
  unfold write. simpl. rewrite length_fmap.
  destruct (socket st) as [i|] eqn:E.
  - destruct (draining st).
    + destruct (_ <? _)%nat; [|done].
      unfold io_map, set_cache; simpl. by rewrite fmap_app.
    + unfold socket_write; simpl. rewrite E.
      rewrite <- (on_heap_natural (wrote m) (wrote (f m)));
        [by destruct ok|].
      intros [ ]. unfold sock_map, wrote; simpl. by rewrite fmap_app.
  - destruct (_ <? _)%nat; [|done].
    unfold io_map, set_cache; simpl. by rewrite fmap_app.
Qed.

Lemma forget_if_current_natural i st :
  io_map f (forget_if_current i st) = forget_if_current i (io_map f st).
Proof.
  unfold forget_if_current. simpl. destruct (socket st); [|done].
  by destruct (Nat.eqb i n).
Qed.

Lemma deliverable_natural e s : deliverable e (sock_map f s) = deliverable e s.
Proof. by destruct e. Qed.

Lemma fire_natural i e st :
  io_map f (fst (fire i e st)) = fst (fire i e (io_map f st)).
Proof.
  unfold fire. simpl. rewrite list_lookup_fmap.
  destruct (heap st !! i) as [s|]; simpl; [|done].
  rewrite deliverable_natural. destruct (deliverable e s); [|done].
  destruct e; unfold on_connect, on_error, on_close, on_connect_timer;
    cbn [fst]; try done.
  - rewrite (flush_spec _ _ i); [|done].
    rewrite (flush_spec _ _ i); [|done].
    unfold on_heap, set_heap, set_cache, set_socket, io_map; simpl. f_equal.
    rewrite !list_alter_alter_eq. apply list_fmap_alter, Forall_forall.
    intros [ ] _. unfold sock_map, wrote_all; simpl. by rewrite fmap_app.
  - rewrite forget_if_current_natural. f_equal.
    by apply on_heap_natural.
  - rewrite forget_if_current_natural. f_equal.
    by apply on_heap_natural.
  - by apply on_heap_natural.
Qed.

Lemma step_natural a st :
  io_map f (step a st) = step (action_map f a) (io_map f st).
Proof.
  destruct a; simpl.
  - apply connect_natural.
  - apply write_natural.
  - apply fire_natural.
  - unfold resetAndDestroy. simpl. destruct (socket st); [|done].
    by apply on_heap_natural.
  - unfold dispose. rewrite <- teardown_current_natural.
    by destruct (socket st).
Qed.

Lemma run_natural tr st :
  io_map f (run tr st) = run (action_map f <$> tr) (io_map f st).
Proof.
  revert st. induction tr as [|a tr IH]; intros st; simpl; [done|].
  by rewrite IH, step_natural.
Qed.

End Natural.

(** ** Calls of [connect] that do not overlap *)

Section Sequential.
Context {Frame : Type}.
Implicit Types (st : io Frame) (s : sock Frame).

Lemma sequential_init : sequential (init (Frame := Frame)).
Proof.
  split; simpl; try (intros j s H; by rewrite lookup_nil in H).
  intros j H. done.
Qed.

(** Nothing but the active socket [i] changes, and [this.socket] ends up
    on [i] or empty in step with it. *)
Lemma sequential_update st st' i s (f : sock Frame -> sock Frame) :
  sequential st ->
  heap st !! i = Some s -> active s = true ->
  heap st' = alter f i (heap st) ->
  (sock_connect_timer (f s) = true -> sock_phase (f s) = Connecting) ->
  (active (f s) = true -> sock_phase (f s) <> Connecting ->
   socket st' = Some i) ->
  (forall j, socket st' = Some j ->
             j = i /\ sock_listeners (f s) = true /\
             sock_phase (f s) <> Connecting) ->
  sequential st'.
Proof.
  intros [O1 O2 O3 O4] Hi Ha Hh P1 P2 P3.
  pose proof (O1 i s Hi Ha) as Hnew.
  assert (forall j s', heap st' !! j = Some s' ->
            (j = i /\ s' = f s) \/ (j <> i /\ heap st !! j = Some s'))
    as Hcases.
  { intros j s' Hl. rewrite Hh, list_lookup_alter in Hl.
    case_decide; [subst; left|right; done].
    rewrite Hi in Hl. simpl in Hl. by injection Hl as <-. }
  split.
  - intros j s' Hl Hact. rewrite Hh, length_alter.
    destruct (Hcases j s' Hl) as [[-> ->]|[Hne Hl']]; [done|].
    by apply (O1 j s').
  - intros j s' Hl Hact Hph.
    destruct (Hcases j s' Hl) as [[-> ->]|[Hne Hl']]; [by apply P2|].
    pose proof (O1 j s' Hl' Hact). lia.
  - intros j s' Hl Ht.
    destruct (Hcases j s' Hl) as [[-> ->]|[Hne Hl']]; [by apply P1|].
    by apply (O3 j s').
  - intros j Hj. destruct (P3 j Hj) as (-> & H1 & H2).
    exists (f s). split; [|done].
    by rewrite Hh, list_lookup_alter_eq, Hi.
Qed.

Lemma sequential_same st st' :
  heap st' = heap st -> socket st' = socket st ->
  sequential st -> sequential st'.
Proof.
  intros Hh Hs [O1 O2 O3 O4]. split; rewrite ?Hh, ?Hs; auto.
Qed.

Lemma current_active st j s :
  sequential st -> socket st = Some j -> heap st !! j = Some s ->
  active s = true /\ sock_phase s <> Connecting /\
  sock_connect_timer s = false /\ sock_listeners s = true.
Proof.
  intros H Hj Hl. destruct (current_listening st H j Hj) as (s' & Hl' & L & P).
  assert (s' = s) as -> by congruence.
  split_and!; try done.
  - unfold active. by rewrite L.
  - destruct (sock_connect_timer s) eqn:T; [|done].
    by destruct (P (timer_connecting st H j s Hl T)).
Qed.

(** [socket.removeAllListeners(); socket.destroy(); this.socket = null]
    for the socket in [this.socket]. *)
Lemma sequential_teardown_current st :
  sequential st ->
  sequential match socket st with
             | Some i => set_socket None (on_heap torn_down i st)
             | None => st
             end.
Proof.
  intros H. destruct (socket st) as [i|] eqn:E; [|done].
  destruct (current_listening st H i E) as (s & Hl & _).
  destruct (current_active st i s H E Hl) as (Ha & Hp & Ht & _).
  apply (sequential_update st _ i s torn_down H Hl Ha); simpl; try done.
  - by rewrite Ht.
  - unfold active. simpl. by rewrite Ht.
Qed.

Lemma sequential_socket_write m st :
  sequential st -> sequential (socket_write m st).
Proof.
  intros H. unfold socket_write. destruct (socket st) as [i|] eqn:E; [|done].
  destruct (current_listening st H i E) as (s & Hl & _).
  destruct (current_active st i s H E Hl) as (Ha & Hp & Ht & Hli).
  apply (sequential_update st _ i s (wrote m) H Hl Ha); simpl; try done.
  - by rewrite Ht.
  - intros j Hj. assert (j = i) as -> by congruence. done.
Qed.

Lemma sequential_write m ok st : sequential st -> sequential (write m ok st).
Proof.
  intros H. unfold write. destruct (socket st) eqn:E.
  - destruct (draining st).
    + destruct (_ <? _)%nat; [|done]. by apply (sequential_same st).
    + destruct ok; [by apply sequential_socket_write|].
      apply (sequential_same (socket_write m st)); [done|done|].
      by apply sequential_socket_write.
  - destruct (_ <? _)%nat; [|done]. by apply (sequential_same st).
Qed.

Lemma sequential_teardown_event st i s :
  sequential st -> heap st !! i = Some s ->
  sock_listeners s || sock_connect_timer s = true ->
  sequential (forget_if_current i
                (on_heap (fun s => torn_down (timer_cleared s)) i st)) /\
  (sock_phase s = Connecting ->
   sequential (on_heap (fun s => torn_down (timer_cleared s)) i st)).
Proof.
  intros H Hl Hd.
  assert (active s = true) as Ha.
  { unfold active. by rewrite Hd. }
  pose proof (active_newest st H i s Hl Ha) as Hnew.
  split.
  - apply (sequential_update st _ i s (fun s => torn_down (timer_cleared s))
                               H Hl Ha); simpl; try done.
    + unfold forget_if_current. simpl. destruct (socket st) as [k|]; [|done].
      by destruct (Nat.eqb i k).
    + intros j. unfold forget_if_current. simpl.
      destruct (socket st) as [k|] eqn:E; simpl; [|by rewrite E].
      destruct (Nat.eqb i k) eqn:Ek; simpl; [done|]. rewrite E.
      intros [= <-]. apply Nat.eqb_neq in Ek.
      destruct (current_listening st H k E) as (s' & Hl' & _).
      destruct (current_active st k s' H E Hl') as (Ha' & _).
      pose proof (active_newest st H k s' Hl' Ha'). lia.
  - intros Hc.
    apply (sequential_update st _ i s (fun s => torn_down (timer_cleared s))
                               H Hl Ha); simpl; try done.
    intros j Hj.
    destruct (current_listening st H j Hj) as (s' & Hl' & _).
    destruct (current_active st j s' H Hj Hl') as (Ha' & Hp' & _).
    pose proof (active_newest st H j s' Hl' Ha').
    assert (j = i) as -> by lia. congruence.
Qed.

Lemma sequential_fire i e st : sequential st -> sequential (fst (fire i e st)).
Proof.
  intros H. unfold fire. destruct (heap st !! i) as [s|] eqn:Hl; [|done].
  destruct (deliverable e s) eqn:D; [|done].
  destruct e; unfold on_connect, on_error, on_close, on_connect_timer;
    cbn [fst]; try done.
  - simpl in D. apply andb_true_iff in D as [L C].
    destruct (sock_phase s) eqn:P; try done.
    rewrite (flush_spec _ _ i); [|done].
    assert (active s = true) as Ha by (unfold active; by rewrite L).
    apply (sequential_update st _ i s
             (fun s0 => wrote_all (messageCache st)
                          (established (timer_cleared s0))) H Hl Ha);
      simpl; try done.
    + unfold on_heap. simpl. by rewrite list_alter_alter_eq.
    + intros j [= <-]. done.
  - by apply (sequential_same st).
  - simpl in D.
    apply (sequential_teardown_event st i s H Hl). by rewrite D.
  - simpl in D.
    apply (sequential_teardown_event st i s H Hl). by rewrite D.
  - simpl in D.
    apply (sequential_teardown_event st i s H Hl);
      [by rewrite D, orb_true_r|].
    by apply (timer_connecting st H i s).
Qed.

Lemma sequential_reset st :
  sequential st ->
  sequential match resetAndDestroy st with Some st' => st' | None => st end.
Proof.
  intros H. unfold resetAndDestroy.
  destruct (socket st) as [i|] eqn:E; [|done].
  destruct (current_listening st H i E) as (s & Hl & _).
  destruct (current_active st i s H E Hl) as (Ha & Hp & Ht & Hli).
  apply (sequential_update st _ i s reset_destroyed H Hl Ha); simpl; try done.
  - by rewrite Ht.
  - intros j Hj. assert (j = i) as -> by congruence. done.
Qed.

Lemma sequential_dispose st : sequential st -> sequential (dispose st).
Proof.
  intros H. unfold dispose.
  apply (sequential_same
           match socket st with
           | Some i => set_socket None (on_heap torn_down i st)
           | None => st
           end); [done|done|].
  by apply sequential_teardown_current.
Qed.

(** With no socket connecting and [this.socket] empty, no socket is
    active. *)
Lemma nothing_active st :
  sequential st -> socket st = None ->
  forallb (fun s => negb (is_connecting s)) (heap st) = true ->
  forall j s, heap st !! j = Some s -> active s = false.
Proof.
  intros H Hs Hf j s Hl. destruct (active s) eqn:Ha; [|done].
  rewrite forallb_forall in Hf.
  assert (sock_phase s <> Connecting) as Hp.
  { intros Hc. specialize (Hf s).
    unfold is_connecting in Hf. rewrite Hc in Hf.
    assert (In s (heap st)) as Hin
        by (apply list_elem_of_In; by eapply list_elem_of_lookup_2).
    by specialize (Hf Hin). }
  pose proof (active_current st H j s Hl Ha Hp). congruence.
Qed.

Lemma sequential_connect host port st :
  sequential st ->
  forallb (fun s => negb (is_connecting s)) (heap st) = true ->
  sequential (connect host port st).
Proof.
  intros H Hf. unfold connect.
  pose proof (sequential_teardown_current st H) as H1.
  set (st1 := match socket st with Some i => _ | None => _ end) in *.
  assert (socket st1 = None) as Hs1
      by (subst st1; by destruct (socket st) eqn:E).
  assert (forallb (fun s => negb (is_connecting s)) (heap st1) = true) as Hf1.
  { subst st1. destruct (socket st) as [i|]; [|done]. simpl.
    rewrite forallb_forall in *. intros s' Hin.
    apply list_elem_of_In, list_elem_of_lookup in Hin as [j Hj].
    rewrite list_lookup_alter in Hj. case_decide.
    - subst. destruct (heap st !! j); simpl in Hj; [|done].
      by injection Hj as <-.
    - apply Hf, list_elem_of_In. by eapply list_elem_of_lookup_2. }
  pose proof (nothing_active st1 H1 Hs1 Hf1) as Hin.
  set (st2 := if (0 <? _)%nat then _ else _).
  assert (heap st2 = heap st1 /\ socket st2 = None) as [Hh2 Hs2]
      by (subst st2; by destruct (0 <? _)%nat).
  split; simpl; rewrite ?Hh2, ?Hs2.
  - intros j s Hl Ha. rewrite length_app. simpl.
    apply lookup_app_Some in Hl as [Hl|[Hge Hl]].
    + by rewrite (Hin j s Hl) in Ha.
    + apply list_lookup_singleton_Some in Hl as [Hl _]. lia.
  - intros j s Hl Ha Hp.
    apply lookup_app_Some in Hl as [Hl|[Hge Hl]].
    + by rewrite (Hin j s Hl) in Ha.
    + apply list_lookup_singleton_Some in Hl as [_ <-]. done.
  - intros j s Hl Ht.
    apply lookup_app_Some in Hl as [Hl|[Hge Hl]].
    + pose proof (Hin j s Hl) as Hi. unfold active in Hi.
      rewrite Ht, orb_true_r in Hi. done.
    + apply list_lookup_singleton_Some in Hl as [_ <-]. done.
  - done.
Qed.

Lemma sequential_run tr : forall st,
  sequential st -> well_spaced tr st = true -> sequential (run tr st).
Proof.
  induction tr as [|a tr IH]; intros st H Hw; simpl in *; [done|].
  apply andb_true_iff in Hw as [Ha Hw]. apply IH; [|done].
  destruct a; simpl.
  - by apply sequential_connect.
  - by apply sequential_write.
  - by apply sequential_fire.
  - by apply sequential_reset.
  - by apply sequential_dispose.
Qed.

End Sequential.

(** ** Order of frames *)

Section Order.
Implicit Types (st : io labelled) (s : sock labelled).

Lemma in_call_order_init : in_call_order 0 init.
Proof.
  split; simpl; try by constructor.
  intros i s _ H. by rewrite lookup_nil in H.
Qed.

Lemma in_call_order_mono n st : in_call_order n st -> in_call_order (S n) st.
Proof.
  intros [H1 H2 H3 H4 H5 H6]. split; auto.
  - eapply Forall_impl; [exact H2|]. simpl. lia.
  - eapply Forall_impl; [exact H4|]. simpl. intros s Hs.
    eapply Forall_impl; [exact Hs|]. simpl. lia.
Qed.

Lemma quiet_torn_down : quiet (Frame:=labelled) torn_down.
Proof. by intros [ ]. Qed.
Lemma quiet_teardown_timer :
  quiet (Frame:=labelled) (fun s => torn_down (timer_cleared s)).
Proof. by intros [ ]. Qed.
Lemma quiet_reset : quiet (Frame:=labelled) reset_destroyed.
Proof. by intros [ ]. Qed.

Lemma on_heap_quiet n f i st :
  quiet f -> in_call_order n st -> in_call_order n (on_heap f i st).
Proof.
  intros Hq [H1 H2 H3 H4 H5 H6]. split; simpl; auto.
  - apply Forall_alter; [done|]. intros s _ Hs. by rewrite (proj1 (Hq s)).
  - apply Forall_alter; [done|]. intros s _ Hs. by rewrite (proj1 (Hq s)).
  - apply Forall_alter; [done|]. intros s _ Hs Hc.
    rewrite (proj1 (Hq s)). apply Hs. by apply (Hq s).
  - intros j s Hj Hl. rewrite list_lookup_alter in Hl.
    case_decide as Hd; [subst|].
    + destruct (heap st !! j) as [s0|] eqn:E; simpl in Hl; [|done].
      injection Hl as <-. intros Hc. apply (H6 j s0 Hj E). by apply (Hq s0).
    + by apply (H6 j s).
Qed.

Lemma set_socket_none n st :
  in_call_order n st -> in_call_order n (set_socket None st).
Proof. intros [H1 H2 H3 H4 H5 H6]. by split. Qed.

Lemma set_cache_nil n st :
  in_call_order n st -> in_call_order n (set_cache [] st).
Proof. intros [H1 H2 H3 H4 H5 H6]. split; simpl; auto; constructor. Qed.

Lemma set_draining_ok n b st :
  in_call_order n st -> in_call_order n (set_draining b st).
Proof. intros [H1 H2 H3 H4 H5 H6]. by split. Qed.

Lemma forget_if_current_ok n i st :
  in_call_order n st -> in_call_order n (forget_if_current i st).
Proof.
  intros H. unfold forget_if_current. destruct (socket st); [|done].
  destruct (Nat.eqb i n0); [|done]. by apply set_socket_none.
Qed.

Lemma teardown_current_ok n st :
  in_call_order n st ->
  in_call_order n match socket st with
                  | Some i => set_socket None (on_heap torn_down i st)
                  | None => st
                  end.
Proof.
  intros H. destruct (socket st); [|done].
  apply set_socket_none, on_heap_quiet; [apply quiet_torn_down|done].
Qed.

Lemma connect_ok n host port st :
  in_call_order n st -> in_call_order n (connect host port st).
Proof.
  intros H. unfold connect.
  pose proof (teardown_current_ok n st H) as H1.
  set (st1 := match socket st with Some i => _ | None => _ end) in *.
  assert (in_call_order n
            (if (0 <? length (messageCache st1))%nat
             then set_cache [] st1 else st1)) as H2.
  { destruct (0 <? _)%nat; [by apply set_cache_nil|done]. }
  set (st2 := if (0 <? _)%nat then _ else _) in *.
  destruct H2 as [C1 C2 C3 C4 C5 C6]. split; simpl; auto.
  - apply Forall_app; split; [done|]. repeat constructor.
  - apply Forall_app; split; [done|]. repeat constructor.
  - apply Forall_app; split; [done|]. by repeat constructor.
  - intros i s Hi Hl. apply lookup_app_Some in Hl as [Hl|[Hge Hl]].
    + by apply (C6 i s).
    + exfalso.
      assert (socket st2 = None) as Hn; [|congruence].
      subst st2 st1. clear. destruct (socket st) eqn:E;
        destruct (0 <? _)%nat; simpl; try done.
Qed.

Lemma push_cache_ok n (m : string) st :
  in_call_order n st ->
  in_call_order (S n) (set_cache (messageCache st ++ [(n, m)]) st).
Proof.
  intros [H1 H2 H3 H4 H5 H6]. split; simpl; auto.
  - unfold labels. rewrite map_app. simpl.
    apply StronglySorted_app. split_and!; [|done|repeat constructor].
    intros x1 x2 Hx1 ->%list_elem_of_singleton.
    by eapply Forall_forall in H2.
  - unfold labels. rewrite map_app. apply Forall_app. split.
    + eapply Forall_impl; [exact H2|]. simpl; lia.
    + repeat constructor.
  - eapply Forall_impl; [exact H4|]. simpl. intros s Hs.
    eapply Forall_impl; [exact Hs|]. simpl. lia.
Qed.

Lemma socket_write_ok n (m : string) st :
  in_call_order n st -> in_call_order (S n) (socket_write (n, m) st).
Proof.
  intros H. unfold socket_write. destruct (socket st) as [i|] eqn:E;
    [|by apply in_call_order_mono].
  destruct H as [H1 H2 H3 H4 H5 H6]. split; simpl; auto.
  - eapply Forall_impl; [exact H2|]. simpl; lia.
  - apply Forall_alter; [done|]. intros s Hl Hs. simpl.
    unfold labels. rewrite map_app. simpl.
    apply StronglySorted_app. split_and!; [|done|repeat constructor].
    intros x1 x2 Hx1 ->%list_elem_of_singleton.
    eapply Forall_lookup_1 in H4; [|exact Hl].
    by eapply Forall_forall in H4.
  - apply Forall_lookup. intros j s Hl.
    rewrite list_lookup_alter in Hl. case_decide; [subst|].
    + destruct (heap st !! j) as [s0|] eqn:E0; simpl in Hl; [|done].
      injection Hl as <-. simpl. unfold labels. rewrite map_app.
      apply Forall_app. split; [|repeat constructor].
      eapply Forall_lookup_1 in H4; [|exact E0].
      eapply Forall_impl; [exact H4|]. simpl; lia.
    + eapply Forall_lookup_1 in H4; [|exact Hl].
      eapply Forall_impl; [exact H4|]. simpl; lia.
  - apply Forall_lookup. intros j s Hl.
    rewrite list_lookup_alter in Hl. case_decide; [subst|].
    + destruct (heap st !! j) as [s0|] eqn:E0; simpl in Hl; [|done].
      injection Hl as <-. simpl. intros Hc.
      by destruct (H6 _ s0 E E0).
    + by eapply Forall_lookup_1 in H5.
  - intros j s Hj Hl. rewrite list_lookup_alter in Hl. case_decide; [subst|].
    + destruct (heap st !! j) as [s0|] eqn:E0; simpl in Hl; [|done].
      injection Hl as <-. simpl. by apply (H6 j s0).
    + by apply (H6 j s).
Qed.

Lemma write_ok n (m : string) ok st :
  in_call_order n st -> in_call_order (S n) (write (n, m) ok st).
Proof.
  intros H. unfold write. destruct (socket st) eqn:E.
  - destruct (draining st).
    + destruct (_ <? _)%nat; [by apply push_cache_ok|by apply in_call_order_mono].
    + destruct ok; [by apply socket_write_ok|].
      by apply set_draining_ok, socket_write_ok.
  - destruct (_ <? _)%nat; [by apply push_cache_ok|by apply in_call_order_mono].
Qed.

Lemma on_connect_ok n i s st :
  heap st !! i = Some s -> sock_phase s = Connecting ->
  in_call_order n st -> in_call_order n (fst (on_connect i st)).
Proof.
  intros Hl Hc [H1 H2 H3 H4 H5 H6]. unfold on_connect. simpl.
  rewrite (flush_spec _ _ i); [|done]. simpl.
  pose proof (Forall_lookup_1 _ _ _ _ H5 Hl Hc) as Hw.
  unfold on_heap; simpl. rewrite list_alter_alter_eq.
  split; simpl; try by constructor.
  - apply Forall_alter; [done|]. intros s' Hl' _. simpl.
    assert (s' = s) as -> by congruence. by rewrite Hw.
  - apply Forall_alter; [done|]. intros s' Hl' _. simpl.
    assert (s' = s) as -> by congruence. by rewrite Hw.
  - apply Forall_alter; [done|]. intros s' Hl' _. simpl. done.
  - intros j s' Hj Hl'. injection Hj as <-.
    rewrite list_lookup_alter_eq, Hl in Hl'. simpl in Hl'.
    injection Hl' as <-. done.
Qed.

Lemma fire_ok n i e st :
  in_call_order n st -> in_call_order n (fst (fire i e st)).
Proof.
  intros H. unfold fire. destruct (heap st !! i) as [s|] eqn:E; [|done].
  destruct (deliverable e s) eqn:D; [|done].
  destruct e; simpl; try done.
  - simpl in D. apply andb_true_iff in D as [_ D].
    destruct (sock_phase s) eqn:P; try done.
    by apply (on_connect_ok n i s).
  - by apply set_draining_ok.
  - apply forget_if_current_ok, on_heap_quiet; [apply quiet_teardown_timer|done].
  - apply forget_if_current_ok, on_heap_quiet; [apply quiet_teardown_timer|done].
  - apply on_heap_quiet; [apply quiet_teardown_timer|done].
Qed.

Lemma dispose_ok n st : in_call_order n st -> in_call_order n (dispose st).
Proof. intros H. by apply set_cache_nil, teardown_current_ok. Qed.

Lemma reset_ok n st :
  in_call_order n st ->
  in_call_order n match resetAndDestroy st with Some st' => st' | None => st end.
Proof.
  intros H. unfold resetAndDestroy. destruct (socket st); [|done].
  apply on_heap_quiet; [apply quiet_reset|done].
Qed.

Lemma run_numbered_ok tr : forall n st,
  in_call_order n st ->
  exists n', in_call_order n' (run (number_from n tr) st).
Proof.
  induction tr as [|a tr IH]; intros n st H; simpl.
  - by exists n.
  - destruct a; simpl.
    + apply (IH n). by apply connect_ok.
    + apply (IH (S n)). by apply write_ok.
    + apply (IH n). by apply fire_ok.
    + apply (IH n). by apply reset_ok.
    + apply (IH n). by apply dispose_ok.
Qed.

End Order.

Lemma number_from_erase tr n : action_map snd <$> number_from n tr = tr.
Proof.
  revert n. induction tr as [|a tr IH]; intros n; simpl; [done|].
  destruct a; simpl; by rewrite IH.
Qed.

(** ** One socket at a time, one order for all frames *)

Lemma filter_none {A : Type} (P : A -> Prop) `{forall x, Decision (P x)}
      (l : list A) :
  Forall (fun x => ~ P x) l -> filter P l = [].
Proof.
  induction 1 as [|x l Hx _ IH]; [done|].
  rewrite filter_cons. by destruct (decide (P x)).
Qed.

Lemma only_newest_counts {A : Type} (P : A -> Prop)
      `{forall x, Decision (P x)} (l : list A) :
  (forall j x, l !! j = Some x -> P x -> S j = length l) ->
  length (filter P l) <= 1.
Proof.
  destruct l as [|y l0 _] using rev_ind; intros Hl; [simpl; lia|].
  rewrite filter_app, length_app, filter_none.
  - simpl. rewrite filter_cons. simpl. destruct (decide (P y)); simpl; lia.
  - apply Forall_lookup. intros j x Hj Hx.
    pose proof (lookup_lt_Some _ _ _ Hj) as Hlt.
    specialize (Hl j x (lookup_app_l_Some _ _ _ _ Hj) Hx).
    rewrite length_app in Hl. simpl in Hl. lia.
Qed.

(** X6.  While the calls of [connect] do not overlap, at most one socket is
    open, and the runtime has callbacks left for the newest socket
    only. *)
Lemma well_spaced_one_socket {Frame : Type} (tr : list (action Frame)) :
  well_spaced tr init = true ->
  let st := run tr init in
  open_sockets st <= 1 /\
  forall j (s : sock Frame) e,
    heap st !! j = Some s -> deliverable e s = true ->
    S j = length (heap st).
Proof.
  intros Hw st.
  pose proof (sequential_run tr init sequential_init Hw) as H.
  fold st in H. split.
  - unfold open_sockets. apply only_newest_counts.
    intros j s Hl Ho. apply (active_newest st H j s Hl).
    unfold active, is_open, is_destroyed in *.
    destruct (sock_phase s); try done. by rewrite !orb_true_r.
  - intros j s e Hl Hd. apply (active_newest st H j s Hl).
    unfold active. destruct e; simpl in Hd;
      try (apply andb_true_iff in Hd as [-> _]; done);
      rewrite Hd; by rewrite ?orb_true_r.
Qed.

Lemma newest_is_last {A : Type} (l : list A) i x :
  l !! i = Some x -> S i = length l ->
  l = take i l ++ [x] /\ last l = Some x.
Proof.
  intros Hl Hn.
  assert (l = take i l ++ [x]) as E.
  { rewrite <- (take_drop i l) at 1. f_equal.
    rewrite (drop_S _ _ _ Hl). rewrite drop_ge; [done|lia]. }
  split; [done|]. rewrite E. apply last_snoc.
Qed.

Lemma all_written_alter_newest {Frame : Type} (l : list (sock Frame)) i s
      (f : sock Frame -> sock Frame) extra :
  l !! i = Some s -> S i = length l ->
  sock_written (f s) = sock_written s ++ extra ->
  concat (sock_written <$> alter f i l)
  = concat (sock_written <$> l) ++ extra /\
  last (alter f i l) = Some (f s).
Proof.
  intros Hl Hn Hw. destruct (newest_is_last l i s Hl Hn) as [E _].
  assert (length (take i l) = i) as Hlen by (rewrite length_take; lia).
  rewrite E.
  replace (alter f i (take i l ++ [s])) with (take i l ++ [f s]).
  - rewrite !fmap_app, !concat_app. simpl. rewrite !app_nil_r, Hw.
    split; [by rewrite app_assoc|apply last_snoc].
  - symmetry.
    rewrite <- Hlen at 1. rewrite <- (Nat.add_0_r (length (take i l))).
    by rewrite alter_app_r.
Qed.

Lemma all_written_below n (st : io labelled) :
  in_call_order n st -> Forall (fun k => k < n) (labels (all_written st)).
Proof.
  intros H. pose proof (written_below n st H) as Hb.
  unfold all_written, labels. induction Hb as [|s l Hs _ IH]; [constructor|].
  simpl. rewrite map_app. apply Forall_app. by split.
Qed.

Lemma in_global_order_init : in_global_order init.
Proof. split; simpl; [constructor|done]. Qed.

(** The newest socket changes, appending [extra] to what it wrote. *)
Lemma global_update (st st' : io labelled) i s
      (f : sock labelled -> sock labelled) extra :
  in_global_order st ->
  heap st !! i = Some s -> S i = length (heap st) ->
  heap st' = alter f i (heap st) ->
  sock_written (f s) = sock_written s ++ extra ->
  StronglySorted lt (labels extra) ->
  (forall w c, w ∈ labels (all_written st) -> c ∈ labels extra -> w < c) ->
  (sock_phase (f s) = Connecting ->
   forall w c, w ∈ labels (all_written st ++ extra) ->
               c ∈ labels (messageCache st') -> w < c) ->
  in_global_order st'.
Proof.
  intros [G1 G2] Hl Hn Hh Hw Hs Hx Hc.
  destruct (all_written_alter_newest (heap st) i s f extra Hl Hn Hw)
    as [Ea El].
  split.
  - unfold all_written. rewrite Hh, Ea. unfold labels. rewrite map_app.
    apply StronglySorted_app. split_and!; [|done|done].
    intros x1 x2. apply Hx.
  - intros s' Hs' Hp. rewrite Hh, El in Hs'. injection Hs' as <-.
    intros w c Hwi Hci. apply (Hc Hp w c); [|done].
    unfold all_written in *. by rewrite Hh, Ea in Hwi.
Qed.

(** The sockets stay as they are and the cache gains nothing. *)
Lemma global_same (st st' : io labelled) :
  heap st' = heap st ->
  (forall c, c ∈ messageCache st' -> c ∈ messageCache st) ->
  in_global_order st -> in_global_order st'.
Proof.
  intros Hh Hc [G1 G2]. split; unfold all_written in *; rewrite Hh; [done|].
  intros s Hl Hp w c Hw Hci. apply (G2 s Hl Hp w c Hw).
  unfold labels in *. apply list_elem_of_fmap in Hci as (x & -> & Hx).
  apply list_elem_of_fmap. exists x. split; [done|]. by apply Hc.
Qed.

(** A socket changes without writing and ends up destroyed. *)
Lemma global_destroy (st st' : io labelled) i s
      (f : sock labelled -> sock labelled) :
  sequential st -> in_global_order st ->
  heap st !! i = Some s -> active s = true ->
  heap st' = alter f i (heap st) ->
  sock_written (f s) = sock_written s ->
  sock_phase (f s) = Destroyed ->
  in_global_order st'.
Proof.
  intros Hq Hg Hl Ha Hh Hw Hp.
  apply (global_update st st' i s f [] Hg Hl
                       (active_newest st Hq i s Hl Ha) Hh);
    [by rewrite app_nil_r|constructor| |by rewrite Hp].
  intros w c _ Hc. by apply elem_of_nil in Hc.
Qed.

Lemma global_teardown_current (st : io labelled) :
  sequential st -> in_global_order st ->
  in_global_order match socket st with
                  | Some i => set_socket None (on_heap torn_down i st)
                  | None => st
                  end.
Proof.
  intros Hq Hg. destruct (socket st) as [i|] eqn:E; [|done].
  destruct (current_listening st Hq i E) as (s & Hl & _).
  destruct (current_active st i s Hq E Hl) as (Ha & _).
  by apply (global_destroy st _ i s torn_down).
Qed.

Lemma global_connect host port (st : io labelled) :
  sequential st -> in_global_order st ->
  in_global_order (connect host port st).
Proof.
  intros Hq Hg. unfold connect.
  pose proof (global_teardown_current st Hq Hg) as H1.
  set (st1 := match socket st with Some i => _ | None => _ end) in *.
  set (st2 := if (0 <? _)%nat then _ else _).
  assert (heap st2 = heap st1 /\ messageCache st2 = []) as [Hh2 Hc2].
  { subst st2. destruct (messageCache st1) eqn:Ec; simpl; by rewrite ?Ec. }
  destruct H1 as [G1 G2]. split.
  - unfold all_written in *. simpl. rewrite Hh2, fmap_app, concat_app.
    simpl. by rewrite !app_nil_r.
  - simpl. rewrite Hc2. intros s _ _ w c _ Hc. by apply elem_of_nil in Hc.
Qed.

Lemma global_push n (m : string) (st : io labelled) :
  in_call_order n st -> in_global_order st ->
  in_global_order (set_cache (messageCache st ++ [(n, m)]) st).
Proof.
  intros Ho [G1 G2]. split; [done|].
  intros s Hl Hp w c Hw Hc. simpl in *.
  unfold labels in Hc. rewrite map_app in Hc.
  apply elem_of_app in Hc as [Hc|Hc]; [by apply (G2 s Hl Hp)|].
  apply list_elem_of_singleton in Hc as ->.
  pose proof (all_written_below n st Ho) as Hb.
  by eapply Forall_forall in Hb.
Qed.

Lemma global_socket_write n (m : string) (st : io labelled) :
  in_call_order n st -> sequential st -> in_global_order st ->
  in_global_order (socket_write (n, m) st).
Proof.
  intros Ho Hq Hg. unfold socket_write.
  destruct (socket st) as [i|] eqn:E; [|done].
  destruct (current_listening st Hq i E) as (s & Hl & _).
  destruct (current_active st i s Hq E Hl) as (Ha & Hp & _).
  apply (global_update st _ i s (wrote (n, m)) [(n, m)] Hg Hl
                       (active_newest st Hq i s Hl Ha));
    simpl; try done.
  - repeat constructor.
  - intros w c Hw ->%list_elem_of_singleton.
    pose proof (all_written_below n st Ho) as Hb.
    by eapply Forall_forall in Hb.
Qed.

Lemma global_write n (m : string) ok (st : io labelled) :
  in_call_order n st -> sequential st -> in_global_order st ->
  in_global_order (write (n, m) ok st).
Proof.
  intros Ho Hq Hg. unfold write. destruct (socket st) eqn:E.
  - destruct (draining st).
    + destruct (_ <? _)%nat; [by apply global_push|done].
    + destruct ok; [by apply global_socket_write|].
      apply (global_same (socket_write (n, m) st)); try done.
      by apply global_socket_write.
  - destruct (_ <? _)%nat; [by apply global_push|done].
Qed.

Lemma global_fire n i e (st : io labelled) :
  in_call_order n st -> sequential st -> in_global_order st ->
  in_global_order (fst (fire i e st)).
Proof.
  intros Ho Hq Hg. unfold fire.
  destruct (heap st !! i) as [s|] eqn:Hl; [|done].
  destruct (deliverable e s) eqn:D; [|done].
  assert (active s = true) as Ha.
  { unfold active. destruct e; simpl in D;
      try (apply andb_true_iff in D as [-> _]; done);
      rewrite D; by rewrite ?orb_true_r. }
  pose proof (active_newest st Hq i s Hl Ha) as Hn.
  destruct e; unfold on_connect, on_error, on_close, on_connect_timer;
    cbn [fst]; try done.
  - simpl in D. apply andb_true_iff in D as [L C].
    destruct (sock_phase s) eqn:P; try done.
    rewrite (flush_spec _ _ i); [|done].
    destruct (newest_is_last _ _ _ Hl Hn) as [_ Hlast].
    apply (global_update st _ i s
             (fun s0 => wrote_all (messageCache st)
                          (established (timer_cleared s0)))
             (messageCache st) Hg Hl Hn); simpl; try done.
    + unfold on_heap. simpl. by rewrite list_alter_alter_eq.
    + apply Ho.
    + intros w c. by apply (cache_younger st Hg s).
  - by apply (global_same st).
  - apply (global_same (on_heap (fun s => torn_down (timer_cleared s)) i st)).
    + unfold forget_if_current. simpl. destruct (socket st); [|done].
      by destruct (Nat.eqb i n0).
    + unfold forget_if_current. simpl. destruct (socket st); [|done].
      by destruct (Nat.eqb i n0).
    + by apply (global_destroy st _ i s (fun s => torn_down (timer_cleared s))).
  - apply (global_same (on_heap (fun s => torn_down (timer_cleared s)) i st)).
    + unfold forget_if_current. simpl. destruct (socket st); [|done].
      by destruct (Nat.eqb i n0).
    + unfold forget_if_current. simpl. destruct (socket st); [|done].
      by destruct (Nat.eqb i n0).
    + by apply (global_destroy st _ i s (fun s => torn_down (timer_cleared s))).
  - by apply (global_destroy st _ i s (fun s => torn_down (timer_cleared s))).
Qed.

Lemma global_reset (st : io labelled) :
  sequential st -> in_global_order st ->
  in_global_order
    match resetAndDestroy st with Some st' => st' | None => st end.
Proof.
  intros Hq Hg. unfold resetAndDestroy.
  destruct (socket st) as [i|] eqn:E; [|done].
  destruct (current_listening st Hq i E) as (s & Hl & _).
  destruct (current_active st i s Hq E Hl) as (Ha & _).
  by apply (global_destroy st _ i s reset_destroyed).
Qed.

Lemma global_dispose (st : io labelled) :
  sequential st -> in_global_order st -> in_global_order (dispose st).
Proof.
  intros Hq Hg. unfold dispose.
  apply (global_same
           match socket st with
           | Some i => set_socket None (on_heap torn_down i st)
           | None => st
           end); try done.
  - simpl. intros c Hc. by apply elem_of_nil in Hc.
  - by apply global_teardown_current.
Qed.

Lemma none_connecting_natural {A B : Type} (f : A -> B) (l : list (sock A)) :
  forallb (fun s => negb (is_connecting s)) (sock_map f <$> l)
  = forallb (fun s => negb (is_connecting s)) l.
Proof.
  induction l as [|s l IH]; [done|]. rewrite fmap_cons. simpl. by rewrite IH.
Qed.

Lemma well_spaced_natural {A B : Type} (f : A -> B) (tr : list (action A)) :
  forall st, well_spaced (action_map f <$> tr) (io_map f st)
             = well_spaced tr st.
Proof.
  induction tr as [|a tr IH]; intros st; simpl; [done|].
  rewrite <- step_natural, IH. f_equal.
  destruct a; try done. apply none_connecting_natural.
Qed.

Lemma run_numbered_global tr : forall n st,
  in_call_order n st -> sequential st -> in_global_order st ->
  well_spaced (number_from n tr) st = true ->
  in_global_order (run (number_from n tr) st).
Proof.
  induction tr as [|a tr IH]; intros n st Ho Hq Hg Hw; simpl in *; [done|].
  destruct a; simpl in *; try apply andb_true_iff in Hw as [Ha Hw].
  - apply (IH n); try done;
      [by apply connect_ok|by apply sequential_connect|by apply global_connect].
  - apply (IH (S n)); try done;
      [by apply write_ok|by apply sequential_write|by apply global_write].
  - apply (IH n); try done;
      [by apply fire_ok|by apply sequential_fire|by apply (global_fire n)].
  - apply (IH n); try done;
      [by apply reset_ok|by apply sequential_reset|by apply global_reset].
  - apply (IH n); try done;
      [by apply dispose_ok|by apply sequential_dispose|by apply global_dispose].
Qed.

(** While the calls of [connect] do not overlap, the frames leave the
    transport as a whole, the sockets taken one after the other, in the
    order of the calls of [write]. *)
Lemma well_spaced_frames_in_call_order (tr : list (action string)) :
  well_spaced tr init = true ->
  StronglySorted lt (labels (all_written (run (number_from 0 tr) init))).
Proof.
  intros Hw. apply all_sorted, run_numbered_global.
  - apply in_call_order_init.
  - apply sequential_init.
  - apply in_global_order_init.
  - rewrite <- (well_spaced_natural snd), number_from_erase. done.
Qed.

(** With overlapping calls (see C1) the second socket, when it comes
    up, flushes what the cache holds by then: a frame queued under
    back-pressure on the first socket goes out on the second after a
    younger frame went out on the first. *)
Lemma overlapping_connects_break_global_order :
  labels (all_written (run (number_from 0 stale_flush) init)) = [0; 2; 1].
Proof. by vm_compute. Qed.


(** ** What [connect] does to the socket it knows *)

Lemma connect_tears_down_current {Frame : Type} host port
      (st : io Frame) i (s : sock Frame) :
  socket st = Some i -> heap st !! i = Some s ->
  heap (connect host port st) !! i = Some (torn_down s) /\
  socket (connect host port st) = None /\
  messageCache (connect host port st) = [].
Proof.
  intros Hs Hl. unfold connect. rewrite Hs.
  assert (forall st1 : io Frame,
             messageCache (if (0 <? length (messageCache st1))%nat
                           then set_cache [] st1 else st1) = []) as Hc.
  { intros st1. destruct (messageCache st1) eqn:E; simpl; by rewrite ?E. }
  split_and!.
  - destruct (0 <? _)%nat; simpl;
      (rewrite lookup_app_l;
       [by rewrite list_lookup_alter_eq, Hl
       |rewrite length_alter; by eapply lookup_lt_Some]).
  - by destruct (0 <? _)%nat.
  - exact (Hc _).
Qed.

(** C1 (the code departs from it).  [connect] tears down only the socket
    stored in [this.socket], and that field is set by the ["connect"]
    handler.  A socket still connecting when the next [connect] begins is
    left alone with its listeners: its handler fires later, and once both
    connections are up two sockets are open. *)
Theorem C1_socket_still_connecting_survives_connect :
  let before := run two_connects init in
  let after := run overlapping_connects init in
  heap before !! 0 = Some (new_sock localhost 6005) /\
  snd (fire 0 SConnect before) = [EvConnected] /\
  open_sockets after = 2 /\
  socket after = Some 1 /\
  (sock_listeners <$> heap after !! 0) = Some true.
Proof. by vm_compute. Qed.

(** What becomes of a frame queued under back-pressure: ["drain"] only
    clears the flag, the next write goes to the socket, and the queued
    frame waits in the cache until the next [connect] empties it. *)
Lemma queued_frame_stays_in_cache :
  let st := run backpressure_run init in
  (sock_written <$> heap st) = [["a"; "c"]] /\
  messageCache st = ["b"] /\
  messageCache (connect localhost 6005 st) = [].
Proof. by vm_compute. Qed.

(** Number the calls of [write] in a run of a fresh transport, in
    the order they are made, and tag each frame with the number of its
    call.  Whatever the run (calls of [connect] and [write], socket
    events in any order, the client reaching in), the frames written to
    each socket carry strictly increasing numbers, the frames waiting in
    [messageCache] do too, and dropping the tags gives back the run on
    plain strings.  When no [connect] is called while an earlier socket
    is still connecting, the numbers increase across the sockets as
    well. *)
Lemma frames_in_call_order_on_each_socket (tr : list (action string)) :
  let st := run (number_from 0 tr) init in
  Forall (fun s => StronglySorted lt (labels (sock_written s))) (heap st) /\
  StronglySorted lt (labels (messageCache st)) /\
  io_map snd st = run tr init /\
  (well_spaced tr init = true -> StronglySorted lt (labels (all_written st))).
Proof.
  simpl. destruct (run_numbered_ok tr 0 init in_call_order_init) as [n H].
  split_and!; [apply H|apply H| |apply well_spaced_frames_in_call_order].
  by rewrite run_natural, number_from_erase.
Qed.

(** C6 (the code departs from it).  ["drain"] clears the flag and
    leaves the queue alone, and the next [write] goes straight to the
    socket, past the frame that waits.  In the run below two sockets
    are connecting at once (see C1).  The first comes up; [write "a"]
    returns [false]; [write "b"] is queued; the buffer drains;
    [write "c"] is sent on the first socket while ["b"] still waits in
    the cache; then the second socket comes up and its flush sends
    ["b"].  On the wire the frames of calls 0, 2 and 1 leave in that
    order: the frame queued under back-pressure is overtaken by the
    frame of a later call. *)
Theorem C6_queued_frame_is_overtaken_by_later_write :
  let waiting := run (number_from 0 IOTrace.before_second_socket) init in
  let flushed := run (number_from 0 stale_flush) init in
  stale_flush = IOTrace.before_second_socket ++ [Fire 1 SConnect] /\
  IOTrace.written_labels waiting = [[0; 2]; []] /\
  labels (messageCache waiting) = [1] /\
  IOTrace.written_labels flushed = [[0; 2]; [1]] /\
  labels (messageCache flushed) = [] /\
  (sock_written <$> heap (run stale_flush init)) = [["a"; "c"]; ["b"]].
Proof. by vm_compute. Qed.

End IOFacts.

(* ====================================================================== *)
(** * Facts about the client's filters *)
(* ====================================================================== *)

Module ClientFacts.
Import Client Session.

(** ** The request filter *)

Lemma request_filter_rejected now msg c :
  rejected c = true ->
  request_filter now msg c =
  (c, if method_is (req_method msg) "shutdown" then Forward msg else Discard).
Proof.
  intros H. unfold request_filter. rewrite H.
  by destruct (method_is _ _).
Qed.

(** A request the filter turns down is not handed to the transport. *)
Lemma discarded_never_written now ok msg c :
  snd (requestFilter now msg c) = Discard ->
  io (writer_write now ok msg c) = io c.
Proof.
  unfold writer_write. destruct (requestFilter now msg c) as [c1 r] eqn:E.
  simpl. intros ->. unfold requestFilter in E.
  destruct (filters_bound c); [|by inversion E].
  unfold request_filter in E.
  repeat (match type of E with
          | context [if ?b then _ else _] => destruct b
          end); by inversion E.
Qed.

(** C10.  While [rejected] is set the request filter answers a
    ["shutdown"] request with the request itself and every other
    request with [false]; it never touches [sentMessages]; and the
    writer, with this filter in its slot, hands nothing to the transport
    for a request that is not ["shutdown"]. *)
Theorem C10_rejected_client_forwards_only_shutdown
        (now : Z) (ok : bool) (msg : RequestMessage) (c : client) :
  rejected c = true ->
  filters_bound c = true ->
  request_filter now msg c =
    (c, if method_is (req_method msg) "shutdown"
        then Forward msg else Discard) /\
  sentMessages (writer_write now ok msg c) = sentMessages c /\
  (method_is (req_method msg) "shutdown" = false ->
   writer_write now ok msg c = c).
Proof.
  intros Hr Hb. split; [by apply request_filter_rejected|].
  unfold writer_write, requestFilter. rewrite Hb.
  rewrite (request_filter_rejected now msg c Hr).
  destruct (method_is _ _); simpl; [done|]. split; [done|]. done.
Qed.

Lemma C10_witness :
  rejected rejected_client = true /\
  request_filter 0 shutdown_request rejected_client =
    (rejected_client, Forward shutdown_request) /\
  writer_write 0 true hover_request rejected_client = rejected_client.
Proof.
  pose proof (C10_rejected_client_forwards_only_shutdown
                0 true shutdown_request rejected_client
                eq_refl eq_refl) as [H1 _].
  pose proof (C10_rejected_client_forwards_only_shutdown
                0 true hover_request rejected_client
                eq_refl eq_refl) as (_ & _ & H3).
  split; [reflexivity|]. split; [exact H1|]. apply H3. reflexivity.
Defined.

(** C5 (the code departs from it).  A request for ["workspace/symbol"]
    on a client that is not rejected: the filter answers [false] and the
    writer hands nothing to the transport, but the entry for its [id] was
    stored before the method was looked at and is still in
    [sentMessages]. *)
Theorem C5_discarded_request_leaves_entry :
  let c := writer_write 1000 true symbol_request new_client in
  snd (request_filter 1000 symbol_request new_client) = Discard /\
  io c = io new_client /\
  sentMessages c !! IdNum 1 =
    Some {| sent_message := symbol_request; sent_timestamp := 1000 |}.
Proof. by vm_compute. Qed.

(** The same for every client that is not rejected and both methods the
    filter turns down. *)
Lemma unsupported_request_recorded now msg c :
  rejected c = false ->
  method_is (req_method msg) "workspace/didChangeWatchedFiles"
  || method_is (req_method msg) "workspace/symbol" = true ->
  snd (request_filter now msg c) = Discard /\
  sentMessages (fst (request_filter now msg c)) !! req_id msg =
    Some {| sent_message := msg; sent_timestamp := now |}.
Proof.
  intros Hr Hm. unfold request_filter. rewrite Hr.
  apply orb_true_iff in Hm.
  destruct (method_startsWith _ _);
    destruct (method_is (req_method msg) "workspace/didChangeWatchedFiles");
    destruct (method_is (req_method msg) "workspace/symbol");
    simpl; try (by destruct Hm); split; try done;
    unfold say; simpl; by rewrite lookup_insert_eq.
Qed.

(** ** The pending-request table along a run *)

Lemma sentMessages_say lv text c :
  sentMessages (say lv text c) = sentMessages c.
Proof. done. Qed.

Lemma sentMessages_request_filter now msg c :
  sentMessages (fst (request_filter now msg c)) =
  if rejected c then sentMessages c
  else <[req_id msg := {| sent_message := msg; sent_timestamp := now |}]>
         (sentMessages c).
Proof.
  unfold request_filter. destruct (rejected c).
  - by destruct (method_is _ _).
  - repeat break_match; reflexivity.
Qed.

Lemma sentMessages_writer_write now ok msg c :
  sentMessages (writer_write now ok msg c) =
  if filters_bound c && negb (rejected c)
  then <[req_id msg := {| sent_message := msg; sent_timestamp := now |}]>
         (sentMessages c)
  else sentMessages c.
Proof.
  unfold writer_write, requestFilter. destruct (filters_bound c); simpl; [|done].
  pose proof (sentMessages_request_filter now msg c) as H.
  destruct (request_filter now msg c) as [c1 [m|]]; simpl in *;
    rewrite H; by destruct (rejected c).
Qed.

Lemma sentMessages_response_filter now msg c :
  sentMessages (fst (response_filter now msg c)) =
  delete (resp_id msg) (sentMessages c).
Proof.
  unfold response_filter.
  repeat break_match; reflexivity.
Qed.

Lemma sentMessages_check_workspace normalize server dir c :
  sentMessages (check_workspace normalize server dir c) = sentMessages c.
Proof.
  unfold check_workspace. repeat break_match; reflexivity.
Qed.

Lemma sentMessages_step ev c :
  sentMessages (step ev c) =
  match ev with
  | Outgoing now _ msg =>
      if filters_bound c && negb (rejected c)
      then <[req_id msg := {| sent_message := msg; sent_timestamp := now |}]>
             (sentMessages c)
      else sentMessages c
  | Incoming _ msg =>
      if filters_bound c then delete (resp_id msg) (sentMessages c)
      else sentMessages c
  | Reconnect _ _ _ | WorkspaceCheck _ _ _ => sentMessages c
  | Disposal => ∅
  end.
Proof.
  destruct ev; simpl.
  - apply sentMessages_writer_write.
  - unfold responseFilter. destruct (filters_bound c); [|done].
    apply sentMessages_response_filter.
  - unfold connect, emit_status. simpl. reflexivity.
  - apply sentMessages_check_workspace.
  - done.
Qed.

(** An entry for [id] appears only when a request with that [id] goes
    out. *)
Lemma entry_appears_only_on_request id ev c :
  is_request_with id ev = false ->
  has_entry id c = false -> has_entry id (step ev c) = false.
Proof.
  unfold has_entry. rewrite !bool_decide_eq_false, <- !eq_None_not_Some.
  intros Hev Hc. rewrite sentMessages_step. destruct ev; simpl in *.
  - apply bool_decide_eq_false in Hev.
    destruct (_ && _); [by rewrite lookup_insert_ne|done].
  - destruct (filters_bound c); [|done].
    rewrite lookup_delete. by case_decide.
  - done.
  - done.
  - done.
Qed.

(** An entry for [id] goes away only on a response with that [id] or on
    disposal. *)
Lemma entry_leaves_only_on_response_or_disposal id ev c :
  anything_else id ev = true ->
  has_entry id c = true -> has_entry id (step ev c) = true.
Proof.
  unfold has_entry, anything_else. rewrite !bool_decide_eq_true.
  intros Hev [e He]. rewrite sentMessages_step.
  destruct ev; simpl in *; eauto.
  - destruct (_ && _); [|by eauto].
    rewrite lookup_insert. case_decide; eauto.
  - rewrite andb_true_r in Hev.
    apply negb_true_iff, bool_decide_eq_false in Hev.
    destruct (filters_bound c); [|by eauto].
    rewrite lookup_delete_ne; eauto.
  - done.
Qed.

Lemma disposal_empties id c : has_entry id (step Disposal c) = false.
Proof. by apply bool_decide_eq_false; simpl; rewrite lookup_empty; intros [? ?]. Qed.

Lemma recordings_le_sends id tr : forall c, recordings id tr c <= sends id tr.
Proof.
  induction tr as [|ev tr IH]; intros c; simpl; [done|].
  unfold sends in *. simpl. specialize (IH (step ev c)).
  destruct (is_request_with id ev) eqn:E; simpl.
  - destruct (_ && _); simpl; lia.
  - destruct (has_entry id c) eqn:Hc; simpl; [lia|].
    rewrite (entry_appears_only_on_request id ev c E Hc). simpl. lia.
Qed.

Lemma nothing_else_removes id tr : forall c,
  removals (anything_else id) id tr c = 0.
Proof.
  induction tr as [|ev tr IH]; intros c; simpl; [done|].
  rewrite IH. destruct (anything_else id ev) eqn:E; simpl; [|done].
  destruct (has_entry id c) eqn:Hc; simpl; [|done].
  by rewrite (entry_leaves_only_on_response_or_disposal id ev c E Hc).
Qed.

(** Every entry that was there or got recorded was removed or is still
    there. *)
Lemma entries_accounted id tr : forall c,
  removals (is_response_to id) id tr c + removals is_disposal id tr c
  + removals (anything_else id) id tr c + one_if (has_entry id (run tr c))
  = one_if (has_entry id c) + recordings id tr c.
Proof.
  induction tr as [|ev tr IH]; intros c; simpl; [lia|].
  specialize (IH (step ev c)). unfold anything_else in *.
  assert (is_response_to id ev && is_disposal ev = false) as Hx
      by (destruct ev; simpl; by rewrite ?andb_false_r).
  destruct (is_response_to id ev), (is_disposal ev),
    (has_entry id c), (has_entry id (step ev c)); simpl in *; try done; lia.
Qed.

Lemma removals_app who id tr1 tr2 c :
  removals who id (tr1 ++ tr2) c =
  removals who id tr1 c + removals who id tr2 (run tr1 c).
Proof.
  revert c. induction tr1 as [|ev tr1 IH]; intros c; simpl; [done|].
  rewrite IH. lia.
Qed.

Lemma recordings_app id tr1 tr2 c :
  recordings id (tr1 ++ tr2) c =
  recordings id tr1 c + recordings id tr2 (run tr1 c).
Proof.
  revert c. induction tr1 as [|ev tr1 IH]; intros c; simpl; [done|].
  rewrite IH. lia.
Qed.

Lemma run_app tr1 tr2 c : run (tr1 ++ tr2) c = run tr2 (run tr1 c).
Proof. apply fold_left_app. Qed.

(** After [disposeClient] the filters are the identity; until then they
    are the client's own. *)
Lemma filters_bound_request_filter now msg c :
  filters_bound (fst (request_filter now msg c)) = filters_bound c.
Proof.
  unfold request_filter. destruct (rejected c); [by destruct (method_is _ _)|].
  destruct (method_startsWith _ _);
    destruct (method_is _ "workspace/didChangeWatchedFiles"); try done;
    by destruct (method_is _ _).
Qed.

Lemma filters_bound_response_filter now msg c :
  filters_bound (fst (response_filter now msg c)) = filters_bound c.
Proof.
  unfold response_filter. repeat break_match; reflexivity.
Qed.

Lemma filters_bound_step ev c :
  filters_bound (step ev c) =
  match ev with
  | Disposal => false
  | _ => filters_bound c
  end.
Proof.
  destruct ev; simpl; try done.
  - unfold writer_write, requestFilter.
    pose proof (filters_bound_request_filter now msg c) as H.
    destruct (filters_bound c) eqn:E.
    + destruct (request_filter now msg c) as [c1 [m|]]; simpl in *; done.
    + simpl. exact E.
  - unfold responseFilter.
    destruct (filters_bound c) eqn:E; [|simpl; exact E].
    by rewrite filters_bound_response_filter.
  - unfold check_workspace. repeat break_match; reflexivity.
Qed.

(** A client whose filters are gone has an empty table. *)
Lemma unbound_is_empty tr : forall c,
  (filters_bound c = false -> sentMessages c = ∅) ->
  filters_bound (run tr c) = false -> sentMessages (run tr c) = ∅.
Proof.
  induction tr as [|ev tr IH]; intros c Hc; [exact Hc|].
  simpl. apply IH. rewrite filters_bound_step, sentMessages_step.
  destruct ev; try done.
  - intros E. rewrite E. simpl. by apply Hc.
  - intros E. rewrite E. by apply Hc.
Qed.

(** A response with [id] that finds the entry is the one that removes
    it. *)
Lemma response_removes id now msg c :
  resp_id msg = id ->
  (filters_bound c = false -> sentMessages c = ∅) ->
  has_entry id c = true ->
  has_entry id (step (Incoming now msg) c) = false.
Proof.
  intros Hid Hc He. unfold has_entry in *.
  apply bool_decide_eq_true in He. apply bool_decide_eq_false.
  rewrite sentMessages_step. destruct (filters_bound c) eqn:E.
  - rewrite <- Hid, lookup_delete_eq. by intros [? ?].
  - rewrite (Hc eq_refl), lookup_empty in He. by destruct He.
Qed.

(** Where no response with [id] finds the entry, no response removes
    it. *)
Lemma no_response_removes id tr : forall c,
  (forall pre now msg post,
      tr = pre ++ Incoming now msg :: post -> resp_id msg = id ->
      has_entry id (run pre c) = false) ->
  removals (is_response_to id) id tr c = 0.
Proof.
  induction tr as [|ev tr IH]; intros c H; [done|]. simpl.
  rewrite IH.
  - destruct (is_response_to id ev) eqn:E; [|done].
    destruct ev as [|now msg| | |]; try done. simpl in E.
    apply bool_decide_eq_true in E.
    pose proof (H [] now msg tr eq_refl E) as Hc. simpl in Hc.
    by rewrite Hc.
  - intros pre now msg post -> Hid.
    apply (H (ev :: pre) now msg post eq_refl Hid).
Qed.

Lemma removals_cons who id ev rest c :
  removals who id (ev :: rest) c =
  one_if (who ev && has_entry id c && negb (has_entry id (step ev c)))
  + removals who id rest (step ev c).
Proof. done. Qed.

(** C2.  Take any run of a new client in which at most one request
    carries [id] and in which the entry for [id] gets recorded, and let
    the client be disposed at the end.  Then the entry for [id] was
    removed exactly once: by a response with that [id] or by a disposal,
    and by nothing else; and no entry for [id] is left.  Which of the
    two it was is settled by the run: when a response with [id] arrives
    while the entry is there, that response removes it and no disposal
    does; when no response with [id] finds the entry, a disposal removes
    it and no response does. *)
Theorem C2_pending_entry_removed_exactly_once
        (id : msg_id) (tr : list traffic) :
  sends id tr <= 1 ->
  1 <= recordings id tr new_client ->
  let life := tr ++ [Disposal] in
  removals (is_response_to id) id life new_client
  + removals is_disposal id life new_client = 1 /\
  removals (anything_else id) id life new_client = 0 /\
  has_entry id (run life new_client) = false /\
  (forall pre now msg post,
      tr = pre ++ Incoming now msg :: post -> resp_id msg = id ->
      has_entry id (run pre new_client) = true ->
      has_entry id (run (pre ++ [Incoming now msg]) new_client) = false /\
      removals (is_response_to id) id life new_client = 1 /\
      removals is_disposal id life new_client = 0) /\
  ((forall pre now msg post,
       tr = pre ++ Incoming now msg :: post -> resp_id msg = id ->
       has_entry id (run pre new_client) = false) ->
   removals (is_response_to id) id life new_client = 0 /\
   removals is_disposal id life new_client = 1).
Proof.
  intros Hs Hr life.
  pose proof (recordings_le_sends id tr new_client) as Hle.
  pose proof (entries_accounted id life new_client) as Hacc.
  rewrite (nothing_else_removes id life new_client) in Hacc.
  assert (has_entry id (run life new_client) = false) as Hend.
  { unfold life. rewrite run_app. simpl. apply disposal_empties. }
  assert (recordings id life new_client = recordings id tr new_client) as Hrec.
  { unfold life. rewrite recordings_app. simpl.
    rewrite disposal_empties. rewrite andb_false_r. simpl. lia. }
  rewrite Hend, Hrec in Hacc.
  change (has_entry id new_client) with false in Hacc. simpl in Hacc.
  assert (removals (is_response_to id) id life new_client
          + removals is_disposal id life new_client = 1) as Hone by lia.
  split_and!; [exact Hone|apply nothing_else_removes|exact Hend| |].
  - intros pre now msg post Htr Hid He.
    assert (has_entry id (step (Incoming now msg) (run pre new_client))
            = false) as Hgone.
    { apply response_removes; [done| |done].
      by apply (unbound_is_empty pre new_client). }
    split; [by rewrite run_app|].
    assert (1 <= removals (is_response_to id) id life new_client) as Hge.
    { unfold life. rewrite Htr, <- app_assoc, removals_app.
      change ((Incoming now msg :: post) ++ [Disposal])
        with (Incoming now msg :: (post ++ [Disposal])).
      rewrite removals_cons, He, Hgone.
      change (is_response_to id (Incoming now msg))
        with (bool_decide (resp_id msg = id)).
      rewrite bool_decide_eq_true_2 by done. simpl. lia. }
    lia.
  - intros Hno.
    assert (removals (is_response_to id) id life new_client = 0) as Hzero.
    { unfold life. rewrite removals_app. simpl.
      rewrite (no_response_removes id tr new_client Hno). lia. }
    lia.
Qed.

Lemma C2_witness :
  let tr := [Outgoing 0 true hover_request;
             Incoming 5 Scenario.hover_response] in
  sends (IdNum 7) tr <= 1 /\
  1 <= recordings (IdNum 7) tr new_client /\
  has_entry (IdNum 7) (run [Outgoing 0 true hover_request] new_client)
  = true /\
  removals (is_response_to (IdNum 7)) (IdNum 7) (tr ++ [Disposal]) new_client
  = 1 /\
  removals is_disposal (IdNum 7) (tr ++ [Disposal]) new_client = 0.
Proof.
  intros tr.
  assert (sends (IdNum 7) tr <= 1) as Hs by (vm_compute; lia).
  assert (1 <= recordings (IdNum 7) tr new_client) as Hr by (vm_compute; lia).
  assert (has_entry (IdNum 7) (run [Outgoing 0 true hover_request] new_client)
          = true) as He by (by vm_compute).
  split; [exact Hs|]. split; [exact Hr|]. split; [exact He|].
  destruct (C2_pending_entry_removed_exactly_once (IdNum 7) tr Hs Hr)
    as (_ & _ & _ & Hanswered & _).
  exact (proj2 (Hanswered [Outgoing 0 true hover_request] 5%Z
                  Scenario.hover_response [] eq_refl eq_refl He)).
Defined.

(** The entry of a request that was answered is gone before disposal;
    the entry of a request the filter turned down waits for it. *)
Lemma answered_then_disposed :
  let tr := [Outgoing 0 true hover_request;
             Incoming 5 Scenario.hover_response; Disposal] in
  removals (is_response_to (IdNum 7)) (IdNum 7) tr new_client = 1 /\
  removals is_disposal (IdNum 7) tr new_client = 0.
Proof. by vm_compute. Qed.

Lemma discarded_then_disposed :
  let tr := [Outgoing 0 true symbol_request; Disposal] in
  removals (is_response_to (IdNum 1)) (IdNum 1) tr new_client = 0 /\
  removals is_disposal (IdNum 1) tr new_client = 1.
Proof. by vm_compute. Qed.

(** ** send_request *)

(** C4 (the code departs from it).  [send_request] returns the promise
    of [sendRequest] without awaiting it, so its [try] sees only a throw
    made while the call is being set up.  When the call returns a
    promise that rejects, the promise of [send_request] rejects with the
    same reason and nothing is logged. *)
Theorem C4_rejection_passes_through_send_request
        (R : Type) (method params reason : string) (c : client) :
  send_request (R := R) method params
               (fun _ _ => Returns (Rejected reason)) c
  = (c, Rejected reason).
Proof. reflexivity. Qed.

(** The two cases the [try] does cover. *)
Lemma send_request_throw (R : Type) method params reason c :
  send_request (R := R) method params (fun _ _ => Throws reason) c
  = (say LWarn "sending request failed!" c, Fulfilled None).
Proof. reflexivity. Qed.

Lemma send_request_fulfilled (R : Type) method params (v : R) c :
  send_request method params (fun _ _ => Returns (Fulfilled v)) c
  = (c, Fulfilled (Some v)).
Proof. reflexivity. Qed.

End ClientFacts.

(* ====================================================================== *)
(** * Facts about the reader *)
(* ====================================================================== *)

Module ReaderFacts.
Import Reader Scenario.

(** C7 (the code departs from it).  [on_data] starts [processMessages]
    and does not wait for it.  A response to a document-link request
    with a [uid://] target parks the run at
    [await this.io.responseFilter(json)] until the lookup is done; a
    chunk that arrives meanwhile starts a second run, which hands the
    notification to the callback at once.  The response, first to
    arrive, is delivered last. *)
Theorem C7_notification_overtakes_waiting_response :
  let st := client_run 10 notification_behind_slow_response
                       (init asked_for_links) in
  arrivals notification_behind_slow_response =
    [JResponse link_response; JNotification diagnostics] /\
  snd (Client.responseFilter 10 link_response asked_for_links) =
    Client.AwaitsIO ["uid://b1x"] /\
  snd (Client.response_filter_resume (Some lookup_uid) link_response
                                     asked_for_links) =
    Client.Forward link_resolved /\
  delivered st = [JNotification diagnostics; JResponse link_resolved].
Proof. by vm_compute. Qed.

(** A response whose filter settles at once is delivered before
    anything behind it: here a hover response and the same
    notification. *)
Lemma settled_response_keeps_its_place :
  delivered
    (client_run 10
       [Data [JResponse hover_response]; Data [JNotification diagnostics]]
       (init (Client.writer_write 0 true Session.hover_request
                                  Client.new_client)))
  = [JResponse hover_response; JNotification diagnostics].
Proof. by vm_compute. Qed.

End ReaderFacts.

(* ====================================================================== *)
(** * Facts about the connection manager *)
(* ====================================================================== *)

Module ManagerFacts.
Import Manager Scenario.

(** ** Port selection *)

(** A client that has not tried any port picks 6005 whatever the
    manager asks for. *)
Lemma fresh_client_picks_6005 (alt : bool) (p : Z) :
  p = 6005%Z \/ p = 6008%Z ->
  Client.select_port Client.EDITOR alt (-1) p = 6005%Z.
Proof. intros [-> | ->]; by destruct alt. Qed.

(** The client built after a disconnect keeps [port] and nothing else. *)
Lemma replaced_client_forgets_last_port t ok port m :
  tasks m !! t = Some (AwaitDispose port) ->
  Client.lastPortTried (client (dispose_settled t ok m)) = (-1)%Z /\
  Client.port (client (dispose_settled t ok m)) = port.
Proof.
  intros H. unfold dispose_settled. rewrite H.
  destruct ok; simpl; destruct (retry m); simpl;
    destruct (negb (port =? -1)%Z); done.
Qed.

(** [connect] of the transport adds one socket and leaves the ports of
    the others as they are. *)
Lemma ports_after_io_connect host port (st : IO.io string) :
  IO.sock_port <$> IO.heap (IO.connect host port st)
  = (IO.sock_port <$> IO.heap st) ++ [port].
Proof.
  unfold IO.connect.
  assert (forall st1 : IO.io string,
             IO.heap (if (0 <? length (IO.messageCache st1))%nat
                      then IO.set_cache [] st1 else st1) = IO.heap st1) as Hc
      by (intros st1; by destruct (0 <? _)%nat).
  simpl. rewrite fmap_app, Hc. simpl. f_equal.
  destruct (IO.socket st); simpl; [|done].
  apply list_eq. intros j. rewrite !list_lookup_fmap, list_lookup_alter.
  case_decide; [subst|done]. by destruct (IO.heap st !! j).
Qed.

(** A retry on a client that has not tried any port goes to 6005, on
    odd and on even attempts alike. *)
Lemma retry_on_replaced_client e m :
  Client.lastPortTried (client m) = (-1)%Z ->
  Client.port (client m) = (-1)%Z ->
  target m = Client.EDITOR ->
  Client.lsp_serverPort (cfg e) = 6005%Z
  \/ Client.lsp_serverPort (cfg e) = 6008%Z ->
  ports_opened e RetryTimer m = []
  \/ ports_opened e RetryTimer m = [6005%Z].
Proof.
  intros Hl Hp Ht Hc. unfold ports_opened. simpl.
  unfold retry_callback. destruct (retry m).
  2:{ left. rewrite Nat.eqb_refl. by rewrite drop_all. }
  unfold retry_connect_client. destruct (_ && _).
  2:{ left. simpl. rewrite Nat.eqb_refl. unfold ports_tried. simpl.
      apply drop_all. }
  right. unfold client_connect, Client.connect, Client.emit_status.
  cbn -[Client.select_port hear IO.connect drop].
  rewrite Hl, Hp, Ht. cbn -[Client.select_port hear IO.connect drop].
  rewrite (fresh_client_picks_6005 _ _ Hc).
  destruct (Client.events_listeners (client m));
    cbn -[IO.connect drop]; rewrite Nat.eqb_refl;
    unfold ports_tried; cbn -[IO.connect drop];
    change (List.map IO.sock_port ?l) with (IO.sock_port <$> l);
    rewrite ports_after_io_connect; by rewrite drop_app_length.
Qed.

(** On one and the same client the choice does alternate. *)
Lemma same_client_alternates :
  retry_ports editor_env timed_out_four_times new_manager
  = [6005; 6008; 6005; 6008]%Z.
Proof. by vm_compute. Qed.

(** C3 (the code departs from it).  The editor is not running and
    [lsp.serverPort] is 6005: every retry is refused, every refusal makes
    the manager build a new client, and a new client starts from
    [lastPortTried = -1].  All three retries go to 6005. *)
Theorem C3_retries_after_refusal_stay_on_6005 :
  retry_ports editor_env refused_three_times new_manager
  = [6005; 6005; 6005]%Z.
Proof. by vm_compute. Qed.

(** The run behind C1, as the manager produces it: two ticks of the
    retry timer while the first socket is still connecting. *)
Lemma retry_timer_overlaps_connects :
  let m := run editor_env retry_while_connecting new_manager in
  IO.open_sockets (Client.io (client m)) = 2.
Proof. by vm_compute. Qed.

(** ** Tasks parked at an await *)

Lemma tasks_on_client_status_changed s m :
  tasks m `prefix_of` tasks (on_client_status_changed s m).
Proof.
  destruct s; simpl; try done.
  - by apply prefix_app_r.
  - destruct (Client.started _); simpl; [done|by apply prefix_app_r].
Qed.

Lemma tasks_hear heard : forall m, tasks m `prefix_of` tasks (hear heard m).
Proof.
  induction heard as [|s heard IH]; intros m; simpl; [done|].
  etrans; [apply (tasks_on_client_status_changed s)|apply IH].
Qed.

Lemma tasks_client_connect e tgt alt m :
  tasks m `prefix_of` tasks (client_connect e tgt alt m).
Proof.
  unfold client_connect.
  destruct (Client.connect _ _ _ _) as [c heard].
  apply (tasks_hear heard (set_client c m)).
Qed.

Lemma tasks_retry_callback e m :
  tasks m `prefix_of` tasks (retry_callback e m).
Proof.
  unfold retry_callback, retry_connect_client.
  destruct (retry m); [|done].
  destruct (_ && _); simpl; [|done].
  apply (tasks_client_connect e _ _ (set_reconnectionAttempts _ m)).
Qed.

Lemma tasks_connect_to_language_server e p m :
  tasks m `prefix_of` tasks (connect_to_language_server e p m).
Proof.
  unfold connect_to_language_server.
  match goal with
  | |- _ `prefix_of` tasks (client_connect ?e ?t ?a ?m') =>
      etrans; [|apply (tasks_client_connect e t a m')]
  end.
  destruct (Client.lsp_headless _); [destruct p|]; done.
Qed.

Lemma tasks_io_emits ev m : tasks m `prefix_of` tasks (io_emits ev m).
Proof.
  unfold io_emits. destruct (Client.io_listeners _); [|done].
  destruct ev; try done.
  - destruct (Client.on_connected _) as [c heard].
    apply (tasks_hear heard (set_client c m)).
  - destruct (Client.on_disconnected _) as [c heard].
    apply (tasks_hear heard (set_client c m)).
Qed.

Lemma tasks_io_emits_all emitted : forall m,
  tasks m `prefix_of` tasks (fold_left (fun m e => io_emits e m) emitted m).
Proof.
  induction emitted as [|ev emitted IH]; intros m; simpl; [done|].
  etrans; [apply (tasks_io_emits ev)|apply IH].
Qed.

Lemma tasks_socket_event i sev m :
  tasks m `prefix_of` tasks (socket_event i sev m).
Proof.
  unfold socket_event. destruct (IO.fire _ _ _) as [io' emitted].
  apply (tasks_io_emits_all emitted
           (set_client (Client.set_io io' (client m)) m)).
Qed.

Lemma tasks_start_settled t' ok m t :
  t' <> t -> tasks (start_settled t' ok m) !! t = tasks m !! t.
Proof.
  intros Hne. unfold start_settled, waitForCapabilities.
  destruct (tasks m !! t') as [[ | | | | ]|]; try done.
  destruct ok; [|simpl; by rewrite list_lookup_insert_ne].
  destruct (capabilitiesReceived _); simpl; by rewrite list_lookup_insert_ne.
Qed.

Lemma tasks_capabilities_timeout t' m t :
  t' <> t -> tasks (capabilities_timeout t' m) !! t = tasks m !! t.
Proof.
  intros Hne. unfold capabilities_timeout.
  repeat break_match; simpl; try done; by rewrite list_lookup_insert_ne.
Qed.

Lemma tasks_dispose_settled t' ok m t :
  t' <> t -> tasks (dispose_settled t' ok m) !! t = tasks m !! t.
Proof.
  intros Hne. unfold dispose_settled.
  repeat break_match; simpl; try done; by rewrite list_lookup_insert_ne.
Qed.

Lemma tasks_project_dir_settled e t' dir m t :
  t' <> t -> tasks (project_dir_settled e t' dir m) !! t = tasks m !! t.
Proof.
  intros Hne. unfold project_dir_settled.
  repeat break_match; simpl; try done; by rewrite list_lookup_insert_ne.
Qed.

(** The handshake of task [t] stays parked at the wait for capabilities
    through every event but its own timer and the capabilities
    notification. *)
Lemma waiting_stays e ev m t ms :
  tasks m !! t = Some (AwaitCapabilities ms) ->
  leaves_waiting t ev = true ->
  tasks (step e ev m) !! t = Some (AwaitCapabilities ms).
Proof.
  intros Ht Hev. destruct ev as [p| |i sev|t' ok|t'|t' ok|msg|t' dir]; simpl in *.
  - eapply prefix_lookup_Some; [exact Ht|apply tasks_connect_to_language_server].
  - eapply prefix_lookup_Some; [exact Ht|apply tasks_retry_callback].
  - eapply prefix_lookup_Some; [exact Ht|apply tasks_socket_event].
  - destruct (decide (t' = t)) as [->|Hne].
    + unfold start_settled. by rewrite Ht.
    + by rewrite tasks_start_settled.
  - apply negb_true_iff, Nat.eqb_neq in Hev.
    by rewrite tasks_capabilities_timeout.
  - destruct (decide (t' = t)) as [->|Hne].
    + unfold dispose_settled. by rewrite Ht.
    + by rewrite tasks_dispose_settled.
  - apply negb_true_iff in Hev. unfold notification, Client.notification_filter.
    rewrite Hev. simpl. destruct (Client.filters_bound _); [|done].
    destruct (String.eqb (Client.notif_method msg) "gdscript_client/changeWorkspace");
      simpl; [|done].
    by apply lookup_app_l_Some.
  - destruct (decide (t' = t)) as [->|Hne].
    + unfold project_dir_settled. by rewrite Ht.
    + by rewrite tasks_project_dir_settled.
Qed.

Lemma waiting_stays_run e es : forall m t ms,
  tasks m !! t = Some (AwaitCapabilities ms) ->
  forallb (leaves_waiting t) es = true ->
  tasks (run e es m) !! t = Some (AwaitCapabilities ms).
Proof.
  induction es as [|ev es IH]; intros m t ms Ht Hes; simpl in *; [done|].
  apply andb_true_iff in Hes as [Hev Hes].
  apply IH; [|done]. by apply waiting_stays.
Qed.

(** ** The capability handshake *)

(** What the timer of [waitForCapabilities] does when it goes off. *)
Lemma capabilities_timeout_connects t ms m :
  tasks m !! t = Some (AwaitCapabilities ms) ->
  let m' := capabilities_timeout t m in
  status m' = CONNECTED /\
  reconnectionAttempts m' = 0%Z /\
  retry m' = false /\
  connectedToLSP m' = true /\
  last (log m') =
    Some (Client.LWarn, "LSP initialization issue: " +:+ timeout_message ms) /\
  last (signals m') = Some (StatusChanged CONNECTED) /\
  client m' = client m.
Proof.
  intros Ht. unfold capabilities_timeout. rewrite Ht. simpl.
  split_and!; try done; by rewrite last_snoc.
Qed.

(** The client has connected and needs starting: the CONNECTED case
    parks at [start()], and once that is done, at the wait for
    capabilities with its 30000 ms timer. *)
Lemma handshake_waits m :
  Client.started (client m) = false ->
  let t := length (tasks m) in
  let m2 := start_settled t true
              (on_client_status_changed Client.CONNECTED m) in
  tasks m2 !! t = Some (AwaitCapabilities 30000) /\
  status m2 = INITIALIZING_CLIENT.
Proof.
  intros Hs. simpl. rewrite Hs. simpl.
  unfold start_settled, waitForCapabilities. simpl.
  rewrite list_lookup_middle; [|done]. simpl.
  split; [|done].
  apply list_lookup_insert_eq. rewrite length_app. simpl. lia.
Qed.

(** C9.  The client reports CONNECTED and needs starting; [start()]
    succeeds; whatever happens next, as long as it is neither the
    capabilities notification nor the timer itself, the handshake keeps
    waiting; then the 30000 ms timer goes off.  The manager ends up
    CONNECTED with the attempt counter at zero and the retry flag down,
    the last line of its log is the warning, the client (and with it the
    socket) is the one it was, and the next tick of the retry timer does
    nothing. *)
Theorem C9_capabilities_timeout_still_connects
        (e : env) (m : manager) (es : list event) :
  Client.started (client m) = false ->
  forallb (leaves_waiting (length (tasks m))) es = true ->
  let t := length (tasks m) in
  let waiting :=
    run e es (start_settled t true
                (on_client_status_changed Client.CONNECTED m)) in
  let m' := step e (CapabilitiesTimeout t) waiting in
  status m' = CONNECTED /\
  reconnectionAttempts m' = 0%Z /\
  retry m' = false /\
  last (log m') =
    Some (Client.LWarn,
          "LSP initialization issue: LSP capabilities timeout after 30000ms") /\
  client m' = client waiting /\
  step e RetryTimer m' = m'.
Proof.
  intros Hs Hes t waiting m'.
  destruct (handshake_waits m Hs) as [Hw _].
  pose proof (waiting_stays_run e es _ _ _ Hw Hes) as Ht.
  destruct (capabilities_timeout_connects _ _ _ Ht)
    as (H1 & H2 & H3 & H4 & H5 & H6 & H7).
  split_and!; try done.
  assert (retry m' = false) as Hr by exact H3.
  change (retry_callback e m' = m'). unfold retry_callback. by rewrite Hr.
Qed.

Lemma C9_witness :
  Client.started (client new_manager) = false /\
  status (step editor_env (CapabilitiesTimeout 0)
            (run editor_env [RetryTimer; Notification diagnostics]
               (start_settled 0 true
                  (on_client_status_changed Client.CONNECTED new_manager))))
  = CONNECTED.
Proof.
  split; [reflexivity|].
  exact (proj1 (C9_capabilities_timeout_still_connects
                  editor_env new_manager
                  [RetryTimer; Notification diagnostics] eq_refl eq_refl)).
Defined.

(** ** Workspace mismatch *)



End ManagerFacts.

(* ====================================================================== *)
(** * More about the transport *)
(* ====================================================================== *)

Module IOMore.
Import IO IOTrace IOFacts.

(** X1.  The outbox of a transport never holds more than
    [MAX_MESSAGE_CACHE] frames, whatever is done to it. *)
Theorem outbox_never_exceeds_bound (tr : list (action string)) :
  length (messageCache (run tr init)) <= MAX_MESSAGE_CACHE.
Proof. apply cache_bounded. simpl. unfold MAX_MESSAGE_CACHE. lia. Qed.

(** X2.  A frame written while the outbox is full is dropped: the transport
    is left exactly as it was, so the frames kept are the oldest. *)
Theorem write_on_full_outbox_is_dropped
        (m : string) (ok : bool) (st : io string) :
  length (messageCache st) = MAX_MESSAGE_CACHE ->
  socket st = None \/ draining st = true ->
  write m ok st = st.
Proof.
  intros Hfull Hq. unfold write. rewrite Hfull.
  destruct Hq as [-> | ->]; [done|]. by destruct (socket st).
Qed.

Lemma write_on_full_outbox_witness :
  length (messageCache full_outbox) = MAX_MESSAGE_CACHE /\
  write "late" true full_outbox = full_outbox.
Proof.
  assert (length (messageCache full_outbox) = MAX_MESSAGE_CACHE) as H
      by (by vm_compute).
  split; [exact H|].
  apply (write_on_full_outbox_is_dropped "late" true full_outbox H).
  left. reflexivity.
Defined.

(** ** Frames of an earlier session *)

Lemma number_from_app (tr1 tr2 : list (action string)) n :
  number_from n (tr1 ++ tr2)
  = number_from n tr1 ++ number_from (n + writes_in tr1) tr2.
Proof.
  revert n. induction tr1 as [|a tr1 IH]; intros n; simpl.
  - by rewrite Nat.add_0_r.
  - destruct a; simpl; rewrite IH; unfold writes_in; simpl;
      try done. by rewrite Nat.add_succ_r.
Qed.

Lemma io_run_app {Frame : Type} (tr1 tr2 : list (action Frame)) st :
  run (tr1 ++ tr2) st = run tr2 (run tr1 st).
Proof. apply fold_left_app. Qed.

Lemma younger_same c j (st st' : io labelled) :
  heap st' = heap st ->
  (Forall (fun k => c <= k) (labels (messageCache st)) ->
   Forall (fun k => c <= k) (labels (messageCache st'))) ->
  younger_than c j st -> younger_than c j st'.
Proof.
  intros Hh Hc H s Hl. rewrite Hh in Hl. destruct (H s Hl) as [H1 H2].
  split; [done|]. intros Hp. by apply Hc, H2.
Qed.

(** A change to one socket that writes nothing. *)
Lemma younger_quiet c j f i (st : io labelled) :
  quiet f -> younger_than c j st -> younger_than c j (on_heap f i st).
Proof.
  intros Hq H s Hl. simpl in Hl. rewrite list_lookup_alter in Hl.
  case_decide as Hd.
  - subst. destruct (heap st !! j) as [s0|] eqn:E; simpl in Hl; [|done].
    injection Hl as <-. destruct (H s0 E) as [H1 H2].
    destruct (Hq s0) as [Hw Hp]. rewrite Hw. split; [done|].
    intros Hc. by apply H2, Hp.
  - by apply H.
Qed.

Lemma younger_socket_write c j n (m : string) (st : io labelled) :
  c <= n -> younger_than c j st -> younger_than c j (socket_write (n, m) st).
Proof.
  intros Hn H. unfold socket_write. destruct (socket st) as [i|]; [|done].
  intros s Hl. simpl in Hl. rewrite list_lookup_alter in Hl.
  case_decide as Hd.
  - subst. destruct (heap st !! j) as [s0|] eqn:E; simpl in Hl; [|done].
    injection Hl as <-. destruct (H s0 E) as [H1 H2]. simpl.
    split; [|done]. unfold labels. rewrite map_app. apply Forall_app.
    split; [done|]. by repeat constructor.
  - by apply H.
Qed.

Lemma younger_push c j n (m : string) (st : io labelled) :
  c <= n -> younger_than c j st ->
  younger_than c j (set_cache (messageCache st ++ [(n, m)]) st).
Proof.
  intros Hn. apply younger_same; [done|]. simpl. intros Hc.
  unfold labels. rewrite map_app. apply Forall_app.
  split; [done|]. by repeat constructor.
Qed.

Lemma younger_write c j n (m : string) ok (st : io labelled) :
  c <= n -> younger_than c j st -> younger_than c j (write (n, m) ok st).
Proof.
  intros Hn H. unfold write. destruct (socket st).
  - destruct (draining st).
    + destruct (_ <? _)%nat; [by apply younger_push|done].
    + destruct ok; [by apply younger_socket_write|].
      apply (younger_same c j (socket_write (n, m) st)); [done|done|].
      by apply younger_socket_write.
  - destruct (_ <? _)%nat; [by apply younger_push|done].
Qed.

Lemma younger_teardown_current c j (st : io labelled) :
  younger_than c j st ->
  younger_than c j match socket st with
                   | Some i => set_socket None (on_heap torn_down i st)
                   | None => st
                   end.
Proof.
  intros H. destruct (socket st); [|done].
  apply (younger_same c j (on_heap torn_down n st)); [done|done|].
  apply younger_quiet; [|done]. by intros [ ].
Qed.

Lemma younger_connect c j host port (st : io labelled) :
  j < length (heap st) ->
  younger_than c j st -> younger_than c j (connect host port st).
Proof.
  intros Hj H. unfold connect.
  pose proof (younger_teardown_current c j st H) as H1.
  set (st1 := match socket st with Some i => _ | None => _ end) in *.
  assert (length (heap st1) = length (heap st)) as Hlen.
  { subst st1. destruct (socket st); [|done]. simpl. apply length_alter. }
  set (st2 := if (0 <? _)%nat then _ else _).
  assert (heap st2 = heap st1 /\ messageCache st2 = []) as [Hh2 Hc2].
  { subst st2. destruct (messageCache st1) eqn:Ec; simpl; by rewrite ?Ec. }
  intros s Hl. simpl in Hl. rewrite Hh2 in Hl.
  rewrite lookup_app_l in Hl by lia.
  destruct (H1 s Hl) as [Hw _]. split; [done|]. intros _. simpl.
  rewrite Hc2. constructor.
Qed.

Lemma younger_fire c j i e (st : io labelled) :
  younger_than c j st -> younger_than c j (fst (fire i e st)).
Proof.
  intros H. unfold fire. destruct (heap st !! i) as [s|] eqn:Hl; [|done].
  destruct (deliverable e s) eqn:D; [|done].
  assert (quiet (Frame := labelled) (fun s => torn_down (timer_cleared s)))
    as Hq by (by intros [ ]).
  destruct e; unfold on_connect, on_error, on_close, on_connect_timer;
    cbn [fst]; try done.
  - simpl in D. apply andb_true_iff in D as [_ C].
    destruct (sock_phase s) eqn:P; try done.
    rewrite (flush_spec _ _ i); [|done].
    intros s' Hl'. simpl in Hl'. rewrite list_alter_alter_eq in Hl'.
    rewrite list_lookup_alter in Hl'. simpl. case_decide as Hd.
    + subst. rewrite Hl in Hl'. simpl in Hl'. injection Hl' as <-.
      destruct (H s Hl) as [H1 H2]. simpl. split; [|done].
      unfold labels. rewrite map_app. apply Forall_app. split; [done|].
      by apply H2.
    + destruct (H s' Hl') as [H1 _]. split; [done|]. intros _. constructor.
  - apply (younger_same c j (on_heap (fun s => torn_down (timer_cleared s)) i st)).
    + unfold forget_if_current. simpl. destruct (socket st); [|done].
      by destruct (Nat.eqb i n).
    + unfold forget_if_current. simpl. destruct (socket st); [|done].
      by destruct (Nat.eqb i n).
    + by apply younger_quiet.
  - apply (younger_same c j (on_heap (fun s => torn_down (timer_cleared s)) i st)).
    + unfold forget_if_current. simpl. destruct (socket st); [|done].
      by destruct (Nat.eqb i n).
    + unfold forget_if_current. simpl. destruct (socket st); [|done].
      by destruct (Nat.eqb i n).
    + by apply younger_quiet.
  - by apply younger_quiet.
Qed.

Lemma heap_grows {Frame : Type} (a : action Frame) (st : io Frame) :
  length (heap st) <= length (heap (step a st)).
Proof.
  destruct a; simpl.
  - unfold connect. simpl. rewrite length_app. simpl.
    destruct (socket st); simpl; destruct (0 <? _)%nat; simpl;
      rewrite ?length_alter; lia.
  - unfold write, socket_write.
    repeat (match goal with
            | |- context [match ?x with _ => _ end] => destruct x
            end); simpl; rewrite ?length_alter; lia.
  - unfold fire. destruct (heap st !! i); [|done].
    destruct (deliverable e _); [|done].
    destruct e; unfold on_connect, on_error, on_close, on_connect_timer,
      forget_if_current; cbn [fst]; try done;
      try (simpl; destruct (socket st) as [k|];
           [destruct (Nat.eqb i k)|]; simpl; by rewrite length_alter).
    all: try (rewrite (flush_spec _ _ i); [|done]); simpl;
      by rewrite !length_alter.
  - unfold resetAndDestroy. destruct (socket st); [|done].
    simpl. by rewrite length_alter.
  - unfold dispose. destruct (socket st); [|done].
    simpl. by rewrite length_alter.
Qed.

Lemma younger_run c j tr2 : forall n (st : io labelled),
  c <= n -> j < length (heap st) ->
  younger_than c j st ->
  younger_than c j (run (number_from n tr2) st).
Proof.
  induction tr2 as [|a tr2 IH]; intros n st Hn Hj H; simpl; [done|].
  destruct a; simpl.
  - apply (IH n); [done| |by apply younger_connect].
    pose proof (heap_grows (Connect host port) st). simpl in *. lia.
  - apply (IH (S n)); [lia| |by apply younger_write].
    pose proof (heap_grows (Write (n, message) canContinue) st).
    simpl in *. lia.
  - apply (IH n); [done| |by apply younger_fire].
    pose proof (heap_grows (Fire i e) st). simpl in *. lia.
  - apply (IH n); [done| |].
    + pose proof (heap_grows Reset st). simpl in *. lia.
    + unfold resetAndDestroy. destruct (socket st); [|done].
      apply younger_quiet; [|done]. by intros [ ].
  - apply (IH n); [done| |].
    + pose proof (heap_grows Dispose st). simpl in *. lia.
    + unfold dispose.
      apply (younger_same c j
               match socket st with
               | Some i => set_socket None (on_heap torn_down i st)
               | None => st
               end); [done| |by apply younger_teardown_current].
      intros _. constructor.
Qed.

(** X3.  No frame of an earlier session is replayed into a new one.  Take any
    run, any call of [connect] in it, and the socket that call makes:
    whatever happens before and after, every frame that socket is ever
    handed comes from a call of [write] made after that [connect]. *)
Theorem new_socket_gets_no_stale_frame
        (tr1 tr2 : list (action string)) (host : string) (port : Z) :
  let made := length (heap (run (number_from 0 tr1) init)) in
  let st := run (number_from 0 (tr1 ++ Connect host port :: tr2)) init in
  Forall (fun k => writes_in tr1 <= k) (labels (written_to made st)).
Proof.
  intros made st. subst st. rewrite number_from_app, io_run_app. simpl.
  set (before := run (number_from 0 tr1) init) in *.
  assert (length (heap (connect host port before)) = S made) as Hlen.
  { unfold connect. simpl. rewrite length_app. simpl.
    destruct (socket before); simpl; destruct (0 <? _)%nat; simpl;
      rewrite ?length_alter; subst made; lia. }
  assert (younger_than (writes_in tr1) made (connect host port before)) as H0.
  { intros s Hl. unfold connect in Hl. simpl in Hl.
    rewrite lookup_app_r in Hl.
    2:{ destruct (socket before); simpl; destruct (0 <? _)%nat; simpl;
          rewrite ?length_alter; subst made; lia. }
    replace (made - _) with 0 in Hl.
    2:{ destruct (socket before); simpl; destruct (0 <? _)%nat; simpl;
          rewrite ?length_alter; subst made; lia. }
    injection Hl as <-. simpl. split; [constructor|]. intros _.
    unfold connect. simpl.
    match goal with
    | |- context [if ?b then set_cache [] ?x else ?x] =>
        destruct (messageCache x) eqn:Ec; simpl; rewrite ?Ec; constructor
    end. }
  pose proof (younger_run (writes_in tr1) made tr2 (writes_in tr1)
                          (connect host port before)
                          (le_n _) ltac:(lia) H0) as H.
  unfold written_to.
  destruct (heap (run _ (connect host port before)) !! made) as [s|] eqn:E;
    [|constructor].
  apply (H s E).
Qed.

(** ** One socket, one report *)

Section Reports.
Context {Frame : Type}.
Implicit Types (st : io Frame) (s : sock Frame).

(** X4.  The handlers of socket [j] touch no other socket, and, the
    ["connect"] handler apart, they leave [this.socket] alone when it
    holds another socket. *)
Theorem handlers_leave_other_sockets_alone (i j : nat) (e : sock_event) st :
  i <> j ->
  heap (fst (fire j e st)) !! i = heap st !! i /\
  (socket st = Some i -> e <> SConnect ->
   socket (fst (fire j e st)) = Some i).
Proof.
  intros Hne. unfold fire. destruct (heap st !! j) as [s|] eqn:Hl; [|done].
  destruct (deliverable e s); [|done].
  destruct e; unfold on_connect, on_error, on_close, on_connect_timer,
    forget_if_current; cbn [fst]; try done.
  - rewrite (flush_spec _ _ j); [|done]. simpl.
    rewrite !list_lookup_alter_ne by done. done.
  - simpl. destruct (socket st) as [k|] eqn:Hs.
    + destruct (Nat.eqb j k) eqn:Ek; simpl;
        rewrite list_lookup_alter_ne by done; (split; [done|]);
        intros [= ->]; [|done].
      apply Nat.eqb_eq in Ek. congruence.
    + simpl. by rewrite list_lookup_alter_ne.
  - simpl. destruct (socket st) as [k|] eqn:Hs.
    + destruct (Nat.eqb j k) eqn:Ek; simpl;
        rewrite list_lookup_alter_ne by done; (split; [done|]);
        intros [= ->]; [|done].
      apply Nat.eqb_eq in Ek. congruence.
    + simpl. by rewrite list_lookup_alter_ne.
  - simpl. by rewrite list_lookup_alter_ne.
Qed.

Lemma calmer_refl s : calmer s s.
Proof. by split. Qed.

Lemma heap_calmer_refl st : heap_calmer st st.
Proof. intros j s H. exists s. split; [done|apply calmer_refl]. Qed.

Lemma heap_calmer_trans st1 st2 st3 :
  heap_calmer st1 st2 -> heap_calmer st2 st3 -> heap_calmer st1 st3.
Proof.
  intros H1 H2 j s Hl. destruct (H1 j s Hl) as (s2 & Hl2 & [A1 A2]).
  destruct (H2 j s2 Hl2) as (s3 & Hl3 & [B1 B2]).
  exists s3. split; [done|]. split; auto.
Qed.

Lemma heap_calmer_same st st' : heap st' = heap st -> heap_calmer st st'.
Proof. intros Hh j s H. rewrite Hh. exists s. split; [done|apply calmer_refl]. Qed.

Lemma heap_calmer_on_heap (f : sock Frame -> sock Frame) i st :
  (forall s, calmer s (f s)) -> heap_calmer st (on_heap f i st).
Proof.
  intros Hf j s Hl. simpl. rewrite list_lookup_alter. case_decide.
  - subst. rewrite Hl. simpl. eauto.
  - exists s. split; [done|apply calmer_refl].
Qed.

Lemma heap_calmer_teardown_current st :
  heap_calmer st match socket st with
                 | Some i => set_socket None (on_heap torn_down i st)
                 | None => st
                 end.
Proof.
  destruct (socket st); [|apply heap_calmer_refl].
  eapply heap_calmer_trans; [apply (heap_calmer_on_heap torn_down n)|].
  - by intros [ ].
  - by apply heap_calmer_same.
Qed.

Lemma heap_calmer_step a st : heap_calmer st (step a st).
Proof.
  destruct a; simpl.
  - eapply heap_calmer_trans; [apply heap_calmer_teardown_current|].
    unfold connect.
    set (st1 := match socket st with Some i => _ | None => _ end).
    intros j s Hl. exists s. split; [|apply calmer_refl]. simpl.
    apply lookup_app_l_Some. by destruct (0 <? _)%nat.
  - unfold write, socket_write.
    destruct (socket st) as [i|]; [destruct (draining st)|];
      try destruct (_ <? _)%nat; try destruct canContinue;
      try apply heap_calmer_refl; try (by apply heap_calmer_same).
    + apply heap_calmer_on_heap. by intros [ ].
    + eapply heap_calmer_trans;
        [apply (heap_calmer_on_heap (wrote message) i); by intros [ ]|].
      by apply heap_calmer_same.
  - unfold fire. destruct (heap st !! i) as [s|] eqn:Hl;
      [|apply heap_calmer_refl].
    destruct (deliverable e s); [|apply heap_calmer_refl].
    destruct e; unfold on_connect, on_error, on_close, on_connect_timer;
      cbn [fst]; try apply heap_calmer_refl; try (by apply heap_calmer_same).
    + rewrite (flush_spec _ _ i); [|done].
      eapply heap_calmer_trans;
        [apply (heap_calmer_on_heap
                  (fun s => established (timer_cleared s)) i);
         by intros [ ]|].
      eapply heap_calmer_trans;
        [|apply (heap_calmer_same
                   (on_heap (wrote_all (messageCache st)) i
                      (set_socket (Some i)
                         (on_heap (fun s => established (timer_cleared s))
                                  i st)))); done].
      eapply heap_calmer_trans;
        [apply (heap_calmer_same _ (set_socket (Some i)
                  (on_heap (fun s => established (timer_cleared s)) i st)));
         done|].
      apply heap_calmer_on_heap. by intros [ ].
    + eapply heap_calmer_trans;
        [apply (heap_calmer_on_heap
                  (fun s => torn_down (timer_cleared s)) i); by intros [ ]|].
      apply heap_calmer_same. unfold forget_if_current. simpl.
      destruct (socket st); [|done]. by destruct (Nat.eqb i n).
    + eapply heap_calmer_trans;
        [apply (heap_calmer_on_heap
                  (fun s => torn_down (timer_cleared s)) i); by intros [ ]|].
      apply heap_calmer_same. unfold forget_if_current. simpl.
      destruct (socket st); [|done]. by destruct (Nat.eqb i n).
    + apply heap_calmer_on_heap. by intros [ ].
  - unfold resetAndDestroy. destruct (socket st); [|apply heap_calmer_refl].
    apply heap_calmer_on_heap. by intros [ ].
  - unfold dispose.
    eapply heap_calmer_trans; [apply heap_calmer_teardown_current|].
    by apply heap_calmer_same.
Qed.

Lemma settled_keep j log st st' :
  heap_calmer st st' -> settled_for j log st -> settled_for j log st'.
Proof.
  intros Hc [H1 H2 H3 H4]. split; [done|done| |].
  - intros Hn. destruct (H3 Hn) as (s & Hl & Hp).
    destruct (Hc j s Hl) as (s' & Hl' & [A _]). eauto.
  - intros Hn. destruct (H4 Hn) as (s & Hl & Hp).
    destruct (Hc j s Hl) as (s' & Hl' & [_ A]). eauto.
Qed.

Lemma filter_other_socket (P : nat -> nat * io_event -> bool) i j
      (evs : list io_event) :
  (forall x, P j x = true -> fst x = j) -> i <> j ->
  List.filter (P j) (List.map (fun ev => (i, ev)) evs) = [].
Proof.
  intros HP Hne. induction evs as [|ev evs IH]; [done|]. simpl.
  destruct (P j (i, ev)) eqn:E; [|done].
  apply HP in E. simpl in E. congruence.
Qed.

Lemma connected_by_self (j : nat) :
  List.filter (is_connected_by j) [(j, EvConnected)] = [(j, EvConnected)].
Proof. unfold is_connected_by. simpl. by rewrite Nat.eqb_refl. Qed.

Lemma connected_by_disconnected (j : nat) :
  List.filter (is_connected_by j) [(j, EvDisconnected)] = [].
Proof. unfold is_connected_by. simpl. by rewrite andb_false_r. Qed.

Lemma connected_by_data (j : nat) (d : string) :
  List.filter (is_connected_by j) [(j, EvData d)] = [].
Proof. unfold is_connected_by. simpl. by rewrite andb_false_r. Qed.

Lemma disconnected_by_self (j : nat) :
  List.filter (is_disconnected_by j) [(j, EvDisconnected)] =
  [(j, EvDisconnected)].
Proof. unfold is_disconnected_by. simpl. by rewrite Nat.eqb_refl. Qed.

Lemma disconnected_by_connected (j : nat) :
  List.filter (is_disconnected_by j) [(j, EvConnected)] = [].
Proof. unfold is_disconnected_by. simpl. by rewrite andb_false_r. Qed.

Lemma disconnected_by_data (j : nat) (d : string) :
  List.filter (is_disconnected_by j) [(j, EvData d)] = [].
Proof. unfold is_disconnected_by. simpl. by rewrite andb_false_r. Qed.

Ltac count_reports :=
  rewrite List.filter_app, length_app; cbn [List.map];
  rewrite ?connected_by_self, ?connected_by_disconnected, ?connected_by_data,
    ?disconnected_by_self, ?disconnected_by_connected, ?disconnected_by_data;
  cbn [length]; rewrite ?Nat.add_0_r.

Lemma settled_fire j i e log st :
  settled_for j log st ->
  settled_for j (log ++ List.map (fun ev => (i, ev)) (snd (fire i e st)))
              (fst (fire i e st)).
Proof.
  intros H.
  pose proof (heap_calmer_step (Fire i e) st) as Hc. simpl in Hc.
  destruct (decide (i = j)) as [->|Hne].
  2:{ pose proof (settled_keep j log _ _ Hc H) as [H1 H2 H3 H4].
      split; rewrite List.filter_app, length_app;
        rewrite filter_other_socket; simpl; rewrite ?Nat.add_0_r;
        try done;
        intros [a b]; unfold is_connected_by, is_disconnected_by; simpl;
        intros [E _]%andb_true_iff; by apply Nat.eqb_eq in E. }
  revert Hc. unfold fire.
  destruct (heap st !! j) as [s|] eqn:Hl.
  2:{ intros _. simpl. by rewrite app_nil_r. }
  destruct (deliverable e s) eqn:D.
  2:{ intros _. simpl. by rewrite app_nil_r. }
  assert (sock_listeners s = true ->
          length (List.filter (is_disconnected_by j) log) = 0) as Hd.
  { intros L.
    destruct (length (List.filter (is_disconnected_by j) log)) eqn:E; [done|].
    destruct H as [_ _ _ H4].
    destruct (H4 ltac:(lia)) as (s' & Hl' & Hp). congruence. }
  assert (sock_phase s = Connecting ->
          length (List.filter (is_connected_by j) log) = 0) as Hk.
  { intros L.
    destruct (length (List.filter (is_connected_by j) log)) eqn:E; [done|].
    destruct H as [_ _ H3 _].
    destruct (H3 ltac:(lia)) as (s' & Hl' & Hp). congruence. }
  intros Hc. pose proof (settled_keep j log _ _ Hc H) as [K1 K2 K3 K4].
  destruct H as [H1 H2 H3 H4].
  destruct e; unfold on_connect, on_error, on_close, on_connect_timer in *;
    cbn [fst snd] in *; simpl in D.
  - apply andb_true_iff in D as [L C].
    destruct (sock_phase s) eqn:P; try done.
    specialize (Hk eq_refl). specialize (Hd L).
    destruct (Hc j s Hl) as (s' & Hl' & _).
    split; count_reports; try lia; try done.
    intros _. revert Hl'. rewrite (flush_spec _ _ j); [|done]. simpl.
    rewrite list_alter_alter_eq, list_lookup_alter_eq, Hl. simpl.
    intros [= <-]. eexists. split; [done|]. done.
  - rewrite app_nil_r. by split.
  - split; count_reports; done.
  - rewrite app_nil_r. by split.
  - specialize (Hd D).
    split; count_reports; try lia; try done.
    intros _. unfold forget_if_current. simpl.
    exists (torn_down (timer_cleared s)). split; [|done].
    destruct (socket st) as [k|]; [destruct (Nat.eqb j k)|]; simpl;
      by rewrite list_lookup_alter_eq, Hl.
  - specialize (Hd D).
    split; count_reports; try lia; try done.
    intros _. unfold forget_if_current. simpl.
    exists (torn_down (timer_cleared s)). split; [|done].
    destruct (socket st) as [k|]; [destruct (Nat.eqb j k)|]; simpl;
      by rewrite list_lookup_alter_eq, Hl.
  - rewrite app_nil_r. by split.
Qed.

Lemma settled_run j tr : forall log st,
  settled_for j log st ->
  settled_for j (log ++ emissions tr st) (run tr st).
Proof.
  induction tr as [|a tr IH]; intros log st H; simpl.
  - by rewrite app_nil_r.
  - rewrite app_assoc. apply IH. destruct a; simpl;
      try (rewrite app_nil_r;
           eapply settled_keep; [|exact H];
           match goal with
           | |- heap_calmer _ ?x =>
               first [ apply (heap_calmer_step (Connect host port))
                     | apply (heap_calmer_step (Write message canContinue))
                     | apply (heap_calmer_step Reset)
                     | apply (heap_calmer_step Dispose) ]
           end).
    by apply settled_fire.
Qed.

(** X5.  In any run of a fresh transport, each socket makes the transport
    emit ["connected"] at most once and ["disconnected"] at most once:
    an error followed by a close, or a close after a timeout, is not
    reported twice. *)
Theorem each_socket_reports_once (tr : list (action Frame)) (j : nat) :
  length (List.filter (is_connected_by j) (emissions tr init)) <= 1 /\
  length (List.filter (is_disconnected_by j) (emissions tr init)) <= 1.
Proof.
  assert (settled_for j [] (init (Frame := Frame))) as H0.
  { split; simpl; try lia. }
  pose proof (settled_run j tr [] init H0) as [H1 H2 _ _].
  simpl in *. done.
Qed.

End Reports.

(** Each of two sockets that come up is reported, and an error followed
    by the close of the same socket is reported once. *)
Lemma reports_of_two_runs :
  emissions overlapping_connects init = [(0, EvConnected); (1, EvConnected)] /\
  emissions (Frame := string)
            [Connect localhost 6005; Fire 0 SError; Fire 0 SClose] init
  = [(0, EvDisconnected)].
Proof. by vm_compute. Qed.

(** The frame written before [connect] is not among those the new
    socket gets; the one written after it is. *)
Lemma late_frame_reaches_new_socket :
  labels (written_to 0
            (run (number_from 0
                    ([Write "old" true] ++
                     Connect localhost 6005 ::
                     [Write "new" true; Fire 0 SConnect])) init))
  = [1].
Proof. by vm_compute. Qed.

Lemma handlers_leave_other_sockets_witness :
  heap (fst (fire 1 SError (run two_connects init))) !! 0
  = heap (run two_connects init) !! 0.
Proof.
  apply (handlers_leave_other_sockets_alone 0 1 SError
           (run two_connects init)).
  lia.
Defined.

Lemma one_socket_witness :
  well_spaced one_after_the_other init = true /\
  length (heap (run one_after_the_other init)) = 2 /\
  open_sockets (run one_after_the_other init) <= 1.
Proof.
  split; [reflexivity|]. split; [reflexivity|].
  exact (proj1 (well_spaced_one_socket one_after_the_other eq_refl)).
Defined.

End IOMore.

(* ====================================================================== *)
(** * More about the client *)
(* ====================================================================== *)

Module ClientMore.
Import Client Session Wire ClientFacts.

Lemma client_eta (c : client) : set_sentMessages (sentMessages c) c = c.
Proof. by destruct c. Qed.

(** ** disposeClient *)

Lemma dispose_again {Frame : Type} (st : IO.io Frame) :
  IO.dispose (IO.dispose st) = IO.dispose st.
Proof.
  unfold IO.dispose. destruct (IO.socket st) eqn:E; simpl; by rewrite ?E.
Qed.

(** X7.  Disposing a client a second time changes nothing: the table is
    already empty, the listeners and filters already gone, the transport
    already without socket and without queued frames. *)
Theorem disposeClient_twice_is_once (c : client) :
  disposeClient (disposeClient c) = disposeClient c.
Proof.
  unfold disposeClient. cbn -[IO.dispose]. by rewrite dispose_again.
Qed.

Lemma dispose_leaves_nothing {Frame : Type} (st : IO.io Frame) :
  IO.socket (IO.dispose st) = None /\ IO.messageCache (IO.dispose st) = [].
Proof. unfold IO.dispose. by destruct (IO.socket st) eqn:E. Qed.

Lemma writer_write_unbound now ok msg c :
  filters_bound c = false ->
  writer_write now ok msg c = set_io (IO.write (frame msg) ok (io c)) c.
Proof. intros H. unfold writer_write, requestFilter. by rewrite H. Qed.

(** X8.  A request written through a disposed client meets the identity
    filter: it is not recorded in the table and not dropped, whatever
    its method and whether or not the client had been rejected, and its
    frame is queued in the outbox, since there is no socket. *)
Theorem disposed_client_queues_unfiltered
        (now : Z) (ok : bool) (msg : RequestMessage) (c : client) :
  let c' := writer_write now ok msg (disposeClient c) in
  sentMessages c' = ∅ /\
  IO.socket (io c') = None /\
  IO.messageCache (io c') = [frame msg].
Proof.
  intros c'. subst c'.
  rewrite writer_write_unbound by done.
  destruct (dispose_leaves_nothing (io c)) as [Hs Hc].
  change (io (disposeClient c)) with (IO.dispose (io c)).
  split; [done|]. cbn [io set_io]. unfold IO.write. rewrite Hs, Hc. done.
Qed.

(** ** Responses *)

(** X9.  A response whose id is not in the table (a reply to nothing
    this client recorded) is handed on as it came, and the client is
    left exactly as it was. *)
Theorem unknown_response_passes_untouched
        (now : Z) (m : ResponseMessage) (c : client) :
  sentMessages c !! resp_id m = None ->
  response_filter now m c = (c, Settled (Forward m)).
Proof.
  intros H. unfold response_filter. rewrite H. simpl.
  rewrite delete_id by done. by rewrite client_eta.
Qed.

Lemma unknown_response_witness :
  sentMessages new_client !! resp_id Scenario.hover_response = None /\
  response_filter 5 Scenario.hover_response new_client
  = (new_client, Settled (Forward Scenario.hover_response)).
Proof.
  split; [reflexivity|].
  apply unknown_response_passes_untouched. reflexivity.
Defined.

(** X10.  Sending a request and receiving the response with its id
    brings the table back to what it was, if the id was not already in
    flight and the client is not rejected. *)
Theorem request_then_response_restores_table
        (now now' : Z) (msg : RequestMessage) (r : ResponseMessage)
        (c : client) :
  rejected c = false ->
  sentMessages c !! req_id msg = None ->
  resp_id r = req_id msg ->
  sentMessages (fst (response_filter now' r (fst (request_filter now msg c))))
  = sentMessages c.
Proof.
  intros Hr Hn Hid.
  rewrite sentMessages_response_filter, sentMessages_request_filter, Hr, Hid.
  by rewrite delete_insert_id.
Qed.

Lemma request_then_response_witness :
  sentMessages
    (fst (response_filter 5 Scenario.hover_response
            (fst (request_filter 0 hover_request new_client))))
  = sentMessages new_client.
Proof.
  apply request_then_response_restores_table; reflexivity.
Defined.

(** X11.  The response filter never answers [false] and never changes
    the id: whenever it settles, before the UID lookup or after it,
    however the lookup ends (also when it stops half-way because a path
    could not be found), it hands on a message with the id of the
    message it was given. *)
Theorem response_filter_forwards_same_id
        (now : Z) (m : ResponseMessage) (c : client) :
  (forall r, snd (response_filter now m c) = Settled r ->
             exists m', r = Forward m' /\ resp_id m' = resp_id m) /\
  (forall l,
      exists m', snd (response_filter_settle l m c) = Forward m' /\
                 resp_id m' = resp_id m) /\
  (forall resolved,
      exists m', snd (response_filter_resume resolved m c) = Forward m' /\
                 resp_id m' = resp_id m).
Proof.
  assert (forall l,
             exists m', snd (response_filter_settle l m c) = Forward m' /\
                        resp_id m' = resp_id m) as Hsettle.
  { intros [|found]; simpl; [eauto|].
    destruct (resp_result m) as [| |links| | |]; eauto.
    destruct (rewrite_links found links) as [links' threw]. simpl. eauto. }
  split_and!.
  - intros r. unfold response_filter.
    repeat break_match; simpl; intros [= <-]; eauto.
  - exact Hsettle.
  - intros resolved. apply Hsettle.
Qed.

Lemma rewrite_links_all_paths
      (f : string -> option (string * option string))
      (links : list DocumentLinkResult) :
  rewrite_links (all_paths f) links
  = (List.map (apply_resolved f) links, false).
Proof.
  induction links as [|r links IH]; [done|].
  simpl. rewrite IH.
  unfold rewrite_link, apply_resolved, all_paths.
  destruct (is_uid (link_target r)); [|done].
  by destruct (f (link_target r)) as [[fileUri resourcePath]|].
Qed.

(** X12.  After the UID lookup the list of links has the same length,
    and a link that is not a UID, or whose UID the lookup does not know,
    stays where it was, as it was. *)
Theorem resolved_links_keep_their_places
        (f : string -> option (string * option string))
        (m : ResponseMessage) (c : client) (links : list DocumentLinkResult) :
  resp_result m = RLinks links ->
  exists links',
    response_filter_resume (Some f) m c
    = (c, Forward {| resp_id := resp_id m; resp_result := RLinks links' |}) /\
    length links' = length links /\
    forall i r, links !! i = Some r ->
                is_uid (link_target r) = false \/ f (link_target r) = None ->
                links' !! i = Some r.
Proof.
  intros H. exists (List.map (apply_resolved f) links).
  unfold response_filter_resume, response_filter_settle.
  rewrite H, rewrite_links_all_paths. split; [done|].
  split; [apply length_map|].
  intros i r Hl Hr.
  change (List.map ?g ?l) with (g <$> l). rewrite list_lookup_fmap, Hl. simpl.
  f_equal. unfold apply_resolved. destruct Hr as [-> | Hr]; [done|].
  rewrite Hr. by destruct (is_uid _).
Qed.

(** When the path of a file cannot be found half-way through the
    links, the links before it stay rewritten, the others stay as they
    were, and the warning is logged. *)
Lemma links_before_a_throw_stay_resolved :
  response_filter_settle (LookupGives second_path_throws) two_uids new_client
  = (say LWarn "Failed to resolve UIDs:" new_client,
     Forward
       {| resp_id := IdNum 3;
          resp_result :=
            RLinks [{| link_target := "file:///p/a.gd";
                       link_tooltip := Some "res://a.gd" |};
                    {| link_target := "uid://b"; link_tooltip := None |}] |}).
Proof. reflexivity. Qed.

(** A hover result whose contents is a plain string or an array has no
    [contents.value]: it is handed on as it came.  So is a document-link
    result that is null or falsy. *)
Lemma results_without_work_are_forwarded
      (now : Z) (m : ResponseMessage) (e : sent) (c : client) :
  sentMessages c !! resp_id m = Some e ->
  (req_method (sent_message e) = Some "textDocument/hover" /\
   exists raw, resp_result m = RHoverPlain raw) \/
  (req_method (sent_message e) = Some "textDocument/documentLink" /\
   (resp_result m = RNull \/ exists raw, resp_result m = RFalsy raw)) ->
  snd (response_filter now m c) = Settled (Forward m).
Proof.
  intros He H. unfold response_filter. rewrite He. simpl.
  destruct H as [[Hm [raw Hr]]|[Hm [Hr|[raw Hr]]]];
    rewrite Hm; simpl; by rewrite Hr.
Qed.

Lemma resolved_links_witness :
  exists links',
    response_filter_resume (Some Scenario.lookup_uid) mixed_links new_client
    = (new_client,
       Forward {| resp_id := IdNum 3; resp_result := RLinks links' |}) /\
    length links' = 2 /\
    links' !! 1 =
      Some {| link_target := "res://b.gd"; link_tooltip := None |}.
Proof.
  destruct (resolved_links_keep_their_places
              Scenario.lookup_uid mixed_links new_client _ eq_refl)
    as (links' & H1 & H2 & H3).
  exists links'. split; [exact H1|]. split; [exact H2|].
  apply (H3 1); [reflexivity|]. left. reflexivity.
Defined.

(** ** connect *)

Lemma io_connect_leaves {Frame : Type} (host : string) (port : Z)
      (st : IO.io Frame) :
  IO.socket (IO.connect host port st) = None /\
  IO.messageCache (IO.connect host port st) = [] /\
  last (IO.heap (IO.connect host port st)) = Some (IO.new_sock host port).
Proof.
  unfold IO.connect.
  set (st1 := match IO.socket st with Some i => _ | None => _ end).
  assert (IO.socket st1 = None) as H1
      by (subst st1; by destruct (IO.socket st) eqn:E).
  destruct (0 <? length (IO.messageCache st1))%nat eqn:E; simpl;
    rewrite last_snoc; split_and!; try done.
  apply Nat.ltb_ge in E. destruct (IO.messageCache st1); [done|].
  simpl in E. lia.
Qed.

(** X13.  Whatever the client went through before, [connect] leaves it
    not rejected and PENDING, with no current socket and an empty
    outbox; the one socket it adds goes to the host of the settings and
    to the port then found in [lastPortTried].  The table of pending
    requests is not touched. *)
Theorem connect_starts_clean
        (cfg : config) (tgt : TargetLSP) (alt : bool) (c : client) :
  let c' := fst (connect cfg tgt alt c) in
  rejected c' = false /\
  _status c' = PENDING /\
  IO.socket (io c') = None /\
  IO.messageCache (io c') = [] /\
  last (IO.heap (io c')) =
    Some (IO.new_sock (lsp_serverHost cfg) (lastPortTried c')) /\
  sentMessages c' = sentMessages c.
Proof.
  unfold connect, emit_status.
  cbn -[select_port IO.connect].
  pose proof (io_connect_leaves (Frame := string) (lsp_serverHost cfg)) as H.
  split_and!; try done; apply H.
Qed.

(** X14.  With the editor as target and a port of the default pair,
    two connects of one client, the second asking for the alternate
    port, go to the two different ports of the pair. *)
Theorem second_connect_takes_the_other_port
        (cfg : config) (alt : bool) (c : client) :
  in_default_pair (configured_port cfg c) ->
  let c1 := fst (connect cfg EDITOR alt c) in
  let c2 := fst (connect cfg EDITOR true c1) in
  in_default_pair (lastPortTried c1) /\
  in_default_pair (lastPortTried c2) /\
  lastPortTried c2 <> lastPortTried c1.
Proof.
  unfold in_default_pair, configured_port, connect, emit_status.
  cbn -[IO.connect]. intros H.
  destruct (port c =? -1)%Z;
    destruct H as [-> | ->]; simpl;
    destruct alt; simpl;
    repeat match goal with
           | |- context [(?a =? ?b)%Z] => destruct (a =? b)%Z; simpl
           end; split_and!; auto; lia.
Qed.

Lemma second_connect_witness :
  in_default_pair (configured_port Scenario.editor_cfg new_client) /\
  lastPortTried (fst (connect Scenario.editor_cfg EDITOR false new_client))
  = 6005%Z /\
  in_default_pair
    (lastPortTried
       (fst (connect Scenario.editor_cfg EDITOR true
               (fst (connect Scenario.editor_cfg EDITOR false new_client))))).
Proof.
  split; [left; reflexivity|]. split; [reflexivity|].
  apply (second_connect_takes_the_other_port
           Scenario.editor_cfg false new_client).
  left. reflexivity.
Defined.

(** A port outside the default pair, and any port of a headless
    server, is used as it is, whether or not the alternate port was
    asked for. *)
Theorem connect_keeps_other_ports
        (cfg : config) (tgt : TargetLSP) (alt : bool) (c : client) :
  tgt = HEADLESS \/ ~ in_default_pair (configured_port cfg c) ->
  lastPortTried (fst (connect cfg tgt alt c)) = configured_port cfg c.
Proof.
  unfold in_default_pair, configured_port, connect, emit_status.
  cbn -[IO.connect]. intros [-> | H]; [done|].
  destruct tgt; [done|]. simpl.
  destruct (_ =? 6005)%Z eqn:E1; [apply Z.eqb_eq in E1; tauto|].
  destruct (_ =? 6008)%Z eqn:E2; [apply Z.eqb_eq in E2; tauto|].
  done.
Qed.

(** A reconnect clears a rejection: if the transport reports
    ["disconnected"] to a client after [connect], the client goes to
    DISCONNECTED and says so to its listeners, also when it had been
    rejected for a wrong workspace before. *)
Theorem reconnect_clears_rejection
        (cfg : config) (tgt : TargetLSP) (alt : bool) (c : client) :
  let '(c', heard) := on_disconnected (fst (connect cfg tgt alt c)) in
  _status c' = DISCONNECTED /\
  heard = (if events_listeners c then [DISCONNECTED] else []).
Proof. done. Qed.

(** ** check_workspace *)

(** X15.  [check_workspace] marks the client rejected only when the
    server named a path whose normal form differs from that of the
    project directory while the transport had a current socket. *)
Theorem rejected_only_on_mismatch
        (normalize : string -> string) (server : option string)
        (dir : string) (c : client) :
  rejected (check_workspace normalize server dir c) = true ->
  rejected c = true \/
  exists p, server = Some p /\ normalize p <> normalize dir /\
            is_Some (IO.socket (io c)).
Proof.
  unfold check_workspace, IO.resetAndDestroy.
  destruct server as [p|]; [|by left].
  destruct (String.eqb _ _) eqn:E; [by left|].
  apply String.eqb_neq in E.
  change (io (say LWarn "Connected LSP is a different workspace" c))
    with (io c).
  destruct (IO.socket (io c)) eqn:Hs; simpl; [|by left].
  intros _. right. exists p. eauto.
Qed.

Lemma rejected_only_on_mismatch_witness :
  rejected connected_client = true \/
  exists p, Some "/a" = Some p /\ p <> "/b" /\
            is_Some (IO.socket (io connected_client)).
Proof.
  apply (rejected_only_on_mismatch (fun p => p) (Some "/a") "/b"
           connected_client).
  reflexivity.
Defined.

End ClientMore.

(* ====================================================================== *)
(** * More about the reader *)
(* ====================================================================== *)

Module ReaderMore.
Import Reader ReaderTrace.

Section AnyFilters.
Context {S : Type}.
Variable rf : Client.ResponseMessage -> S -> S * Client.filter_step.
Variable nf : Client.NotificationMessage -> S ->
              S * Client.filtered Client.NotificationMessage.
Implicit Types (st : reader S) (pending : list json).

Lemma drop_head (pre : list json) n msg rest :
  drop n pre = msg :: rest ->
  pre !! n = Some msg /\ rest = drop (Datatypes.S n) pre /\ n < length pre.
Proof.
  intros H.
  assert (pre !! n = Some msg) as Hl.
  { pose proof (lookup_drop pre n 0) as E. rewrite H, Nat.add_0_r in E.
    by rewrite <- E. }
  split; [done|]. split; [|by eapply lookup_lt_Some].
  rewrite (drop_S _ _ _ Hl) in H. by injection H.
Qed.

Lemma live_snoc (p : list (option nat)) (k : nat) :
  live (p ++ [Some k]) = live p ++ [k].
Proof. unfold live. by rewrite omap_app. Qed.

Lemma live_resumed (p : list (option nat)) : forall w k,
  p !! w = Some (Some k) -> live p ≡ₚ k :: live (<[w := None]> p).
Proof.
  induction p as [|x p IH]; intros w k H; [done|].
  destruct w as [|w]; simpl in *.
  - injection H as ->. done.
  - unfold live in *. simpl. destruct x as [j|]; simpl.
    + rewrite (IH w k H). apply perm_swap.
    + by apply IH.
Qed.

Lemma parked_more pre more w o :
  parked_at rf pre w o -> parked_at rf (pre ++ more) w o.
Proof.
  destruct w as [m|], o as [k|]; simpl; try done.
  intros [H1 H2]. split; [by apply lookup_app_l_Some|done].
Qed.

Lemma tracked_more pre more st n origin porigin :
  tracked rf nf pre st n origin porigin ->
  tracked rf nf (pre ++ more) (set_buffer (buffer st ++ more) st)
          n origin porigin.
Proof.
  intros [H1 H2 H3 H4 H5 H6 H7]. split; simpl; try done.
  - by rewrite H1, drop_app_le.
  - rewrite length_app. lia.
  - eapply Forall2_impl; [exact H4|]. intros w o. apply parked_more.
  - intros i k Hk. destruct (H7 i k Hk) as (a & d & Ha & Hd & Hc).
    exists a, d. split; [by apply lookup_app_l_Some|done].
Qed.

(** One payload taken and handed to the callback. *)
Lemma tracked_delivered pre st n origin porigin msg rest s' d :
  tracked rf nf pre st n origin porigin ->
  drop n pre = msg :: rest ->
  comes_from rf nf msg d ->
  tracked rf nf pre (callback d (set_inner s' (set_buffer rest st)))
          (Datatypes.S n) (origin ++ [n]) porigin.
Proof.
  intros [H1 H2 H3 H4 H5 H6 H7] Hd Hc.
  destruct (drop_head _ _ _ _ Hd) as (Hl & -> & Hlt).
  assert (n ∉ origin ++ live porigin) as Hfresh.
  { intros Hin. rewrite Forall_forall in H6. specialize (H6 n Hin). lia. }
  assert ((origin ++ [n]) ++ live porigin ≡ₚ n :: (origin ++ live porigin))
    as Hp by (rewrite <- app_assoc; simpl; by rewrite <- Permutation_middle).
  split; simpl; try done.
  - rewrite !length_app. simpl. lia.
  - rewrite Hp. by apply NoDup_cons.
  - rewrite Hp. constructor; [lia|].
    eapply Forall_impl; [exact H6|]. simpl. lia.
  - intros i k Hk. apply lookup_app_Some in Hk as [Hk|[Hge Hk]].
    + destruct (H7 i k Hk) as (a & d0 & Ha & Hd0 & Hc0).
      exists a, d0. split; [done|]. split; [by apply lookup_app_l_Some|done].
    + apply list_lookup_singleton_Some in Hk as [Hi <-].
      exists msg, d. split; [done|]. split; [|done].
      assert (i = length (delivered st)) as -> by lia.
      by rewrite lookup_app_r, Nat.sub_diag.
Qed.

(** One payload taken and dropped. *)
Lemma tracked_dropped pre st n origin porigin msg rest s' :
  tracked rf nf pre st n origin porigin ->
  drop n pre = msg :: rest ->
  tracked rf nf pre (set_inner s' (set_buffer rest st))
          (Datatypes.S n) origin porigin.
Proof.
  intros [H1 H2 H3 H4 H5 H6 H7] Hd.
  destruct (drop_head _ _ _ _ Hd) as (Hl & -> & Hlt).
  split; simpl; try done.
  eapply Forall_impl; [exact H6|]. simpl. lia.
Qed.

(** One response taken whose filter waits for I/O. *)
Lemma tracked_parked_run pre st n origin porigin m rest s' :
  tracked rf nf pre st n origin porigin ->
  drop n pre = JResponse m :: rest ->
  awaited rf m ->
  tracked rf nf pre
          (set_waiting (waiting st ++ [Some m])
                       (set_inner s' (set_buffer rest st)))
          (Datatypes.S n) origin (porigin ++ [Some n]).
Proof.
  intros [H1 H2 H3 H4 H5 H6 H7] Hd Hc.
  destruct (drop_head _ _ _ _ Hd) as (Hl & -> & Hlt).
  assert (n ∉ origin ++ live porigin) as Hfresh.
  { intros Hin. rewrite Forall_forall in H6. specialize (H6 n Hin). lia. }
  assert (origin ++ live (porigin ++ [Some n]) ≡ₚ n :: (origin ++ live porigin))
    as Hp.
  { rewrite live_snoc, app_assoc.
    by rewrite <- Permutation_cons_append. }
  split; simpl; try done.
  - apply Forall2_app; [done|]. by repeat constructor.
  - rewrite Hp. by apply NoDup_cons.
  - rewrite Hp. constructor; [lia|].
    eapply Forall_impl; [exact H6|]. simpl. lia.
Qed.

Lemma processMessages_tracked pre pending : forall st n origin porigin,
  tracked rf nf pre st n origin porigin ->
  pending = drop n pre ->
  exists n' origin' porigin',
    tracked rf nf pre (processMessages rf nf pending st) n' origin' porigin'.
Proof.
  induction pending as [|msg rest IH]; intros st n origin porigin H Hp.
  - exists n, origin, porigin. destruct H as [H1 H2 H3 H4 H5 H6 H7].
    split; simpl; try done.
  - symmetry in Hp. destruct (drop_head _ _ _ _ Hp) as (Hl & Hrest & Hlt).
    simpl. destruct msg as [m|m|raw].
    + destruct (rf m (inner st)) as [s' outcome] eqn:E.
      destruct outcome as [[m'|]|uids|].
      * eapply IH; [|exact Hrest].
        apply (tracked_delivered _ _ _ _ _ _ _ _ _ H Hp).
        left. exists (inner st). by rewrite E.
      * eexists _, _, _. by apply (tracked_dropped _ _ _ _ _ _ _ _ H Hp).
      * eexists _, _, _.
        apply (tracked_parked_run _ _ _ _ _ _ _ _ H Hp).
        exists (inner st), uids. by rewrite E.
      * eexists _, _, _. by apply (tracked_dropped _ _ _ _ _ _ _ _ H Hp).
    + destruct (nf m (inner st)) as [s' [m'|]] eqn:E.
      * eapply IH; [|exact Hrest].
        apply (tracked_delivered _ _ _ _ _ _ _ _ _ H Hp).
        exists (inner st). by rewrite E.
      * eexists _, _, _. by apply (tracked_dropped _ _ _ _ _ _ _ _ H Hp).
    + eapply IH; [|exact Hrest].
      assert (callback (JUnhandled raw) (set_buffer rest st)
              = callback (JUnhandled raw)
                  (set_inner (inner st) (set_buffer rest st))) as ->
          by done.
      by apply (tracked_delivered _ _ _ _ _ _ _ _ _ H Hp).
Qed.

Lemma resume_tracked pre k r st n origin porigin :
  tracked rf nf pre st n origin porigin ->
  exists n' origin' porigin',
    tracked rf nf pre (resume rf nf k r st) n' origin' porigin'.
Proof.
  intros H. unfold resume.
  destruct (waiting st !! k) as [[m|]|] eqn:Hw; [|by eauto..].
  destruct H as [H1 H2 H3 H4 H5 H6 H7].
  destruct (Forall2_lookup_l _ _ _ _ _ H4 Hw) as (o & Ho & Hpa).
  destruct o as [j|]; [|done]. destruct Hpa as [Hj Haw].
  pose proof (live_resumed _ _ _ Ho) as Hperm.
  assert (Forall2 (parked_at rf pre) (<[k:=None]> (waiting st))
                  (<[k:=None]> porigin)) as H4'
      by (by apply Forall2_insert).
  rewrite Hperm in H5, H6.
  assert (origin ++ j :: live (<[k:=None]> porigin)
          ≡ₚ j :: (origin ++ live (<[k:=None]> porigin))) as Hmid
      by (by rewrite <- Permutation_middle).
  rewrite Hmid in H5, H6.
  apply NoDup_cons in H5 as [Hfresh H5].
  apply Forall_cons in H6 as [Hjn H6].
  destruct r as [m'|].
  - assert (tracked rf nf pre
              (callback (JResponse m')
                 (set_waiting (<[k:=None]> (waiting st)) st))
              n (origin ++ [j]) (<[k:=None]> porigin)) as Ht.
    { assert ((origin ++ [j]) ++ live (<[k:=None]> porigin)
              ≡ₚ j :: (origin ++ live (<[k:=None]> porigin))) as Hp
          by (rewrite <- app_assoc; simpl; by rewrite <- Permutation_middle).
      split; simpl; try done.
      - rewrite !length_app. simpl. lia.
      - rewrite Hp. by apply NoDup_cons.
      - rewrite Hp. by constructor.
      - intros i q Hq. apply lookup_app_Some in Hq as [Hq|[Hge Hq]].
        + destruct (H7 i q Hq) as (a & d0 & Ha & Hd0 & Hc0).
          exists a, d0. split; [done|].
          split; [by apply lookup_app_l_Some|done].
        + apply list_lookup_singleton_Some in Hq as [Hi <-].
          exists (JResponse m), (JResponse m'). split; [done|].
          split; [|by right].
          assert (i = length (delivered st)) as -> by lia.
          by rewrite lookup_app_r, Nat.sub_diag. }
    eapply processMessages_tracked; [exact Ht|]. simpl. exact H1.
  - exists n, origin, (<[k:=None]> porigin). split; simpl; done.
Qed.

Lemma run_tracked tr : forall st pre n origin porigin,
  tracked rf nf pre st n origin porigin ->
  exists n' origin' porigin',
    tracked rf nf (pre ++ arrivals tr) (run rf nf tr st) n' origin' porigin'.
Proof.
  induction tr as [|e tr IH]; intros st pre n origin porigin H.
  - exists n, origin, porigin. simpl. by rewrite app_nil_r.
  - simpl. destruct e as [complete|k r].
    + unfold arrivals. simpl. fold (arrivals tr). rewrite app_assoc.
      unfold on_data.
      pose proof (tracked_more _ complete _ _ _ _ H) as H'.
      destruct (processMessages_tracked (pre ++ complete)
                  (buffer (set_buffer (buffer st ++ complete) st))
                  _ _ _ _ H' (tracked_buffer _ _ _ _ _ _ _ H'))
        as (n1 & o1 & p1 & H1).
      by eapply IH.
    + unfold arrivals. simpl. fold (arrivals tr).
      destruct (resume_tracked pre k r _ _ _ _ H) as (n1 & o1 & p1 & H1).
      by eapply IH.
Qed.

(** X17.  Whatever the filters do, the reader takes payloads from the
    buffer in the order the socket delivered them, and hands none to
    the callback twice: what is left in the buffer is a tail of the
    arrivals, and every call of the callback has an arrival of its own
    among those taken, for which it was made: the payload itself, what
    the filter made of it, or, for a response that waited for I/O, what
    the filter settled with. *)
Theorem reader_takes_in_order_delivers_at_most_once
        (tr : list event) (s : S) :
  let st := run rf nf tr (init s) in
  exists (n : nat) (origin : list nat),
    buffer st = drop n (arrivals tr) /\
    n <= length (arrivals tr) /\
    length (delivered st) <= n /\
    length origin = length (delivered st) /\
    NoDup origin /\
    forall i k, origin !! i = Some k ->
      k < n /\
      exists a d, arrivals tr !! k = Some a /\ delivered st !! i = Some d /\
                  comes_from rf nf a d.
Proof.
  assert (tracked rf nf [] (init s) 0 [] []) as H0.
  { split; simpl; try done; constructor. }
  destruct (run_tracked tr _ _ _ _ _ H0) as (n & origin & porigin & H).
  simpl in H. destruct H as [H1 H2 H3 H4 H5 H6 H7].
  apply NoDup_app in H5 as (Hnd & _ & _).
  apply Forall_app in H6 as [Hb _].
  exists n, origin. split_and!; try done.
  - rewrite <- H3.
    assert (origin ⊆ seq 0 n) as Hsub.
    { intros k Hk. rewrite Forall_forall in Hb. specialize (Hb k Hk).
      apply elem_of_seq. lia. }
    pose proof (submseteq_length _ _ (NoDup_submseteq _ _ Hnd Hsub)) as Hl.
    by rewrite length_seq in Hl.
  - intros i k Hk. split.
    + rewrite Forall_forall in Hb. apply Hb. by eapply list_elem_of_lookup_2.
    + by apply H7.
Qed.

Lemma processMessages_forwarding pending :
  (forall m s, snd (rf m s) = Client.Settled (Client.Forward m)) ->
  (forall m s, snd (nf m s) = Client.Forward m) ->
  forall st,
    delivered (processMessages rf nf pending st) = delivered st ++ pending /\
    buffer (processMessages rf nf pending st) = [] /\
    waiting (processMessages rf nf pending st) = waiting st.
Proof.
  intros Hrf Hnf.
  induction pending as [|msg rest IH]; intros st.
  - simpl. by rewrite app_nil_r.
  - simpl. destruct msg as [m|m|raw].
    + pose proof (Hrf m (inner st)) as E.
      destruct (rf m (inner st)) as [s' outcome].
      simpl in E. subst outcome.
      destruct (IH (callback (JResponse m)
                      (set_inner s' (set_buffer rest st))))
        as (H1 & H2 & H3).
      rewrite H1, H2, H3. simpl. by rewrite <- app_assoc.
    + pose proof (Hnf m (inner st)) as E.
      destruct (nf m (inner st)) as [s' modified].
      simpl in E. subst modified.
      destruct (IH (callback (JNotification m)
                      (set_inner s' (set_buffer rest st))))
        as (H1 & H2 & H3).
      rewrite H1, H2, H3. simpl. by rewrite <- app_assoc.
    + destruct (IH (callback (JUnhandled raw) (set_buffer rest st)))
        as (H1 & H2 & H3).
      rewrite H1, H2, H3. simpl. by rewrite <- app_assoc.
Qed.

(** X18.  With filters that hand every message on as it is and at
    once, as the transport's own default filters do, the callback
    receives every payload, in the order of arrival, and nothing stays
    in the buffer or waits. *)
Theorem forwarding_filters_deliver_everything
        (tr : list event) (s : S) :
  (forall m s, snd (rf m s) = Client.Settled (Client.Forward m)) ->
  (forall m s, snd (nf m s) = Client.Forward m) ->
  let st := run rf nf tr (init s) in
  delivered st = arrivals tr /\ buffer st = [] /\ waiting st = [].
Proof.
  intros Hrf Hnf.
  assert (forall tr st, buffer st = [] -> waiting st = [] ->
            delivered (run rf nf tr st) = delivered st ++ arrivals tr /\
            buffer (run rf nf tr st) = [] /\
            waiting (run rf nf tr st) = []) as H.
  { clear tr. induction tr as [|e tr IH]; intros st Hb Hw.
    - simpl. by rewrite app_nil_r.
    - simpl. destruct e as [complete|k r].
      + unfold arrivals. simpl. fold (arrivals tr). unfold on_data.
        destruct (processMessages_forwarding
                    (buffer (set_buffer (buffer st ++ complete) st))
                    Hrf Hnf (set_buffer (buffer st ++ complete) st))
          as (H1 & H2 & H3).
        destruct (IH _ H2 (eq_trans H3 Hw)) as (K1 & K2 & K3).
        rewrite K1, K2, K3, H1. simpl. rewrite Hb. simpl.
        by rewrite app_assoc.
      + unfold arrivals. simpl. fold (arrivals tr).
        unfold resume. rewrite Hw. simpl. by apply IH. }
  intros st. subst st. destruct (H tr (init s) eq_refl eq_refl) as (A & B & C).
  done.
Qed.

End AnyFilters.

Lemma forwarding_filters_witness :
  delivered (run (S := unit) pass_response pass_notification
                 [Data [JResponse Scenario.hover_response];
                  Data [JNotification Scenario.diagnostics;
                        JUnhandled "{}"]]
                 (init tt))
  = [JResponse Scenario.hover_response;
     JNotification Scenario.diagnostics; JUnhandled "{}"].
Proof.
  apply (forwarding_filters_deliver_everything
           (S := unit) pass_response pass_notification
           [Data [JResponse Scenario.hover_response];
            Data [JNotification Scenario.diagnostics; JUnhandled "{}"]] tt);
    reflexivity.
Defined.

(** X19.  The server answers a hover request with [null].  The filter
    of the client reads [result.contents] and throws; the run of
    [processMessages] ends there: the response never reaches the
    callback, and the payloads behind it in the same chunk stay in the
    buffer.  The entry of the request is gone from the table all the
    same. *)
Theorem null_hover_result_stops_the_reader
        (now : Z) (m : Client.ResponseMessage) (e : Client.sent)
        (rest : list json) (c : Client.client) :
  Client.filters_bound c = true ->
  Client.sentMessages c !! Client.resp_id m = Some e ->
  Client.req_method (Client.sent_message e) = Some "textDocument/hover" ->
  Client.resp_result m = Client.RNull ->
  let st := client_step now (Data (JResponse m :: rest)) (init c) in
  delivered st = [] /\
  buffer st = rest /\
  waiting st = [] /\
  Client.sentMessages (inner st) !! Client.resp_id m = None.
Proof.
  intros Hf He Hm Hr. unfold client_step, step, on_data. simpl.
  unfold Client.responseFilter. rewrite Hf.
  pose proof (ClientFacts.sentMessages_response_filter now m c) as Hs.
  unfold Client.response_filter in *. rewrite He in *. simpl in *.
  rewrite Hm in *. simpl in *. rewrite Hr in *. simpl in *.
  split_and!; try done. rewrite Hs. apply lookup_delete_eq.
Qed.

Lemma null_hover_witness :
  let st := client_step 5 (Data [JResponse null_hover;
                                 JNotification Scenario.diagnostics])
                        (init asked_for_hover) in
  delivered st = [] /\ buffer st = [JNotification Scenario.diagnostics].
Proof.
  destruct (null_hover_result_stops_the_reader
              5 null_hover
              {| Client.sent_message := Session.hover_request;
                 Client.sent_timestamp := 0 |}
              [JNotification Scenario.diagnostics] asked_for_hover
              eq_refl eq_refl eq_refl eq_refl) as (H1 & H2 & _).
  split; [exact H1|exact H2].
Defined.

End ReaderMore.

(* ====================================================================== *)
(** * More about the connection manager *)
(* ====================================================================== *)

Module ManagerMore.
Import Manager ManagerTrace Scenario.

(** ** The attempt counter *)

Lemma kept_refl m : kept_or_reset m m.
Proof. by left. Qed.

Lemma kept_trans m1 m2 m3 :
  kept_or_reset m1 m2 -> kept_or_reset m2 m3 -> kept_or_reset m1 m3.
Proof. unfold kept_or_reset. intros [H1|H1] [H2|H2]; rewrite ?H2, ?H1; auto. Qed.

Lemma kept_same m m' :
  reconnectionAttempts m' = reconnectionAttempts m -> kept_or_reset m m'.
Proof. by left. Qed.

Lemma kept_status s m : kept_or_reset m (on_client_status_changed s m).
Proof.
  destruct s; simpl; try by left.
  destruct (negb (Client.started (client m))); [by left|by right].
Qed.

Lemma kept_hear heard : forall m, kept_or_reset m (hear heard m).
Proof.
  induction heard as [|s heard IH]; intros m; [by left|].
  simpl. eapply kept_trans; [apply kept_status|apply IH].
Qed.

Lemma kept_client_connect e tgt alt m :
  kept_or_reset m (client_connect e tgt alt m).
Proof.
  unfold client_connect.
  destruct (Client.connect (cfg e) tgt alt (client m)) as [c heard].
  eapply kept_trans; [|apply kept_hear]. by left.
Qed.

Lemma kept_io_emits ev m : kept_or_reset m (io_emits ev m).
Proof.
  unfold io_emits. destruct (Client.io_listeners (client m)); [|by left].
  destruct ev; [| |by left].
  - destruct (Client.on_connected (client m)) as [c heard].
    eapply kept_trans; [|apply kept_hear]. by left.
  - destruct (Client.on_disconnected (client m)) as [c heard].
    eapply kept_trans; [|apply kept_hear]. by left.
Qed.

Lemma kept_io_emits_all emitted : forall m,
  kept_or_reset m (fold_left (fun m e => io_emits e m) emitted m).
Proof.
  induction emitted as [|ev emitted IH]; intros m; [by left|].
  simpl. eapply kept_trans; [apply kept_io_emits|apply IH].
Qed.

Lemma kept_socket_event i sev m : kept_or_reset m (socket_event i sev m).
Proof.
  unfold socket_event.
  destruct (IO.fire i sev (Client.io (client m))) as [io' emitted].
  eapply kept_trans; [|apply kept_io_emits_all]. by left.
Qed.

Lemma kept_onCapabilitiesReceived m :
  kept_or_reset m (onCapabilitiesReceived m).
Proof.
  unfold onCapabilitiesReceived. simpl.
  destruct (capabilitiesResolver m) as [t|]; [|by left].
  simpl. destruct (tasks m !! t) as [[]|]; try by left. by right.
Qed.

Lemma kept_notification msg m : kept_or_reset m (notification msg m).
Proof.
  unfold notification. destruct (Client.filters_bound (client m)); [|by left].
  generalize (snd (Client.notification_filter msg)). intros effs.
  revert m. induction effs as [|eff effs IH]; intros m; [by left|].
  simpl. eapply kept_trans; [|apply IH].
  destruct eff; [by left|apply kept_onCapabilitiesReceived].
Qed.

Lemma kept_step e ev m :
  match ev with
  | ConnectToLanguageServer _ | RetryTimer => True
  | _ => kept_or_reset m (step e ev m)
  end.
Proof.
  destruct ev; simpl; try done.
  - apply kept_socket_event.
  - unfold start_settled. destruct (tasks m !! t) as [[]|]; try by left.
    destruct ok; [|by right].
    unfold waitForCapabilities. simpl.
    destruct (capabilitiesReceived m); [by right|by left].
  - unfold capabilities_timeout.
    destruct (tasks m !! t) as [[]|]; try by left. by right.
  - unfold dispose_settled.
    destruct (tasks m !! t) as [[]|]; try by left.
    left. destruct ok; simpl; destruct (retry m); simpl;
      by destruct (negb (port =? -1)%Z).
  - apply kept_notification.
  - unfold project_dir_settled.
    destruct (tasks m !! t) as [[]|]; try by left.
    simpl. by destruct (Nat.eqb gen (client_gen m)); left.
Qed.

Lemma bounded_step e ev m :
  (0 <= reconnectionAttempts m <= attempts_bound e)%Z ->
  (0 <= reconnectionAttempts (step e ev m) <= attempts_bound e)%Z.
Proof.
  intros H. unfold attempts_bound in *.
  pose proof (kept_step e ev m) as K.
  destruct ev;
    try (destruct K as [K|K]; rewrite K; [exact H|lia]).
  - simpl. unfold connect_to_language_server.
    match goal with
    | |- context [client_connect e ?tgt false ?m0] =>
        destruct (kept_client_connect e tgt false m0) as [K'|K'];
        rewrite K'; simpl; lia
    end.
  - simpl. unfold retry_callback. destruct (retry m); [|exact H].
    unfold retry_connect_client.
    destruct (Client.lsp_autoReconnect_enabled (cfg e)); simpl; [|exact H].
    destruct (reconnectionAttempts m <=?
              Client.lsp_autoReconnect_attempts (cfg e) - 1)%Z eqn:G;
      simpl; [|exact H].
    apply Z.leb_le in G.
    match goal with
    | |- context [client_connect e ?tgt ?alt ?m0] =>
        destruct (kept_client_connect e tgt alt m0) as [K'|K'];
        rewrite K'; simpl; lia
    end.
Qed.

(** X21.  In every run of a new manager the attempt counter stays
    between zero and the configured maximum (zero when the setting is
    negative): the retry timer never makes more than
    [lsp.autoReconnect.attempts] attempts in a row. *)
Theorem reconnection_attempts_stay_bounded (e : env) (tr : list event) :
  (0 <= reconnectionAttempts (run e tr new_manager) <= attempts_bound e)%Z.
Proof.
  assert (forall m,
             (0 <= reconnectionAttempts m <= attempts_bound e)%Z ->
             (0 <= reconnectionAttempts (run e tr m) <= attempts_bound e)%Z)
    as H.
  { induction tr as [|ev tr IH]; intros m Hm; [exact Hm|].
    simpl. apply IH. by apply bounded_step. }
  apply H. unfold attempts_bound. simpl. lia.
Qed.

(** X22.  When the timer finds the attempts used up, or automatic
    reconnection switched off, it opens no socket: the manager goes to
    DISCONNECTED, shows the prompt once and lowers the retry flag, so
    that the next tick of the timer does nothing at all. *)
Theorem exhausted_retries_prompt_once (e : env) (m : manager) :
  retry m = true ->
  Client.lsp_autoReconnect_enabled (cfg e) = false \/
  (Client.lsp_autoReconnect_attempts (cfg e) <= reconnectionAttempts m)%Z ->
  let m' := step e RetryTimer m in
  status m' = DISCONNECTED /\
  retry m' = false /\
  signals m' = signals m ++ [RetryPrompt] /\
  client m' = client m /\
  step e RetryTimer m' = m'.
Proof.
  intros Hr Hx. simpl. unfold retry_callback. rewrite Hr.
  unfold retry_connect_client.
  assert (Client.lsp_autoReconnect_enabled (cfg e)
          && (reconnectionAttempts m <=?
              Client.lsp_autoReconnect_attempts (cfg e) - 1)%Z = false) as G.
  { destruct Hx as [-> | Hx]; [done|].
    apply andb_false_iff. right. apply Z.leb_gt. lia. }
  rewrite G. done.
Qed.

Lemma exhausted_retries_witness :
  status (step editor_env RetryTimer exhausted) = DISCONNECTED /\
  signals (step editor_env RetryTimer exhausted) = [RetryPrompt].
Proof.
  destruct (exhausted_retries_prompt_once editor_env exhausted eq_refl)
    as (H1 & _ & H3 & _).
  - right. simpl. lia.
  - split; [exact H1|exact H3].
Defined.

(** ** The handshake *)

(** X23.  The handshake of a started client ends exactly once, whichever
    comes first, the capabilities or the timer: in both orders the
    manager ends CONNECTED and [lspReady] has fired once more, not
    twice. *)
Theorem handshake_concludes_once
        (e : env) (m : manager) (t : nat) (ms : Z) :
  tasks m !! t = Some (AwaitCapabilities ms) ->
  capabilitiesResolver m = Some t ->
  Client.filters_bound (client m) = true ->
  let in_time := run e [Notification capabilities; CapabilitiesTimeout t] m in
  let late := run e [CapabilitiesTimeout t; Notification capabilities] m in
  status in_time = CONNECTED /\ ready_count in_time = ready_count m + 1 /\
  status late = CONNECTED /\ ready_count late = ready_count m + 1.
Proof.
  intros Ht Hc Hf. simpl.
  unfold notification, capabilities_timeout, onCapabilitiesReceived.
  rewrite Hf. cbn [Client.notification_filter snd fold_left].
  simpl. rewrite Hc, Ht. simpl.
  pose proof (lookup_lt_Some _ _ _ Ht) as Hlt.
  rewrite ?list_lookup_insert_eq, ?Hf by done. simpl.
  unfold ready_count. simpl.
  rewrite ?List.filter_app, ?length_app. simpl. split_and!; try done; lia.
Qed.

Lemma handshake_concludes_once_witness :
  ready_count
    (run editor_env [Notification capabilities; CapabilitiesTimeout 0]
         connected_manager) = 1 /\
  ready_count
    (run editor_env [CapabilitiesTimeout 0; Notification capabilities]
         connected_manager) = 1.
Proof.
  destruct (handshake_concludes_once editor_env connected_manager 0 30000
              eq_refl eq_refl eq_refl) as (_ & H1 & _ & H2).
  split; [exact H1|exact H2].
Defined.

(** X24.  Capabilities that arrive while [start()] is still pending are
    not lost: when [start()] settles the handshake ends on the spot,
    no timer is left behind, and the manager is CONNECTED with
    [lspReady] fired once. *)
Theorem early_capabilities_are_kept (e : env) (m : manager) (t : nat) :
  tasks m !! t = Some AwaitStart ->
  capabilitiesResolver m = None ->
  Client.filters_bound (client m) = true ->
  let m' := run e [Notification capabilities; StartSettled t true] m in
  status m' = CONNECTED /\
  ready_count m' = ready_count m + 1 /\
  tasks m' !! t = Some Finished /\
  step e (CapabilitiesTimeout t) m' = m'.
Proof.
  intros Ht Hc Hf. simpl.
  unfold notification, start_settled, onCapabilitiesReceived.
  rewrite Hf. cbn [Client.notification_filter snd fold_left].
  simpl. rewrite Hc. simpl. rewrite Ht. simpl.
  pose proof (lookup_lt_Some _ _ _ Ht) as Hlt.
  unfold capabilities_timeout, ready_count. simpl.
  rewrite ?list_lookup_insert_eq by done. simpl.
  rewrite ?List.filter_app, ?length_app. simpl. split_and!; try done; lia.
Qed.

Lemma early_capabilities_witness :
  status (run editor_env [Notification capabilities; StartSettled 0 true]
            (run editor_env
                 [ConnectToLanguageServer None; Socket 0 IO.SConnect]
                 new_manager)) = CONNECTED.
Proof.
  apply (early_capabilities_are_kept
           editor_env
           (run editor_env
                [ConnectToLanguageServer None; Socket 0 IO.SConnect]
                new_manager) 0); reflexivity.
Defined.

(** ** A client that was disposed *)

Lemma deaf_socket_event i sev m :
  Client.io_listeners (client m) = false ->
  let m' := socket_event i sev m in
  Client.io_listeners (client m') = false /\
  set_client (client m) m' = m /\
  Client.set_io (Client.io (client m)) (client m') = client m.
Proof.
  intros H. unfold socket_event.
  destruct (IO.fire i sev (Client.io (client m))) as [io' emitted].
  assert (forall m0, Client.io_listeners (client m0) = false ->
            fold_left (fun m e => io_emits e m) emitted m0 = m0) as Hq.
  { induction emitted as [|ev emitted IH]; intros m0 H0; [done|].
    simpl. unfold io_emits at 2. rewrite H0. by apply IH. }
  rewrite Hq by done. simpl.
  destruct m as [c ? ? ? ? ? ? ? ? ? ? ?]. simpl in *.
  split_and!; [done|done|by destruct c].
Qed.

Lemma set_client_twice c c' m :
  set_client c (set_client c' m) = set_client c m.
Proof. done. Qed.

Lemma set_io_twice v v' c :
  Client.set_io v (Client.set_io v' c) = Client.set_io v c.
Proof. done. Qed.

(** X25.  Once the manager has heard DISCONNECTED and disposed its
    client, no event of that client's sockets reaches it any more:
    whatever the sockets report before the new client is built, the
    manager keeps its status, signals and parked tasks, and of the
    client only the transport changes. *)
Theorem disposed_client_is_deaf
        (e : env) (m : manager) (evs : list (nat * IO.sock_event)) :
  let m1 := create_new_client m in
  let m2 := run e (socket_events evs) m1 in
  set_client (client m1) m2 = m1 /\
  Client.set_io (Client.io (client m1)) (client m2) = client m1.
Proof.
  intros m1 m2.
  assert (Client.io_listeners (client m1) = false) as H1 by done.
  subst m2. revert H1. generalize m1. clear m1 m.
  induction evs as [|[i sev] evs IH]; intros m H.
  - simpl. destruct m as [c ? ? ? ? ? ? ? ? ? ? ?]. simpl.
    split; [done|by destruct c].
  - simpl.
    destruct (deaf_socket_event i sev m H) as (A & B & C).
    destruct (IH _ A) as [D E].
    cbv zeta in B, C. split.
    + rewrite <- (set_client_twice _ (client (socket_event i sev m))).
      by rewrite D, B.
    + rewrite <- (set_io_twice _ (Client.io (client (socket_event i sev m)))).
      by rewrite E, C.
Qed.

End ManagerMore.

(* ====================================================================== *)
(** * The definition provider *)
(* ====================================================================== *)

Module DefinitionsFacts.
Import Definitions.

Lemma upper_range c :
  is_upper c = true ->
  65 <= Ascii.nat_of_ascii c <= 90.
Proof.
  unfold is_upper. intros [H1 H2]%andb_true_iff.
  apply Nat.leb_le in H1, H2. lia.
Qed.

Lemma lower_not_upper c : is_upper (toLowerCase c) = false.
Proof.
  unfold toLowerCase. destruct (is_upper c) eqn:E; [|done].
  apply upper_range in E. unfold is_upper.
  rewrite Ascii.nat_ascii_embedding by lia.
  apply andb_false_iff. right. apply Nat.leb_gt. lia.
Qed.

Lemma underscore_not_upper : is_upper underscore = false.
Proof. reflexivity. Qed.

Lemma no_capital_from w : forall prev,
  no_capital (toSnakeCase_from prev w) = true.
Proof.
  induction w as [|c w IH]; intros prev; [done|].
  simpl. destruct (is_upper c) eqn:E.
  - destruct prev as [p|]; [destruct (Ascii.eqb p underscore)|]; simpl;
      rewrite ?lower_not_upper, ?underscore_not_upper, IH; done.
  - simpl. by rewrite E, IH.
Qed.

Lemma plain_from w : forall prev,
  no_capital w = true -> toSnakeCase_from prev w = w.
Proof.
  induction w as [|c w IH]; intros prev H; [done|].
  simpl in *. apply andb_true_iff in H as [H1 H2].
  apply negb_true_iff in H1. rewrite H1. by rewrite IH.
Qed.

(** X26.  The result of [toSnakeCase] holds no capital letter, and a
    word without capitals is left as it is: converting twice is
    converting once. *)
Theorem toSnakeCase_settles (word : string) :
  no_capital (toSnakeCase word) = true /\
  toSnakeCase (toSnakeCase word) = toSnakeCase word.
Proof.
  split; [apply no_capital_from|apply plain_from, no_capital_from].
Qed.

Lemma lower_underscore c :
  Ascii.eqb (toLowerCase c) underscore = Ascii.eqb c underscore.
Proof.
  unfold toLowerCase. destruct (is_upper c) eqn:E; [|done].
  apply upper_range in E.
  destruct (Ascii.eqb c underscore) eqn:E1.
  - apply Ascii.eqb_eq in E1. subst c.
    change (Ascii.nat_of_ascii underscore) with 95 in E. lia.
  - apply Ascii.eqb_neq. intros E2.
    apply (f_equal Ascii.nat_of_ascii) in E2.
    rewrite Ascii.nat_ascii_embedding in E2 by lia.
    change (Ascii.nat_of_ascii underscore) with 95 in E2. lia.
Qed.

Lemma lower_lower c : toLowerCase (toLowerCase c) = toLowerCase c.
Proof.
  unfold toLowerCase at 1. by rewrite lower_not_upper.
Qed.

Lemma letters_from w : forall prev,
  letters (toSnakeCase_from prev w) = letters w.
Proof.
  induction w as [|c w IH]; intros prev; [done|].
  simpl. destruct (is_upper c) eqn:E.
  - assert (Ascii.eqb c underscore = false) as Hc.
    { apply Ascii.eqb_neq. intros ->. by rewrite underscore_not_upper in E. }
    destruct prev as [p|]; [destruct (Ascii.eqb p underscore)|]; simpl;
      rewrite ?Ascii.eqb_refl, lower_underscore, Hc, lower_lower, IH; done.
  - simpl. by rewrite IH.
Qed.

(** X27.  [toSnakeCase] adds underscores and lowers capitals, nothing
    else: the letters of the result, underscores left out, are the
    letters of the word, lower-cased and in the same order. *)
Theorem toSnakeCase_keeps_the_letters (word : string) :
  letters (toSnakeCase word) = letters word.
Proof. apply letters_from. Qed.

Lemma Map_of_lookup (entries : list (string * string)) (k : string) :
  forall m : gmap string string,
    fold_left (fun m kv => <[fst kv := snd kv]> m) entries m !! k =
    match last_entry k entries with
    | Some v => Some v
    | None => m !! k
    end.
Proof.
  induction entries as [|[k' v] rest IH]; intros m; [done|].
  simpl. rewrite IH. destruct (last_entry k rest); [done|].
  destruct (String.eqb k' k) eqn:E.
  - apply String.eqb_eq in E. subst. by rewrite lookup_insert_eq.
  - apply String.eqb_neq in E. by rewrite lookup_insert_ne.
Qed.

(** X28.  The table of virtual methods never answers MainLoop: its two
    MainLoop pairs are replaced by the SceneTree pairs with the same
    keys.  For every word of the table the C# branch of
    [provideDefinition] (the word not being a class name) points to the
    class found and to a member name without capitals. *)
Theorem virtual_method_lookup
        (is_class : string -> bool) (word cls : string) :
  GODOT_VIRTUAL_METHODS !! word = Some cls ->
  cls <> "MainLoop" /\
  (is_class word = false ->
   csharp_definition is_class word = Some (cls, Some (toSnakeCase word)) /\
   no_capital (toSnakeCase word) = true).
Proof.
  intros H. pose proof H as H'. revert H'.
  unfold GODOT_VIRTUAL_METHODS, Map_of. rewrite Map_of_lookup.
  unfold virtual_method_entries, last_entry. cbn [fst snd].
  intros Hc.
  assert (cls <> "MainLoop" /\ String.eqb cls EmptyString = false) as [H1 H2].
  { revert Hc.
    repeat match goal with
           | |- context [String.eqb ?a word] => destruct (String.eqb a word)
           end; intros [= <-]; done. }
  split; [done|]. intros Hn. unfold csharp_definition.
  rewrite Hn, H, H2. split; [done|apply no_capital_from].
Qed.

Lemma virtual_method_lookup_witness :
  csharp_definition (fun _ => false) "_Initialize"
  = Some ("SceneTree", Some "_initialize").
Proof.
  destruct (virtual_method_lookup (fun _ => false) "_Initialize" "SceneTree")
    as [_ H]; [by vm_compute|].
  destruct (H eq_refl) as [H1 _]. exact H1.
Defined.

End DefinitionsFacts.

(* ====================================================================== *)
(** * The hover preview *)
(* ====================================================================== *)

Module HoverFacts.
Import Hover.

Lemma split_cons (text : list Z) : exists line lines, split text = line :: lines.
Proof.
  induction text as [|c rest (line & lines & IH)]; simpl; [eauto|].
  destruct (c =? LF)%Z; [eauto|]. rewrite IH. eauto.
Qed.

Lemma join_more (l l2 : list Z) (ls : list (list Z)) :
  join (l :: l2 :: ls) = l ++ LF :: join (l2 :: ls).
Proof. done. Qed.

Lemma join_split (text : list Z) : join (split text) = text.
Proof.
  induction text as [|c rest IH]; [done|]. simpl.
  destruct (split_cons rest) as (line & lines & E).
  rewrite E in *.
  destruct (c =? LF)%Z eqn:Ec.
  - apply Z.eqb_eq in Ec. subst c. by rewrite join_more, IH.
  - destruct lines as [|l2 lines].
    + simpl in *. by rewrite IH.
    + rewrite join_more in *. by rewrite <- IH.
Qed.

Lemma split_no_LF (text : list Z) : Forall no_LF (split text).
Proof.
  induction text as [|c rest IH]; simpl.
  - repeat constructor.
  - destruct (c =? LF)%Z eqn:Ec.
    + constructor; [constructor|done].
    + apply Z.eqb_neq in Ec.
      destruct (split rest) as [|line lines]; [repeat constructor; done|].
      inversion IH; subst. constructor; [by constructor|done].
Qed.

Lemma split_LF (rest : list Z) : split (LF :: rest) = [] :: split rest.
Proof. done. Qed.

Lemma split_line (line : list Z) : no_LF line -> split line = [line].
Proof.
  induction 1 as [|c line Hc _ IH]; [done|]. simpl.
  apply Z.eqb_neq in Hc. by rewrite Hc, IH.
Qed.

Lemma split_line_then (line rest : list Z) :
  no_LF line -> split (line ++ LF :: rest) = line :: split rest.
Proof.
  induction 1 as [|c line Hc _ IH]; [done|]. simpl.
  apply Z.eqb_neq in Hc. by rewrite Hc, IH.
Qed.

Lemma split_join_then (lines : list (list Z)) (rest : list Z) :
  lines <> [] -> Forall no_LF lines ->
  split (join lines ++ LF :: rest) = lines ++ split rest.
Proof.
  induction lines as [|line lines IH]; intros Hne Hl; [done|].
  inversion Hl as [|? ? H1 H2]; subst. destruct lines as [|l2 lines].
  - simpl. by apply split_line_then.
  - rewrite join_more, <- app_assoc. simpl.
    rewrite split_line_then by done.
    f_equal. apply IH; done.
Qed.

Lemma split_join (lines : list (list Z)) :
  lines <> [] -> Forall no_LF lines -> split (join lines) = lines.
Proof.
  induction lines as [|line lines IH]; intros Hne Hl; [done|].
  inversion Hl as [|? ? H1 H2]; subst. destruct lines as [|l2 lines].
  - by apply split_line.
  - rewrite join_more, split_line_then by done. f_equal. apply IH; done.
Qed.

Lemma units_no_LF (s : string) :
  forallb (fun c => negb (c =? LF)%Z) (units s) = true -> no_LF (units s).
Proof.
  intros H. apply Forall_forall. intros c Hc.
  rewrite forallb_forall in H. apply list_elem_of_In, H in Hc.
  apply negb_true_iff in Hc. by apply Z.eqb_neq.
Qed.

Lemma decimal_go_no_LF fuel : forall n acc,
  no_LF acc -> no_LF (decimal_go fuel n acc).
Proof.
  induction fuel as [|fuel IH]; intros n acc H; [done|]. simpl.
  assert (no_LF ((48 + Z.of_nat (n mod 10))%Z :: acc)) as H'.
  { constructor; [|done]. unfold LF. lia. }
  destruct (n <? 10)%nat; [done|]. by apply IH.
Qed.

Lemma clip_short (line : list Z) : length (clip line) <= MAX_LINE_LENGTH + 3.
Proof.
  unfold clip. destruct (MAX_LINE_LENGTH <? length line)%nat eqn:E.
  - rewrite length_app, length_take.
    change (length (units "...")) with 3. lia.
  - apply Nat.ltb_ge in E. lia.
Qed.

Lemma clip_no_LF (line : list Z) : no_LF line -> no_LF (clip line).
Proof.
  intros H. unfold clip. destruct (_ <? _)%nat; [|done].
  apply Forall_app. split; [by apply Forall_take|].
  by apply units_no_LF.
Qed.

Lemma clip_fits (line : list Z) :
  length line <= MAX_LINE_LENGTH -> clip line = line.
Proof.
  intros H. unfold clip. apply Nat.ltb_ge in H. by rewrite H.
Qed.

Lemma clip_all_fit (lines : list (list Z)) :
  Forall (fun line => length line <= MAX_LINE_LENGTH) lines ->
  List.map clip lines = lines.
Proof.
  induction 1 as [|line lines H _ IH]; [done|]. simpl.
  by rewrite clip_fits, IH.
Qed.

(** X29.  A text of at most fifty lines, none longer than two hundred
    code units, is its own preview. *)
Theorem small_text_is_its_own_preview (text : list Z) (languageId : string) :
  length (split text) <= MAX_PREVIEW_LINES ->
  Forall (fun line => length line <= MAX_LINE_LENGTH) (split text) ->
  truncateForPreview text languageId = text.
Proof.
  intros Hn Hl. unfold truncateForPreview.
  apply Nat.ltb_ge in Hn as Hn'. rewrite Hn'.
  rewrite take_ge by done.
  rewrite clip_all_fit by done.
  apply join_split.
Qed.

Lemma small_text_witness :
  truncateForPreview (units "func f():") "gdscript" = units "func f():".
Proof.
  apply small_text_is_its_own_preview.
  - vm_compute. lia.
  - vm_compute. constructor; [lia|constructor].
Defined.

(** X30.  Whatever the text, its preview has at most fifty-two lines
    (fifty of the text, an empty one and the count of those left out),
    and the first fifty are the first fifty of the text, each cut to
    at most two hundred and three code units. *)
Theorem preview_is_bounded (text : list Z) (languageId : string) :
  let out := split (truncateForPreview text languageId) in
  length out <= MAX_PREVIEW_LINES + 2 /\
  take MAX_PREVIEW_LINES out
  = List.map clip (take MAX_PREVIEW_LINES (split text)) /\
  Forall (fun line => length line <= MAX_LINE_LENGTH + 3)
         (take MAX_PREVIEW_LINES out).
Proof.
  intros out. subst out. unfold truncateForPreview.
  set (P := List.map clip (take MAX_PREVIEW_LINES (split text))).
  assert (P <> []) as Hne.
  { subst P. destruct (split_cons text) as (l & ls & ->). done. }
  assert (Forall no_LF P) as Hfree.
  { subst P. change (List.map clip ?l) with (clip <$> l).
    apply Forall_fmap, Forall_take.
    eapply Forall_impl; [apply split_no_LF|].
    intros l Hl. by apply clip_no_LF. }
  assert (Forall (fun line => length line <= MAX_LINE_LENGTH + 3) P) as Hshort.
  { subst P. change (List.map clip ?l) with (clip <$> l).
    apply Forall_fmap, Forall_forall. intros l _. apply clip_short. }
  assert (length P <= MAX_PREVIEW_LINES) as Hlen.
  { subst P. rewrite length_map, length_take. lia. }
  destruct (MAX_PREVIEW_LINES <? length (split text))%nat eqn:E.
  - apply Nat.ltb_lt in E.
    assert (length P = MAX_PREVIEW_LINES) as Hfull.
    { subst P. rewrite length_map, length_take. lia. }
    rewrite split_join_then, split_LF by done.
    rewrite split_line.
    2:{ apply Forall_app. split; [by apply units_no_LF|].
        apply Forall_app. split; [|by apply units_no_LF].
        apply decimal_go_no_LF. constructor. }
    rewrite length_app, take_app_length' by done.
    cbn [length]. split_and!; [lia|done|done].
  - rewrite split_join by done.
    rewrite take_ge by done. split_and!; [lia|done|done].
Qed.

End HoverFacts.

(* ====================================================================== *)
(** * The listeners of the reader *)
(* ====================================================================== *)

Module ListeningFacts.
Import Listening.

Lemma off_last (x : registration) (others rest : list registration) :
  x ∉ rest -> off x (others ++ x :: rest) = others ++ rest.
Proof.
  intros Hx. induction others as [|y others IH]; simpl.
  - rewrite bool_decide_eq_false_2 by done.
    by rewrite bool_decide_eq_true_2.
  - rewrite bool_decide_eq_true_2; [by rewrite IH|].
    apply elem_of_app. right. by left.
Qed.

Lemma off_all (mine : list registration) : forall others,
  NoDup mine ->
  fold_left (fun em x => off x em) mine (others ++ mine) = others.
Proof.
  induction mine as [|x mine IH]; intros others Hn; simpl.
  - by rewrite app_nil_r.
  - apply NoDup_cons in Hn as [Hx Hn]. rewrite off_last by done.
    by apply IH.
Qed.

Lemma three_distinct (n : nat) :
  NoDup [("data", n); ("error", S n); ("close", S (S n))].
Proof.
  repeat (apply NoDup_cons; split); try apply NoDup_nil_2;
    rewrite ?elem_of_cons, ?elem_of_nil; intros H;
    repeat destruct H as [H|H]; try done; by inversion H.
Qed.

Lemma listening_step (others : list registration) (c : call) (st : state) :
  emitter st = others ++ listeners st ->
  NoDup (listeners st) ->
  emitter (step c st) = others ++ listeners (step c st) /\
  NoDup (listeners (step c st)) /\
  length (listeners (step c st)) <= 3.
Proof.
  intros He Hn.
  assert (emitter (disposeListeners st) = others) as Hd
      by (simpl; rewrite He; by apply off_all).
  destruct c as [cb|]; simpl.
  - simpl in Hd. rewrite Hd. split_and!; [done|apply three_distinct|lia].
  - simpl in Hd. rewrite Hd, app_nil_r.
    split_and!; [done|apply NoDup_nil_2|lia].
Qed.

(** X20.  However often [listen] and the disposal of the listeners are
    called, the transport carries, besides the listeners it had, exactly
    the ones the reader has on record, and those are at most three:
    listening again does not pile up handlers. *)
Theorem listeners_never_pile_up
        (others : list registration) (calls : list call) :
  let st := run calls (start others) in
  emitter st = others ++ listeners st /\ length (listeners st) <= 3.
Proof.
  assert (forall st,
             emitter st = others ++ listeners st -> NoDup (listeners st) ->
             length (listeners st) <= 3 ->
             emitter (run calls st) = others ++ listeners (run calls st) /\
             length (listeners (run calls st)) <= 3) as H.
  { induction calls as [|c calls IH]; intros st He Hn Hl; [done|].
    simpl. destruct (listening_step others c st He Hn) as (A & B & C).
    by apply IH. }
  apply H; simpl; [by rewrite app_nil_r|apply NoDup_nil_2|lia].
Qed.

End ListeningFacts.

(* ====================================================================== *)
(** * Hover text that needs no fixing *)
(* ====================================================================== *)

Module MarkupFacts.
Import Markup Text Client.

Lemma plain_head c rest :
  plain (String c rest) = true ->
  Ascii.eqb c backtick = false /\ is_hash c = false /\ plain rest = true.
Proof.
  simpl. intros [[H1 H2]%andb_true_iff H3]%andb_true_iff.
  by rewrite negb_true_iff in H1, H2.
Qed.

Lemma plain_starts s : plain s = true -> starts_with_hash s = false.
Proof.
  destruct s as [|c rest]; [done|]. intros H.
  by destruct (plain_head _ _ H) as (_ & ? & _).
Qed.

Lemma strip_plain s :
  plain s = true -> strip_heading_marks false s = s.
Proof.
  induction s as [|c rest IH]; [done|]. intros H.
  destruct (plain_head _ _ H) as (_ & _ & Hr).
  simpl. rewrite (plain_starts _ Hr), andb_false_r. by rewrite IH.
Qed.

Lemma prefix_backtick (pat s : string) :
  plain s = true -> String.prefix (String backtick pat) s = false.
Proof.
  destruct s as [|c rest]; [done|]. intros H.
  destruct (plain_head _ _ H) as (Hb & _ & _). cbn [String.prefix].
  destruct (Ascii.ascii_dec backtick c) as [E|E]; [|done].
  subst c. by rewrite Ascii.eqb_refl in Hb.
Qed.

Lemma replace_plain (all active : bool) (pat rep s : string) :
  plain s = true ->
  replace_from all (String backtick pat) rep active 0 s = s.
Proof.
  induction s as [|c rest IH]; [done|]. intros H.
  destruct (plain_head _ _ H) as (_ & _ & Hr).
  cbn [replace_from]. rewrite (prefix_backtick pat _ H), andb_false_r.
  by rewrite IH.
Qed.

Lemma fix_plain (value : string) :
  plain value = true -> fix_hover_value value = value.
Proof.
  intros H. unfold fix_hover_value, replace, replaceAll.
  rewrite (strip_plain _ H).
  change "`br`" with (String backtick "br`").
  change "`codeblocks`" with (String backtick "codeblocks`").
  change "`/codeblocks`" with (String backtick "/codeblocks`").
  change "`gdscript`" with (String backtick "gdscript`").
  change "`/gdscript`" with (String backtick "/gdscript`").
  change "`csharp`" with (String backtick "csharp`").
  change "`/csharp`" with (String backtick "/csharp`").
  by repeat rewrite (replace_plain _ _ _ _ value H).
Qed.

(** X16.  A hover text without backtick and without ['#'] needs no
    fixing: the response to a hover request that carries it is handed
    on exactly as it came. *)
Theorem plain_hover_text_is_untouched
        (now : Z) (m : ResponseMessage) (e : sent) (value : string)
        (c : client) :
  sentMessages c !! resp_id m = Some e ->
  req_method (sent_message e) = Some "textDocument/hover" ->
  resp_result m = RHover value ->
  plain value = true ->
  snd (response_filter now m c) = Settled (Forward m).
Proof.
  intros He Hm Hr Hp. unfold response_filter. rewrite He. simpl.
  rewrite Hm. simpl. rewrite Hr.
  destruct (String.eqb value EmptyString); [done|]. simpl.
  rewrite (fix_plain _ Hp). destruct m. simpl in *. by subst.
Qed.

Lemma plain_hover_witness :
  snd (response_filter 5 plain_hover ReaderTrace.asked_for_hover)
  = Settled (Forward plain_hover).
Proof.
  apply (plain_hover_text_is_untouched
           5 plain_hover
           {| sent_message := Session.hover_request; sent_timestamp := 0 |}
           "func f()" ReaderTrace.asked_for_hover); reflexivity.
Defined.

End MarkupFacts.
